(** * globalizer: multiscope globalization services

    A shallow embedding of [globalizer.h] (namespace [Security]) and the
    properties of its nexus family: [ModuleNexus] in both conditionally
    compiled forms, [CleanModuleNexus], [ThreadNexus] and [ProcessNexus].

    Pointers and the [AtomicWord] are integers ([Z]); the C++ free store is
    an explicit [heap]; an operation takes the state it touches and returns
    the new one.  The outcome of the wrapped type's constructor is not
    decided by this code, so it is an input of every operation that may run
    [new Type] (a [ctor]). *)

From Stdlib Require Import ZArith Lia.
From stdpp Require Import base option list gmap strings.

Open Scope Z_scope.

(** ** Exceptions *)

(** [GlobalNexus::Error] (globalizer.h:44-50): an exception carrying a static
    message; [what()] returns it. *)
Record Error := mkError { message : string }.

Definition what (e : Error) : string := message e.

(** What a constructor or the nexus machinery may throw. *)
Inductive exn :=
| NexusError (e : Error)
| BadAlloc
| TypeError (text : string).

(** How a call ends: it returns a value, it leaves by an exception, or it never
    gets past a lock or a wait (nothing else runs in a sequential reading). *)
Inductive outcome (A : Type) :=
| Returns (a : A)
| Throws (e : exn)
| Blocks.
Arguments Returns {A} a.
Arguments Throws {A} e.
Arguments Blocks {A}.

(** An effect that C++ leaves undefined for some inputs. *)
Inductive effect (A : Type) :=
| Done (a : A)
| Undefined.
Arguments Done {A} a.
Arguments Undefined {A}.

(** A word or a pointer used as a C condition. *)
Definition nonzero (x : Z) : bool := negb (x =? 0).

(** ** The free store *)

(** Instances of the wrapped [Type] are told apart by the serial number of the
    constructor run that made them: an address can be handed out again after a
    [delete], a serial number never is. *)
Record heap := Heap {
  live : gmap Z nat;        (* address of every living instance, and which one *)
  built : nat;              (* constructor runs completed so far *)
  destroyed : list nat      (* instances destroyed, latest first *)
}.

Definition empty_heap : heap := Heap ∅ 0 [].

(** The environment's part in [new Type]: where the allocator puts the
    instance, or what the allocation or the constructor throws. *)
Inductive ctor :=
| Built (a : Z)
| Raises (e : exn).

(** [new Type]. *)
Definition new_Type (c : ctor) (h : heap) : (exn + Z) * heap :=
  match c with
  | Built a =>
      (inr a, Heap (<[a := built h]> (live h)) (S (built h)) (destroyed h))
  | Raises e => (inl e, h)
  end.

(** What C++ promises of the address [new Type] returns: not null, aligned
    (low bit clear), and not the address of a living instance. *)
Definition fresh_in (h : heap) (a : Z) : Prop :=
  a ≠ 0 ∧ Z.land a 1 = 0 ∧ live h !! a = None.

Definition ctor_ok (h : heap) (c : ctor) : Prop :=
  match c with
  | Built a => fresh_in h a
  | Raises _ => True
  end.

(** [delete p]: nothing for a null pointer, the destructor and the release of
    the storage for a living instance, undefined for anything else. *)
Definition delete_ (p : Z) (h : heap) : effect heap :=
  if negb (nonzero p) then Done h
  else match live h !! p with
       | Some o => Done (Heap (delete p (live h)) (built h) (o :: destroyed h))
       | None => Undefined
       end.

(** Every living instance sits at an aligned, non-null address and was made
    by a constructor run already counted. *)
Definition heap_ok (h : heap) : Prop :=
  ∀ a o, live h !! a = Some o → a ≠ 0 ∧ Z.land a 1 = 0 ∧ (o < built h)%nat.

(** ** The three readings of the module slot *)

Inductive slot_state := Empty | InProgress | Finished.

(** The tests the header applies to the word: [!p], [p & 0x1]. *)
Definition slot_of (p : Z) : slot_state :=
  if negb (nonzero p) then Empty
  else if nonzero (Z.land p 1) then InProgress
  else Finished.

(** ** Mutex and StLock *)

(** A [Mutex] is held or not.  Taking a held mutex blocks. *)
Definition Mutex := bool.

Definition lock (m : Mutex) : option Mutex := if m then None else Some true.
Definition unlock (m : Mutex) : Mutex := false.

(** ** Threads racing through one call each *)

(** A call is cut into steps, one access to shared memory each.  Thread [t]
    of a pool is at the position held by entry [t] of a list; a step of the
    pool is a step of one of its threads.  Memory is sequentially
    consistent: the steps of the threads interleave. *)
Section Pool.

Context {Sh Pc : Type}.

(** One thread's step: its number, what the constructor would do, where it
    is, the shared object and the free store; [None] if it cannot move. *)
Variable step1 : nat → ctor → Pc → Sh → heap → option (Pc * Sh * heap).

(** What the call gave, once it is over. *)
Variable result : Pc → option (exn + Z).

(** What the constructor may do in a given free store. *)
Variable env : heap → ctor → Prop.

Record config := Config {
  shared : Sh;
  free_store : heap;
  threads : list Pc
}.

Inductive pool_step : config → config → Prop :=
| pool_step_thread t c p p' sh sh' h h' ths :
    ths !! t = Some p →
    env h c →
    step1 t c p sh h = Some (p', sh', h') →
    pool_step (Config sh h ths) (Config sh' h' (<[t := p']> ths)).

(** [N] threads about to make the call. *)
Definition racing (N : nat) (sh0 : Sh) (start : Pc) (h0 : heap) : config :=
  Config sh0 h0 (replicate N start).

Definition all_left (k : config) : Prop :=
  ∀ t p, threads k !! t = Some p → is_Some (result p).

Definition returned (k : config) (t : nat) (r : Z) : Prop :=
  ∃ p, threads k !! t = Some p ∧ result p = Some (inr r).

(** However [N >= 1] threads race through their first call, once all are
    back exactly one instance has been constructed and every call has
    returned the same reference. *)
Definition constructs_once (sh0 : Sh) (start : Pc) : Prop :=
  ∀ (N : nat) (h0 : heap) (k : config),
    (1 ≤ N)%nat → heap_ok h0 →
    rtc pool_step (racing N sh0 start h0) k →
    all_left k →
    built (free_store k) = S (built h0) ∧
    ∃ r, ∀ t, (t < N)%nat → returned k t r.

(** Wherever the race stands, no more than one instance has been constructed,
    and a call that has returned has returned that instance, which the slot
    [slot] of the shared object holds. *)
Definition at_most_once (slot : Sh → Z) (sh0 : Sh) (start : Pc) : Prop :=
  ∀ (N : nat) (h0 : heap) (k : config),
    heap_ok h0 →
    rtc pool_step (racing N sh0 start h0) k →
    (built (free_store k) ≤ S (built h0))%nat ∧
    ∀ t r, returned k t r →
      r = slot (shared k) ∧
      built (free_store k) = S (built h0) ∧
      live (free_store k) !! r = Some (built h0).

(** However [N] threads race through their first call, once all are back
    [N] instances have been constructed, every call has returned a living
    one, and no two calls have returned the same. *)
Definition constructs_one_each (sh0 : Sh) (start : Pc) : Prop :=
  ∀ (N : nat) (h0 : heap) (k : config),
    heap_ok h0 →
    rtc pool_step (racing N sh0 start h0) k →
    all_left k →
    built (free_store k) = (built h0 + N)%nat ∧
    (∀ t, (t < N)%nat →
       ∃ r, returned k t r ∧ is_Some (live (free_store k) !! r)) ∧
    (∀ t t' r r', returned k t r → returned k t' r' → t ≠ t' → r ≠ r').

(** Every run of the race has at most [bound] steps for each thread. *)
Definition ends_within (bound : nat) (sh0 : Sh) (start : Pc) : Prop :=
  ∀ (N n : nat) (h0 : heap) (k : config),
    nsteps pool_step n (racing N sh0 start h0) k → (n ≤ bound * N)%nat.

(** The race never gets stuck: wherever it stands, it can be run on until
    every call is over. *)
Definition can_finish (sh0 : Sh) (start : Pc) : Prop :=
  ∀ (N : nat) (h0 : heap) (k : config),
    heap_ok h0 →
    rtc pool_step (racing N sh0 start h0) k →
    ∃ k', rtc pool_step k k' ∧ all_left k'.

(** One thread running alone for at most [fuel] steps. *)
Fixpoint solo (fuel : nat) (me : nat) (c : ctor) (p : Pc) (sh : Sh) (h : heap)
  : outcome Z * Sh * heap :=
  match result p with
  | Some (inr r) => (Returns r, sh, h)
  | Some (inl e) => (Throws e, sh, h)
  | None =>
      match fuel with
      | O => (Blocks, sh, h)
      | S fuel' =>
          match step1 me c p sh h with
          | Some (p', sh', h') => solo fuel' me c p' sh' h'
          | None => (Blocks, sh, h)
          end
      end
  end.

End Pool.

Arguments config : clear implicits.
Arguments Config {Sh Pc} _ _ _.
Arguments shared {Sh Pc} _.
Arguments free_store {Sh Pc} _.
Arguments threads {Sh Pc} _.

(** The constructor may fail, the allocator keeps its promise. *)
Definition may_fail (h : heap) (c : ctor) : Prop := ctor_ok h c.

(** The constructor never fails. *)
Definition succeeds (h : heap) (c : ctor) : Prop := ∃ a, c = Built a ∧ fresh_in h a.

(** ** ModuleNexus, with atomic operations (globalizer.h:63-116) *)

Module ModuleNexus.

(** [ModuleNexusCommon]: both members are statically initialised to zero;
    [sync] is a [StaticAtomicCounter<UInt32>]. *)
Record t := Make { pointer : Z; sync : Z }.

Definition zero : t := Make 0 0.

(** [static void *make() { return new Type; }] *)
Definition make (c : ctor) (h : heap) : (exn + Z) * heap := new_Type c h.

(** Modelled from the spec: [ModuleNexusCommon::create] is declared at
    globalizer.h:67 and defined in globalizer.cpp, which is not among the
    sources.  Specification, section 4.1: a caller that does not find a
    finished pointer "attempts to become the single constructor by
    atomically claiming the slot (compare-and-swap from empty to the
    in-progress marker).  The winner invokes the factory, obtains a new
    instance, and atomically publishes the real pointer"; the others
    "re-poll the slot until it holds a finished pointer, never constructing
    a second instance themselves"; the counter is "fetch-and-increment".
    Section 7: a failure of the construction "propagates unchanged" and "the
    slot must be left in a state that permits a subsequent caller to retry".
    This is the call run to its end with no other thread active, where
    losing the claim means polling for ever. *)
Definition create (c : ctor) (n : t) (h : heap) : outcome Z * t * heap :=
  let s := (sync n + 1) mod 2 ^ 32 in
  match slot_of (pointer n) with
  | Empty =>
      match make c h with
      | (inr a, h') => (Returns a, Make a s, h')
      | (inl e, h') => (Throws e, Make 0 s, h')
      end
  | Finished => (Returns (pointer n), Make (pointer n) s, h)
  | InProgress => (Blocks, Make (pointer n) s, h)
  end.

(** [Type &operator () ()], globalizer.h:78-86. *)
Definition call (c : ctor) (n : t) (h : heap) : outcome Z * t * heap :=
  let p := pointer n in
  if negb (nonzero p) || nonzero (Z.land p 1) then create c n h
  else (Returns p, n, h).

(** [bool exists() const], globalizer.h:89-92. *)
Definition exists_ (n : t) : bool := nonzero (pointer n).

(** [void reset()], globalizer.h:95-101. *)
Definition reset (n : t) (h : heap) : effect (t * heap) :=
  if nonzero (pointer n) && negb (nonzero (Z.land (pointer n) 1)) then
    match delete_ (pointer n) h with
    | Done h' => Done (Make 0 (sync n), h')
    | Undefined => Undefined
    end
  else Done (n, h).

(** A finished slot points at a living instance. *)
Definition owns (n : t) (h : heap) : Prop :=
  slot_of (pointer n) = Finished → is_Some (live h !! pointer n).

(** *** The call, step by step *)

(** Modelled from the spec: the value a claimed slot holds.  Specification,
    section 4.1: 'a tagged "in-progress" value (same width as a pointer,
    distinguishable from any valid aligned instance pointer by a reserved
    low bit)'. *)
Definition marker : Z := 1.

Inductive pc :=
| Latch                  (* line 80: p = pointer; line 81: the test *)
| Create                 (* line 82, create: the counter is incremented *)
| Claim                  (* create: compare-and-swap, empty to in-progress *)
| Factory                (* create, the winner: make() *)
| Publish (a : Z)        (* create, the winner: pointer = a *)
| Abort (e : exn)        (* create, the winner failed: back to empty *)
| Poll                   (* create, a loser: read the slot again *)
| Left (r : exn + Z).    (* line 85, or the exception leaves the call *)

Definition result (p : pc) : option (exn + Z) :=
  match p with Left r => Some r | _ => None end.

(** Lines 80-85 are from the header; the positions inside [create] are
    modelled from the spec, as [create] above. *)
Definition step1 (me : nat) (c : ctor) (p : pc) (n : t) (h : heap)
  : option (pc * t * heap) :=
  match p with
  | Latch =>
      let w := pointer n in
      if negb (nonzero w) || nonzero (Z.land w 1) then Some (Create, n, h)
      else Some (Left (inr w), n, h)
  | Create => Some (Claim, Make (pointer n) ((sync n + 1) mod 2 ^ 32), h)
  | Claim =>
      if pointer n =? 0 then Some (Factory, Make marker (sync n), h)
      else Some (Poll, n, h)
  | Factory =>
      match make c h with
      | (inr a, h') => Some (Publish a, n, h')
      | (inl e, h') => Some (Abort e, n, h')
      end
  | Publish a => Some (Left (inr a), Make a (sync n), h)
  | Abort e => Some (Left (inl e), Make 0 (sync n), h)
  | Poll =>
      match slot_of (pointer n) with
      | Finished => Some (Left (inr (pointer n)), n, h)
      | _ => Some (Poll, n, h)
      end
  | Left _ => None
  end.

End ModuleNexus.

(** [~CleanModuleNexus()], globalizer.h:110-115. *)
Module CleanModuleNexus.

Definition destructor (n : ModuleNexus.t) (h : heap) : effect heap :=
  delete_ (ModuleNexus.pointer n) h.

End CleanModuleNexus.

(** ** ModuleNexus, without atomic operations (globalizer.h:118-151) *)

Module PlainModuleNexus.

(** [mSingleton] is statically initialised to NULL. *)
Record t := Make { mSingleton : Z; mLock : Mutex }.

Definition zero : t := Make 0 false.

(** [Type &operator () ()], globalizer.h:123-134.  [strict] is whether
    [PTHREAD_STRICT] is defined; the [StLock] releases [mLock] when the
    scope is left, by [return] or by an exception. *)
Definition call (strict : bool) (c : ctor) (n : t) (h : heap)
  : outcome Z * t * heap :=
  if negb strict && nonzero (mSingleton n) then (Returns (mSingleton n), n, h)
  else
    match lock (mLock n) with
    | None => (Blocks, n, h)
    | Some held =>
        if mSingleton n =? 0 then
          match new_Type c h with
          | (inr a, h') => (Returns a, Make a (unlock held), h')
          | (inl e, h') => (Throws e, Make (mSingleton n) (unlock held), h')
          end
        else (Returns (mSingleton n), Make (mSingleton n) (unlock held), h)
    end.

(** [void reset() { delete mSingleton; mSingleton = NULL; }] *)
Definition reset (n : t) (h : heap) : effect (t * heap) :=
  match delete_ (mSingleton n) h with
  | Done h' => Done (Make 0 (mLock n), h')
  | Undefined => Undefined
  end.

(** [~CleanModuleNexus()], globalizer.h:146-150. *)
Definition destructor (n : t) (h : heap) : effect heap :=
  delete_ (mSingleton n) h.

End PlainModuleNexus.

(** ** ThreadNexus (globalizer.h:164-179) *)

Module ThreadNexus.

(** Modelled from the spec: [PerThreadPointer<Type>] is declared in
    threading.h, which is not among the sources.  Specification, section 6:
    "Per-thread storage slot: get/set of a pointer value scoped per calling
    thread, initialized to empty for each new thread."  The cell of thread
    [me] is the entry [me] of a finite map; a thread without an entry reads
    NULL. *)
Record t := Make { mSlot : gmap nat Z }.

Definition get (n : t) (me : nat) : Z := default 0 (mSlot n !! me).
Definition set (n : t) (me : nat) (p : Z) : t := Make (<[me := p]> (mSlot n)).

(** [ThreadNexus() : mSlot(true) { }] *)
Definition ctor_ : t := Make ∅.

(** [Type &operator () ()], globalizer.h:168-175, called by thread [me]. *)
Definition call (me : nat) (c : ctor) (n : t) (h : heap)
  : outcome Z * t * heap :=
  let p := get n me in
  if nonzero p then (Returns p, n, h)
  else
    match new_Type c h with
    | (inr a, h') => let n' := set n me a in (Returns (get n' me), n', h')
    | (inl e, h') => (Throws e, n, h')
    end.

(** *** The call, step by step *)

Inductive pc :=
| Get                    (* line 171: Type *p = mSlot *)
| New                    (* line 173: new Type *)
| Set_ (a : Z)           (* line 173: mSlot = a *)
| Reload                 (* line 174: return *mSlot *)
| Left (r : exn + Z).

Definition result (p : pc) : option (exn + Z) :=
  match p with Left r => Some r | _ => None end.

Definition step1 (me : nat) (c : ctor) (p : pc) (n : t) (h : heap)
  : option (pc * t * heap) :=
  match p with
  | Get =>
      let q := get n me in
      if nonzero q then Some (Left (inr q), n, h) else Some (New, n, h)
  | New =>
      match new_Type c h with
      | (inr a, h') => Some (Set_ a, n, h')
      | (inl e, h') => Some (Left (inl e), n, h')
      end
  | Set_ a => Some (Reload, set n me a, h)
  | Reload => Some (Left (inr (get n me)), n, h)
  | Left _ => None
  end.

End ThreadNexus.

(** ** ProcessNexus (globalizer.h:187-220) *)

(** [ProcessNexusBase::Store]. *)
Module Store.

Record t := Make { mObject : Z; mLock : Mutex }.

Definition zero : t := Make 0 false.

End Store.

Module ProcessNexus.

(** What a process holds for its named nexi: the stores made so far (a
    [Store *] is a position in this list) and which identifier resolves to
    which store. *)
Record process := Process {
  stores : list Store.t;
  registry : gmap string nat
}.

Definition no_stores : process := Process [] ∅.

(** [mStore] is inherited from [ProcessNexusBase]; [mObject] is the private
    member declared at globalizer.h:205. *)
Record t := Make { mStore : nat; mObject : Z }.

(** Modelled from the spec: the constructor
    [ProcessNexusBase(const char *identifier)] is declared at
    globalizer.h:189 and defined in globalizer.cpp, which is not among the
    sources.  Specification, sections 3, 4.4 and 6: the construction
    "resolves (via an external, process-wide lookup mechanism keyed by
    identifier content) a store - a pointer slot paired with its own mutex -
    ensuring the same identifier always maps to the same store instance"; the
    registry, "given a string identifier, returns the same store object for
    equal identifier content across all callers in the process". *)
Definition ProcessNexusBase (identifier : string) (p : process)
  : nat * process :=
  match registry p !! identifier with
  | Some i => (i, p)
  | None =>
      let i := length (stores p) in
      (i, Process (stores p ++ [Store.zero]) (<[identifier := i]> (registry p)))
  end.

(** [ProcessNexus(const char *identifier) : ProcessNexusBase(identifier) { }]
    (globalizer.h:201).  The member [mObject] has no initialiser: it keeps
    whatever the storage of the object held, [junk]. *)
Definition ctor_ (identifier : string) (junk : Z) (p : process)
  : t * process :=
  let '(i, p') := ProcessNexusBase identifier p in (Make i junk, p').

(** The body of [Type &ProcessNexus<Type>::operator () ()],
    globalizer.h:209-220, on the store [*mStore].  [strict] is whether
    [PTHREAD_STRICT] is defined. *)
Definition call_on (strict : bool) (c : ctor) (s : Store.t) (h : heap)
  : outcome Z * Store.t * heap :=
  if negb strict && nonzero (Store.mObject s) then
    (Returns (Store.mObject s), s, h)
  else
    match lock (Store.mLock s) with
    | None => (Blocks, s, h)
    | Some held =>
        if Store.mObject s =? 0 then
          match new_Type c h with
          | (inr a, h') => (Returns a, Store.Make a (unlock held), h')
          | (inl e, h') =>
              (Throws e, Store.Make (Store.mObject s) (unlock held), h')
          end
        else
          (Returns (Store.mObject s),
           Store.Make (Store.mObject s) (unlock held), h)
    end.

(** The call on a nexus object: [mStore] is dereferenced, which is undefined
    if it points at no store. *)
Definition call (strict : bool) (c : ctor) (n : t) (p : process) (h : heap)
  : effect (outcome Z * t * process * heap) :=
  match stores p !! mStore n with
  | Some s =>
      let '(r, s', h') := call_on strict c s h in
      Done (r, n, Process (<[mStore n := s']> (stores p)) (registry p), h')
  | None => Undefined
  end.

(** *** The call, step by step *)

Inductive pc :=
| Enter                  (* line 213: if (mStore->mObject) *)
| FastReturn             (* line 214: return *mStore->mObject *)
| Acquire                (* line 216: StLock<Mutex> _(mStore->mLock) *)
| Check                  (* line 217: if (mStore->mObject == NULL) *)
| New                    (* line 218: new Type *)
| Assign (a : Z)         (* line 218: mStore->mObject = a *)
| Load                   (* line 219: return *mStore->mObject *)
| Release (r : exn + Z)  (* the StLock goes out of scope *)
| Left (r : exn + Z).

Definition result (p : pc) : option (exn + Z) :=
  match p with Left r => Some r | _ => None end.

Definition step1 (strict : bool) (me : nat) (c : ctor) (p : pc)
    (s : Store.t) (h : heap) : option (pc * Store.t * heap) :=
  match p with
  | Enter =>
      if negb strict && nonzero (Store.mObject s) then Some (FastReturn, s, h)
      else Some (Acquire, s, h)
  | FastReturn => Some (Left (inr (Store.mObject s)), s, h)
  | Acquire =>
      match lock (Store.mLock s) with
      | Some held => Some (Check, Store.Make (Store.mObject s) held, h)
      | None => None
      end
  | Check =>
      if Store.mObject s =? 0 then Some (New, s, h) else Some (Load, s, h)
  | New =>
      match new_Type c h with
      | (inr a, h') => Some (Assign a, s, h')
      | (inl e, h') => Some (Release (inl e), s, h')
      end
  | Assign a => Some (Load, Store.Make a (Store.mLock s), h)
  | Load => Some (Release (inr (Store.mObject s)), s, h)
  | Release r =>
      Some (Left r, Store.Make (Store.mObject s) (unlock (Store.mLock s)), h)
  | Left _ => None
  end.

End ProcessNexus.

(** ** Well-formed states *)

(** The call of the module nexus without atomic operations and the call of
    the process nexus are the same text, on [mSingleton]/[mLock] of the nexus
    and on [mObject]/[mLock] of the store. *)
Definition as_store (n : PlainModuleNexus.t) : Store.t :=
  Store.Make (PlainModuleNexus.mSingleton n) (PlainModuleNexus.mLock n).

Definition of_store (s : Store.t) : PlainModuleNexus.t :=
  PlainModuleNexus.Make (Store.mObject s) (Store.mLock s).

(** No call is under way on the nexus and, if it has an instance, the
    instance lives. *)
Definition plain_owns (n : PlainModuleNexus.t) (h : heap) : Prop :=
  PlainModuleNexus.mLock n = false ∧
  (PlainModuleNexus.mSingleton n ≠ 0 →
   is_Some (live h !! PlainModuleNexus.mSingleton n)).

(** Every thread's cell is empty or points at a living instance, and no two
    threads' cells point at the same one. *)
Definition thread_owns (n : ThreadNexus.t) (h : heap) : Prop :=
  ∀ t p, ThreadNexus.mSlot n !! t = Some p → p ≠ 0 →
    is_Some (live h !! p) ∧
    ∀ t', ThreadNexus.mSlot n !! t' = Some p → t' = t.

(** The stores of a process between calls: every identifier resolves to a
    store that exists, two identifiers never to the same one; every mutex is
    free; a store's instance lives, and no two stores share one. *)
Record process_ok (p : ProcessNexus.process) (h : heap) : Prop := {
  registry_valid : ∀ id i,
    ProcessNexus.registry p !! id = Some i →
    (i < length (ProcessNexus.stores p))%nat;
  registry_apart : ∀ id id' i,
    ProcessNexus.registry p !! id = Some i →
    ProcessNexus.registry p !! id' = Some i → id = id';
  stores_free : ∀ i s,
    ProcessNexus.stores p !! i = Some s → Store.mLock s = false;
  stores_live : ∀ i s,
    ProcessNexus.stores p !! i = Some s → Store.mObject s ≠ 0 →
    is_Some (live h !! Store.mObject s);
  stores_apart : ∀ i i' s s',
    ProcessNexus.stores p !! i = Some s →
    ProcessNexus.stores p !! i' = Some s' →
    Store.mObject s ≠ 0 → Store.mObject s = Store.mObject s' → i = i'
}.

(** ** The race for a process nexus: what holds at every moment *)

(** How far a pool still is from the end of all calls. *)
Definition total {Pc : Type} (weight : Pc → nat) (ths : list Pc) : nat :=
  sum_list (weight <$> ths).

(** An address the allocator may use next: even, not null, beyond every
    living instance. *)
Definition fresh_address (h : heap) : Z :=
  2 * (Z.of_nat (max_list (Z.abs_nat <$> (map_to_list (live h)).*1)) + 1).

(** The positions in which a thread holds the mutex of the store. *)
Definition process_critical (p : ProcessNexus.pc) : bool :=
  match p with
  | ProcessNexus.Check | ProcessNexus.New | ProcessNexus.Assign _
  | ProcessNexus.Load | ProcessNexus.Release _ => true
  | _ => false
  end.

(** An upper bound on the steps a thread has left. *)
Definition process_weight (p : ProcessNexus.pc) : nat :=
  match p with
  | ProcessNexus.Enter => 8
  | ProcessNexus.Acquire => 7
  | ProcessNexus.Check => 6
  | ProcessNexus.New => 5
  | ProcessNexus.Assign _ => 4
  | ProcessNexus.Load => 3
  | ProcessNexus.Release _ => 2
  | ProcessNexus.FastReturn => 1
  | ProcessNexus.Left _ => 0
  end.

(** What a thread at a given position can rely on; [b0] is the count of
    constructor runs before the race. *)
Definition process_thread_ok (b0 : nat) (s : Store.t) (h : heap)
    (p : ProcessNexus.pc) : Prop :=
  match p with
  | ProcessNexus.FastReturn | ProcessNexus.Load => Store.mObject s ≠ 0
  | ProcessNexus.New => Store.mObject s = 0
  | ProcessNexus.Assign a =>
      Store.mObject s = 0 ∧ a ≠ 0 ∧ built h = S b0 ∧ live h !! a = Some b0
  | ProcessNexus.Release (inr r) | ProcessNexus.Left (inr r) =>
      r = Store.mObject s ∧ r ≠ 0
  | _ => True
  end.

(** The invariant of the race: the mutex is held by exactly the thread in the
    guarded region; while [mObject] is NULL nothing has been constructed,
    unless the one thread between [new] and the assignment holds the
    instance; once [mObject] is set, it points to the one instance
    constructed. *)
Record process_inv (b0 : nat) (k : config Store.t ProcessNexus.pc) : Prop := {
  pinv_heap : heap_ok (free_store k);
  pinv_mutex : ∀ t t' p p',
    threads k !! t = Some p → threads k !! t' = Some p' →
    process_critical p = true → process_critical p' = true → t = t';
  pinv_held : ∀ t p,
    threads k !! t = Some p → process_critical p = true →
    Store.mLock (shared k) = true;
  pinv_holder :
    Store.mLock (shared k) = true →
    ∃ t p, threads k !! t = Some p ∧ process_critical p = true;
  pinv_none :
    Store.mObject (shared k) = 0 →
    (∀ t a, threads k !! t ≠ Some (ProcessNexus.Assign a)) →
    built (free_store k) = b0;
  pinv_some :
    Store.mObject (shared k) ≠ 0 →
    built (free_store k) = S b0 ∧
    live (free_store k) !! Store.mObject (shared k) = Some b0;
  pinv_thread : ∀ t p,
    threads k !! t = Some p →
    process_thread_ok b0 (shared k) (free_store k) p
}.

(** The positions a thread can be in if no constructor has thrown. *)
Definition process_calm (p : ProcessNexus.pc) : Prop :=
  match p with
  | ProcessNexus.Release (inl _) | ProcessNexus.Left (inl _) => False
  | _ => True
  end.

(** ** The race for a module nexus: what holds at every moment *)

(** The positions of the thread that has claimed the slot. *)
Definition module_critical (p : ModuleNexus.pc) : bool :=
  match p with
  | ModuleNexus.Factory | ModuleNexus.Publish _ | ModuleNexus.Abort _ => true
  | _ => false
  end.

(** Steps a thread has left, not counting the polls that find nothing. *)
Definition module_weight (p : ModuleNexus.pc) : nat :=
  match p with
  | ModuleNexus.Latch => 6
  | ModuleNexus.Create => 5
  | ModuleNexus.Claim => 4
  | ModuleNexus.Factory => 3
  | ModuleNexus.Publish _ => 2
  | ModuleNexus.Abort _ => 1
  | ModuleNexus.Poll => 1
  | ModuleNexus.Left _ => 0
  end.

Definition module_thread_ok (b0 : nat) (n : ModuleNexus.t) (h : heap)
    (p : ModuleNexus.pc) : Prop :=
  match p with
  | ModuleNexus.Publish a =>
      slot_of a = Finished ∧ built h = S b0 ∧ live h !! a = Some b0
  | ModuleNexus.Left (inr r) =>
      r = ModuleNexus.pointer n ∧ slot_of r = Finished
  | _ => True
  end.

(** The invariant of the race: the slot holds the marker exactly while one
    thread is between its claim and its publication; until the publication
    nothing has been constructed, unless that thread holds the instance; a
    finished slot points to the one instance constructed. *)
Record module_inv (b0 : nat) (k : config ModuleNexus.t ModuleNexus.pc)
  : Prop := {
  minv_heap : heap_ok (free_store k);
  minv_mutex : ∀ t t' p p',
    threads k !! t = Some p → threads k !! t' = Some p' →
    module_critical p = true → module_critical p' = true → t = t';
  minv_held : ∀ t p,
    threads k !! t = Some p → module_critical p = true →
    ModuleNexus.pointer (shared k) = ModuleNexus.marker;
  minv_holder :
    slot_of (ModuleNexus.pointer (shared k)) = InProgress →
    ∃ t p, threads k !! t = Some p ∧ module_critical p = true;
  minv_none :
    slot_of (ModuleNexus.pointer (shared k)) ≠ Finished →
    (∀ t a, threads k !! t ≠ Some (ModuleNexus.Publish a)) →
    built (free_store k) = b0;
  minv_some :
    slot_of (ModuleNexus.pointer (shared k)) = Finished →
    built (free_store k) = S b0 ∧
    live (free_store k) !! ModuleNexus.pointer (shared k) = Some b0;
  minv_thread : ∀ t p,
    threads k !! t = Some p →
    module_thread_ok b0 (shared k) (free_store k) p
}.

(** The positions a thread can be in if no constructor has thrown; then a
    thread polls only a slot that has been claimed. *)
Definition module_calm (n : ModuleNexus.t) (p : ModuleNexus.pc) : Prop :=
  match p with
  | ModuleNexus.Abort _ | ModuleNexus.Left (inl _) => False
  | ModuleNexus.Poll => ModuleNexus.pointer n ≠ 0
  | ModuleNexus.Publish a => a ≠ 0
  | _ => True
  end.

(** ** The race on a thread nexus: what holds at every moment *)

(** One for a thread whose [new Type] has succeeded. *)
Definition thread_built (p : ThreadNexus.pc) : nat :=
  match p with
  | ThreadNexus.Set_ _ | ThreadNexus.Reload | ThreadNexus.Left (inr _) => 1
  | _ => 0
  end.

(** An upper bound on the steps a thread has left. *)
Definition thread_weight (p : ThreadNexus.pc) : nat :=
  match p with
  | ThreadNexus.Get => 4
  | ThreadNexus.New => 3
  | ThreadNexus.Set_ _ => 2
  | ThreadNexus.Reload => 1
  | ThreadNexus.Left _ => 0
  end.

(** What thread [t] at a given position can rely on: its cell is empty until
    it has stored its instance, and the instance it is about to store is no
    other thread's. *)
Definition thread_at_ok (n : ThreadNexus.t) (h : heap)
    (ths : list ThreadNexus.pc) (t : nat) (p : ThreadNexus.pc) : Prop :=
  match p with
  | ThreadNexus.Get | ThreadNexus.New | ThreadNexus.Left (inl _) =>
      ThreadNexus.get n t = 0
  | ThreadNexus.Set_ a =>
      ThreadNexus.get n t = 0 ∧ a ≠ 0 ∧ is_Some (live h !! a) ∧
      (∀ t', ThreadNexus.mSlot n !! t' ≠ Some a) ∧
      (∀ t', ths !! t' = Some (ThreadNexus.Set_ a) → t' = t)
  | ThreadNexus.Reload => ThreadNexus.get n t ≠ 0
  | ThreadNexus.Left (inr r) => ThreadNexus.get n t = r ∧ r ≠ 0
  end.

(** The invariant of the race: the cells are apart, and as many instances
    have been constructed as threads have passed [new Type]. *)
Record thread_inv (b0 : nat) (k : config ThreadNexus.t ThreadNexus.pc)
  : Prop := {
  tinv_heap : heap_ok (free_store k);
  tinv_owns : thread_owns (shared k) (free_store k);
  tinv_built :
    built (free_store k) = (b0 + total thread_built (threads k))%nat;
  tinv_thread : ∀ t p,
    threads k !! t = Some p →
    thread_at_ok (shared k) (free_store k) (threads k) t p
}.

(** The positions a thread can be in if no constructor has thrown. *)
Definition thread_calm (p : ThreadNexus.pc) : Prop :=
  match p with ThreadNexus.Left (inl _) => False | _ => True end.

(** ** The race for a module nexus without atomic operations *)

(** The call of the module nexus without atomic operations, step by step:
    the steps of the process nexus (line 127 for 213, 128 for 214, 130 for
    216, 131 for 217, 132 for 218, 133 for 219), on [mSingleton] and [mLock]
    of the nexus itself. *)
Definition plain_step1 (strict : bool) (me : nat) (c : ctor)
    (p : ProcessNexus.pc) (n : PlainModuleNexus.t) (h : heap)
  : option (ProcessNexus.pc * PlainModuleNexus.t * heap) :=
  match ProcessNexus.step1 strict me c p (as_store n) h with
  | Some (p', s', h') => Some (p', of_store s', h')
  | None => None
  end.

(** A pool racing on a module nexus, seen as racing on a store. *)
Definition store_view (k : config PlainModuleNexus.t ProcessNexus.pc)
  : config Store.t ProcessNexus.pc :=
  Config (as_store (shared k)) (free_store k) (threads k).

(** ** More on the races *)

(** The positions of a thread that has seen the instance under the mutex:
    the thread that stored it passes through them. *)
Definition process_publisher (p : ProcessNexus.pc) : bool :=
  match p with
  | ProcessNexus.Load | ProcessNexus.Release (inr _)
  | ProcessNexus.Left (inr _) => true
  | _ => false
  end.

(** ** Histories of calls *)

(** What a sequence of [operator()] and [reset()] on a module nexus without
    atomic operations, one after the other, makes of the nexus and of the
    free store; the allocator keeps its promise at every [new]. *)
Inductive plain_history (strict : bool)
  : PlainModuleNexus.t → heap → PlainModuleNexus.t → heap → Prop :=
| plain_history_nil n h : plain_history strict n h n h
| plain_history_call n h n1 h1 c r n2 h2 :
    plain_history strict n h n1 h1 →
    ctor_ok h1 c →
    PlainModuleNexus.call strict c n1 h1 = (r, n2, h2) →
    plain_history strict n h n2 h2
| plain_history_reset n h n1 h1 n2 h2 :
    plain_history strict n h n1 h1 →
    PlainModuleNexus.reset n1 h1 = Done (n2, h2) →
    plain_history strict n h n2 h2.

(** One if the nexus has an instance. *)
Definition plain_holds (n : PlainModuleNexus.t) : nat :=
  if nonzero (PlainModuleNexus.mSingleton n) then 1 else 0.

(** What calls on a thread nexus by any threads, one after the other, make of
    the nexus and of the free store. *)
Inductive thread_history
  : ThreadNexus.t → heap → ThreadNexus.t → heap → Prop :=
| thread_history_nil n h : thread_history n h n h
| thread_history_call n h n1 h1 me c r n2 h2 :
    thread_history n h n1 h1 →
    ctor_ok h1 c →
    ThreadNexus.call me c n1 h1 = (r, n2, h2) →
    thread_history n h n2 h2.

(** * Properties *)

(** ** Words and the free store *)

Lemma land_1_cases (p : Z) : Z.land p 1 = 0 ∨ Z.land p 1 = 1.
Proof.
  change 1 with (Z.ones 1) at 1 2. rewrite Z.land_ones by lia.
  change (2 ^ 1) with 2. pose proof (Z.mod_pos_bound p 2 ltac:(lia)). lia.
Qed.

Lemma nonzero_true (x : Z) : nonzero x = true ↔ x ≠ 0.
Proof. unfold nonzero. destruct (Z.eqb_spec x 0); simpl; split; congruence. Qed.

Lemma nonzero_false (x : Z) : nonzero x = false ↔ x = 0.
Proof. unfold nonzero. destruct (Z.eqb_spec x 0); simpl; split; congruence. Qed.

Lemma slot_of_empty (p : Z) : slot_of p = Empty ↔ p = 0.
Proof.
  unfold slot_of, nonzero.
  destruct (Z.eqb_spec p 0); simpl; [tauto|].
  destruct (Z.eqb_spec (Z.land p 1) 0); simpl; split; congruence.
Qed.

Lemma slot_of_in_progress (p : Z) : slot_of p = InProgress ↔ Z.land p 1 = 1.
Proof.
  unfold slot_of, nonzero.
  destruct (Z.eqb_spec p 0) as [->|]; simpl; [split; [congruence | discriminate]|].
  destruct (Z.eqb_spec (Z.land p 1) 0) as [E|E]; simpl.
  - split; [congruence | lia].
  - destruct (land_1_cases p); [lia | tauto].
Qed.

Lemma slot_of_finished (p : Z) :
  slot_of p = Finished ↔ p ≠ 0 ∧ Z.land p 1 = 0.
Proof.
  unfold slot_of, nonzero.
  destruct (Z.eqb_spec p 0); simpl; [split; [congruence | tauto]|].
  destruct (Z.eqb_spec (Z.land p 1) 0); simpl; split; try tauto; congruence.
Qed.

Lemma fresh_is_finished (h : heap) (a : Z) : fresh_in h a → slot_of a = Finished.
Proof. intros (? & ? & _). by apply slot_of_finished. Qed.

Lemma live_is_finished (h : heap) (a : Z) (o : nat) :
  heap_ok h → live h !! a = Some o → slot_of a = Finished.
Proof. intros Hh Ha. destruct (Hh _ _ Ha) as (? & ? & _). by apply slot_of_finished. Qed.

Lemma heap_ok_empty : heap_ok empty_heap.
Proof. intros a o. unfold empty_heap; simpl. by rewrite lookup_empty. Qed.

Lemma heap_ok_new (h : heap) (a : Z) :
  heap_ok h → fresh_in h a →
  heap_ok (Heap (<[a := built h]> (live h)) (S (built h)) (destroyed h)).
Proof.
  intros Hh (Ha0 & Ha1 & _) b o; simpl.
  rewrite lookup_insert. case_decide as E.
  - intros [= <-]. subst b. repeat split; auto; lia.
  - intros Hb. destruct (Hh _ _ Hb) as (? & ? & ?). repeat split; auto; lia.
Qed.

Lemma heap_ok_delete (h : heap) (p : Z) (o : nat) :
  heap_ok h →
  heap_ok (Heap (delete p (live h)) (built h) (o :: destroyed h)).
Proof.
  intros Hh b o'; simpl. rewrite lookup_delete. case_decide; [done|]. apply Hh.
Qed.

Lemma delete_null (h : heap) : delete_ 0 h = Done h.
Proof. reflexivity. Qed.

Lemma delete_live (h : heap) (p : Z) (o : nat) :
  heap_ok h → live h !! p = Some o →
  delete_ p h = Done (Heap (delete p (live h)) (built h) (o :: destroyed h)).
Proof.
  intros Hh Hp. destruct (Hh _ _ Hp) as (Hp0 & _).
  unfold delete_. apply nonzero_true in Hp0. by rewrite Hp0, Hp.
Qed.

Lemma delete_tagged (h : heap) (p : Z) :
  heap_ok h → Z.land p 1 = 1 → delete_ p h = Undefined.
Proof.
  intros Hh Hp. unfold delete_.
  assert (p ≠ 0) as Hp0 by (intros ->; discriminate).
  apply nonzero_true in Hp0. rewrite Hp0. simpl.
  destruct (live h !! p) as [o|] eqn:E; [|done].
  destruct (Hh _ _ E) as (_ & ? & _). lia.
Qed.

(** ** ModuleNexus: the fast path *)

Lemma module_call_finished (c : ctor) (n : ModuleNexus.t) (h : heap) :
  slot_of (ModuleNexus.pointer n) = Finished →
  ModuleNexus.call c n h = (Returns (ModuleNexus.pointer n), n, h).
Proof.
  intros [Hp Hb]%slot_of_finished. unfold ModuleNexus.call.
  apply nonzero_true in Hp. apply nonzero_false in Hb. by rewrite Hp, Hb.
Qed.

Lemma module_call_unfinished (c : ctor) (n : ModuleNexus.t) (h : heap) :
  slot_of (ModuleNexus.pointer n) ≠ Finished →
  ModuleNexus.call c n h = ModuleNexus.create c n h.
Proof.
  intros Hs. unfold ModuleNexus.call.
  destruct (nonzero (ModuleNexus.pointer n)) eqn:Hp; simpl; [|done].
  destruct (nonzero (Z.land (ModuleNexus.pointer n) 1)) eqn:Hb; [done|].
  exfalso. apply Hs, slot_of_finished.
  by apply nonzero_true in Hp; apply nonzero_false in Hb.
Qed.

(** A call that returns leaves the slot finished, holding what it returned. *)
Lemma module_call_returns (c : ctor) (n n1 : ModuleNexus.t) (h h1 : heap) (r : Z) :
  ctor_ok h c →
  ModuleNexus.call c n h = (Returns r, n1, h1) →
  slot_of (ModuleNexus.pointer n1) = Finished ∧ ModuleNexus.pointer n1 = r.
Proof.
  intros Hc. destruct (slot_of (ModuleNexus.pointer n)) eqn:Hs.
  - rewrite module_call_unfinished by congruence.
    unfold ModuleNexus.create, ModuleNexus.make. rewrite Hs.
    destruct c as [a|e]; simpl; intros [= <- <- <-]; simpl.
    split; [by eapply fresh_is_finished | done].
  - rewrite module_call_unfinished by congruence.
    unfold ModuleNexus.create. rewrite Hs. discriminate.
  - rewrite module_call_finished by done. by intros [= <- <- <-].
Qed.

(** C2.  A module-scope call that finds a finished pointer in the slot returns
    it at once: the nexus (slot and counter) and the free store are left as
    they were, so nothing is claimed and nothing is constructed.  Hence a call
    that follows one that returned gives the same reference again, whatever
    the constructor would have done. *)
Theorem module_access_fast_path_idempotent
    (c1 c2 : ctor) (n : ModuleNexus.t) (h : heap) :
  slot_of (ModuleNexus.pointer n) = Finished →
  ModuleNexus.call c1 n h = (Returns (ModuleNexus.pointer n), n, h) ∧
  (∀ (m m1 : ModuleNexus.t) (g g1 : heap) (r : Z),
     ctor_ok g c1 →
     ModuleNexus.call c1 m g = (Returns r, m1, g1) →
     ModuleNexus.call c2 m1 g1 = (Returns r, m1, g1)).
Proof.
  intros Hs. split; [by apply module_call_finished|].
  intros m m1 g g1 r Hc Hcall.
  destruct (module_call_returns _ _ _ _ _ _ Hc Hcall) as [Hf <-].
  by apply module_call_finished.
Qed.

Lemma module_access_fast_path_idempotent_witness :
  slot_of (ModuleNexus.pointer (ModuleNexus.Make 4096 1)) = Finished ∧
  ModuleNexus.call (Built 8192) (ModuleNexus.Make 4096 1)
    (Heap {[4096 := 0%nat]} 1 []) =
  (Returns 4096, ModuleNexus.Make 4096 1, Heap {[4096 := 0%nat]} 1 []).
Proof.
  split; [reflexivity|].
  apply (module_access_fast_path_idempotent (Built 8192) (Built 8192)
           (ModuleNexus.Make 4096 1) (Heap {[4096 := 0%nat]} 1 [])).
  reflexivity.
Defined.

(** ** ModuleNexus: exists *)

Lemma module_exists_iff (n : ModuleNexus.t) :
  ModuleNexus.exists_ n = true ↔ slot_of (ModuleNexus.pointer n) ≠ Empty.
Proof.
  unfold ModuleNexus.exists_. rewrite nonzero_true, slot_of_empty. tauto.
Qed.

Lemma module_exists_finished (n : ModuleNexus.t) :
  slot_of (ModuleNexus.pointer n) = Finished → ModuleNexus.exists_ n = true.
Proof. intros Hs. apply module_exists_iff. congruence. Qed.

Lemma module_exists_empty (n : ModuleNexus.t) :
  slot_of (ModuleNexus.pointer n) = Empty → ModuleNexus.exists_ n = false.
Proof.
  intros Hs%slot_of_empty. unfold ModuleNexus.exists_. by apply nonzero_false.
Qed.

(** After a call that returned, and after any further calls, [exists()] is
    true. *)
Lemma module_exists_after_call
    (c : ctor) (n n1 : ModuleNexus.t) (h h1 : heap) (r : Z) :
  ctor_ok h c →
  ModuleNexus.call c n h = (Returns r, n1, h1) →
  ModuleNexus.exists_ n1 = true.
Proof.
  intros Hc Hcall. apply module_exists_finished.
  by destruct (module_call_returns _ _ _ _ _ _ Hc Hcall).
Qed.

(** C3.  [exists()] answers true for every slot that holds the in-progress
    marker, although no instance exists yet: it tests the word against NULL
    only, without the test of the low bit that [operator()] and [reset()]
    make.  Here the slot is the one a thread that has claimed it leaves
    behind while it constructs. *)
Theorem module_exists_true_while_in_progress :
  slot_of (ModuleNexus.pointer (ModuleNexus.Make ModuleNexus.marker 1))
    = InProgress ∧
  ModuleNexus.step1 0 (Built 4096) ModuleNexus.Claim (ModuleNexus.Make 0 1)
    empty_heap
    = Some (ModuleNexus.Factory, ModuleNexus.Make ModuleNexus.marker 1,
            empty_heap) ∧
  ModuleNexus.exists_ (ModuleNexus.Make ModuleNexus.marker 1) = true ∧
  (∀ n, slot_of (ModuleNexus.pointer n) = InProgress →
        ModuleNexus.exists_ n = true).
Proof.
  repeat split; try reflexivity.
  intros n Hs. apply module_exists_iff. congruence.
Qed.

(** ** ModuleNexus: reset *)

Lemma module_reset_finished (n : ModuleNexus.t) (h : heap) (o : nat) :
  heap_ok h →
  slot_of (ModuleNexus.pointer n) = Finished →
  live h !! ModuleNexus.pointer n = Some o →
  ModuleNexus.reset n h =
    Done (ModuleNexus.Make 0 (ModuleNexus.sync n),
          Heap (delete (ModuleNexus.pointer n) (live h)) (built h)
               (o :: destroyed h)).
Proof.
  intros Hh [Hp Hb]%slot_of_finished Ho. unfold ModuleNexus.reset.
  apply nonzero_true in Hp. apply nonzero_false in Hb. rewrite Hp, Hb. simpl.
  by rewrite (delete_live _ _ _ Hh Ho).
Qed.

Lemma module_reset_unfinished (n : ModuleNexus.t) (h : heap) :
  slot_of (ModuleNexus.pointer n) ≠ Finished →
  ModuleNexus.reset n h = Done (n, h).
Proof.
  intros Hs. unfold ModuleNexus.reset.
  destruct (nonzero (ModuleNexus.pointer n)) eqn:Hp; simpl; [|done].
  destruct (nonzero (Z.land (ModuleNexus.pointer n) 1)) eqn:Hb; [done|].
  exfalso. apply Hs, slot_of_finished.
  by apply nonzero_true in Hp; apply nonzero_false in Hb.
Qed.

(** C5 as stated fails: a slot that holds the in-progress marker is not
    emptied by [reset()], and [exists()] still answers true afterwards. *)
Lemma module_reset_keeps_in_progress :
  let n := ModuleNexus.Make ModuleNexus.marker 1 in
  slot_of (ModuleNexus.pointer n) = InProgress ∧
  ModuleNexus.reset n empty_heap = Done (n, empty_heap) ∧
  ModuleNexus.exists_ n = true ∧
  ¬ (∀ (m : ModuleNexus.t) (h : heap),
       heap_ok h → ModuleNexus.owns m h →
       ∃ m' h', ModuleNexus.reset m h = Done (m', h') ∧
                slot_of (ModuleNexus.pointer m') = Empty ∧
                ModuleNexus.exists_ m' = false).
Proof.
  split_and!; try reflexivity.
  intros H.
  destruct (H (ModuleNexus.Make ModuleNexus.marker 1) empty_heap heap_ok_empty)
    as (n' & h' & Hr & Hs & _).
  - intros Hs. discriminate Hs.
  - vm_compute in Hr. injection Hr as <- <-. discriminate Hs.
Qed.

(** C5, amended.  [reset()] on a finished slot destroys the instance the slot
    points to (and nothing else) and empties the slot, after which [exists()]
    is false and the next call goes through [create] again; on an empty slot
    it changes nothing; on a slot that holds the in-progress marker it
    changes nothing either, the slot stays in progress. *)
Theorem module_reset_by_slot_state (n : ModuleNexus.t) (h : heap) :
  heap_ok h → ModuleNexus.owns n h →
  match slot_of (ModuleNexus.pointer n) with
  | Finished =>
      ∃ o n' h',
        live h !! ModuleNexus.pointer n = Some o ∧
        ModuleNexus.reset n h = Done (n', h') ∧
        destroyed h' = o :: destroyed h ∧
        live h' = delete (ModuleNexus.pointer n) (live h) ∧
        built h' = built h ∧
        slot_of (ModuleNexus.pointer n') = Empty ∧
        ModuleNexus.exists_ n' = false ∧
        heap_ok h' ∧
        (∀ c, ModuleNexus.call c n' h' = ModuleNexus.create c n' h') ∧
        (∀ a, fresh_in h' a →
           ∃ n'', fst (ModuleNexus.call (Built a) n' h') = (Returns a, n'') ∧
                  built (snd (ModuleNexus.call (Built a) n' h')) = S (built h))
  | Empty =>
      ModuleNexus.reset n h = Done (n, h) ∧ ModuleNexus.exists_ n = false
  | InProgress =>
      ModuleNexus.reset n h = Done (n, h)
  end.
Proof.
  intros Hh Hown. destruct (slot_of (ModuleNexus.pointer n)) eqn:Hs.
  - split; [apply module_reset_unfinished; congruence|].
    by apply module_exists_empty.
  - apply module_reset_unfinished; congruence.
  - destruct (Hown Hs) as [o Ho].
    eexists o, _, _. split; [done|].
    split; [by apply module_reset_finished|]. simpl.
    split_and!; try done.
    + by apply heap_ok_delete.
    + intros a Ha. by eexists.
Qed.

Lemma module_reset_by_slot_state_witness :
  heap_ok (Heap {[4096 := 0%nat]} 1 []) ∧
  ∃ o n' h',
    live (Heap {[4096 := 0%nat]} 1 []) !! 4096 = Some o ∧
    ModuleNexus.reset (ModuleNexus.Make 4096 1) (Heap {[4096 := 0%nat]} 1 [])
      = Done (n', h') ∧
    destroyed h' = [o] ∧ ModuleNexus.exists_ n' = false.
Proof.
  assert (heap_ok (Heap {[4096 := 0%nat]} 1 [])) as Hh.
  { intros a o; simpl. intros [<- <-]%lookup_singleton_Some.
    repeat split; [discriminate | lia]. }
  split; [exact Hh|].
  destruct (module_reset_by_slot_state (ModuleNexus.Make 4096 1)
              (Heap {[4096 := 0%nat]} 1 []) Hh)
    as (o & n' & h' & Ho & Hr & Hd & _ & _ & _ & He & _).
  - intros _. by exists 0%nat.
  - by exists o, n', h'.
Defined.

(** ** CleanModuleNexus: the destructor *)

Lemma clean_destructor_finished (n : ModuleNexus.t) (h : heap) (o : nat) :
  heap_ok h →
  live h !! ModuleNexus.pointer n = Some o →
  CleanModuleNexus.destructor n h =
    Done (Heap (delete (ModuleNexus.pointer n) (live h)) (built h)
               (o :: destroyed h)).
Proof. intros Hh Ho. by apply delete_live. Qed.

Lemma clean_destructor_empty (n : ModuleNexus.t) (h : heap) :
  slot_of (ModuleNexus.pointer n) = Empty →
  CleanModuleNexus.destructor n h = Done h.
Proof.
  intros Hs%slot_of_empty. unfold CleanModuleNexus.destructor.
  rewrite Hs. apply delete_null.
Qed.

(** C9.  The destructor of a clean module nexus hands the slot's word to
    [delete] whatever it holds.  For a slot that holds the in-progress marker
    this is a [delete] of a tagged word, which is the address of no instance:
    the behaviour is undefined, where [reset()] tests the low bit and leaves
    such a slot alone. *)
Theorem clean_destructor_deletes_marker (n : ModuleNexus.t) (h : heap) :
  heap_ok h →
  slot_of (ModuleNexus.pointer n) = InProgress →
  CleanModuleNexus.destructor n h = Undefined ∧
  ModuleNexus.reset n h = Done (n, h).
Proof.
  intros Hh Hs. split.
  - apply delete_tagged; [done|]. by apply slot_of_in_progress.
  - apply module_reset_unfinished. congruence.
Qed.

Lemma clean_destructor_deletes_marker_witness :
  heap_ok empty_heap ∧
  slot_of (ModuleNexus.pointer (ModuleNexus.Make 4097 1)) = InProgress ∧
  CleanModuleNexus.destructor (ModuleNexus.Make 4097 1) empty_heap = Undefined.
Proof.
  split; [exact heap_ok_empty|]. split; [reflexivity|].
  apply (clean_destructor_deletes_marker (ModuleNexus.Make 4097 1) empty_heap).
  - exact heap_ok_empty.
  - reflexivity.
Defined.

(** ** The two lock-guarded calls *)

Lemma plain_call_as_store (strict : bool) (c : ctor) (n : PlainModuleNexus.t)
    (h : heap) :
  PlainModuleNexus.call strict c n h =
  let '(r, s, h') := ProcessNexus.call_on strict c (as_store n) h in
  (r, of_store s, h').
Proof.
  destruct n as [p l]. unfold PlainModuleNexus.call, ProcessNexus.call_on; simpl.
  destruct (negb strict && nonzero p); [done|].
  destruct (lock l); [|done].
  destruct (p =? 0); [|done].
  by destruct (new_Type c h) as [[e|a] h'].
Qed.

(** What the call does on a store whose mutex is free. *)
Lemma call_on_unlocked (strict : bool) (c : ctor) (s : Store.t) (h : heap) :
  Store.mLock s = false →
  ProcessNexus.call_on strict c s h =
  if nonzero (Store.mObject s) then (Returns (Store.mObject s), s, h)
  else match c with
       | Built a =>
           (Returns a, Store.Make a false,
            Heap (<[a := built h]> (live h)) (S (built h)) (destroyed h))
       | Raises e => (Throws e, s, h)
       end.
Proof.
  destruct s as [p l]; simpl. intros ->. unfold ProcessNexus.call_on; simpl.
  unfold nonzero. destruct (Z.eqb_spec p 0) as [->|Hp]; simpl.
  - rewrite andb_false_r. by destruct c.
  - by destruct strict.
Qed.

Lemma plain_call_unlocked (strict : bool) (c : ctor) (n : PlainModuleNexus.t)
    (h : heap) :
  PlainModuleNexus.mLock n = false →
  PlainModuleNexus.call strict c n h =
  if nonzero (PlainModuleNexus.mSingleton n)
  then (Returns (PlainModuleNexus.mSingleton n), n, h)
  else match c with
       | Built a =>
           (Returns a, PlainModuleNexus.Make a false,
            Heap (<[a := built h]> (live h)) (S (built h)) (destroyed h))
       | Raises e => (Throws e, n, h)
       end.
Proof.
  intros Hl. rewrite plain_call_as_store, call_on_unlocked by done.
  destruct n as [p l]; simpl in *.
  destruct (nonzero p); [done|]. by destruct c.
Qed.

(** The mutex is free again after the call, however the call ends. *)
Lemma call_on_releases (strict : bool) (c : ctor) (s s' : Store.t)
    (h h' : heap) (r : outcome Z) :
  Store.mLock s = false →
  ProcessNexus.call_on strict c s h = (r, s', h') →
  Store.mLock s' = false.
Proof.
  intros Hl. rewrite call_on_unlocked by done.
  destruct (nonzero (Store.mObject s)); [by intros [= <- <- <-]|].
  destruct c; by intros [= <- <- <-].
Qed.

(** ** ModuleNexus: a reset starts a new epoch *)

(** A call on an empty slot with a constructor that succeeds, or on a
    finished slot, returns: the slot then holds what it returned, a living
    instance, constructed by this call if the slot was empty. *)
Lemma module_call_succeeds (c : ctor) (n : ModuleNexus.t) (h : heap) :
  heap_ok h → ModuleNexus.owns n h →
  slot_of (ModuleNexus.pointer n) ≠ InProgress →
  (slot_of (ModuleNexus.pointer n) = Empty → ∃ a, c = Built a ∧ fresh_in h a) →
  ∃ r n1 h1 o,
    ModuleNexus.call c n h = (Returns r, n1, h1) ∧
    (slot_of (ModuleNexus.pointer n) = Empty →
     c = Built r ∧ built h1 = S (built h)) ∧
    heap_ok h1 ∧ ModuleNexus.pointer n1 = r ∧ slot_of r = Finished ∧
    live h1 !! r = Some o.
Proof.
  intros Hh Hown Hs Hc.
  destruct (slot_of (ModuleNexus.pointer n)) eqn:Hslot; [|done|].
  - destruct (Hc eq_refl) as (a & -> & Ha).
    rewrite module_call_unfinished by congruence.
    unfold ModuleNexus.create, ModuleNexus.make. rewrite Hslot. simpl.
    eexists _, _, _, _. split; [reflexivity|]. simpl. split_and!; auto.
    + by apply heap_ok_new.
    + by eapply fresh_is_finished.
    + apply lookup_insert_eq.
  - destruct (Hown Hslot) as [o Ho]. rewrite module_call_finished by done.
    exists (ModuleNexus.pointer n), n, h, o. by split_and!.
Qed.

Lemma plain_call_succeeds (strict : bool) (c : ctor) (n : PlainModuleNexus.t)
    (h : heap) :
  heap_ok h → plain_owns n h →
  (PlainModuleNexus.mSingleton n = 0 → ∃ a, c = Built a ∧ fresh_in h a) →
  ∃ r n1 h1 o,
    PlainModuleNexus.call strict c n h = (Returns r, n1, h1) ∧
    (PlainModuleNexus.mSingleton n = 0 →
     c = Built r ∧ built h1 = S (built h)) ∧
    heap_ok h1 ∧ PlainModuleNexus.mSingleton n1 = r ∧ r ≠ 0 ∧
    PlainModuleNexus.mLock n1 = false ∧
    live h1 !! r = Some o.
Proof.
  intros Hh [Hl Hown] Hc. rewrite plain_call_unlocked by done.
  destruct (nonzero (PlainModuleNexus.mSingleton n)) eqn:Hp.
  - apply nonzero_true in Hp. destruct (Hown Hp) as [o Ho].
    exists (PlainModuleNexus.mSingleton n), n, h, o. by split_and!.
  - apply nonzero_false in Hp. destruct (Hc Hp) as (a & -> & Ha).
    pose proof Ha as (Ha0 & _).
    eexists _, _, _, _. split; [reflexivity|]. simpl. split_and!; auto.
    + by apply heap_ok_new.
    + apply lookup_insert_eq.
Qed.

(** C4.  A call on a module nexus whose slot is empty, with a constructor
    that succeeds, or whose slot holds an instance, returns.  [reset()] then
    destroys the instance that call returned and empties the slot, and the
    next call, with a constructor that succeeds, returns as well: it runs the
    constructor again (the count of constructed instances grows by one) and
    returns an instance that is not the one destroyed, which stays destroyed.
    This holds for the module nexus in both its forms.  The new instance may
    sit at the address of the old one; it is the instances that differ. *)
Theorem module_reset_then_access_constructs_anew :
  (∀ (c : ctor) (n : ModuleNexus.t) (h : heap),
     heap_ok h → ModuleNexus.owns n h →
     slot_of (ModuleNexus.pointer n) ≠ InProgress →
     (slot_of (ModuleNexus.pointer n) = Empty →
      ∃ a, c = Built a ∧ fresh_in h a) →
     ∃ r n1 h1 o n2 h2,
       ModuleNexus.call c n h = (Returns r, n1, h1) ∧
       (slot_of (ModuleNexus.pointer n) = Empty →
        c = Built r ∧ built h1 = S (built h)) ∧
       ModuleNexus.pointer n1 = r ∧
       live h1 !! r = Some o ∧
       ModuleNexus.reset n1 h1 = Done (n2, h2) ∧
       ModuleNexus.pointer n2 = 0 ∧
       destroyed h2 = o :: destroyed h1 ∧ live h2 !! r = None ∧
       built h2 = built h1 ∧
       ∀ a, fresh_in h2 a →
         ∃ n3 h3 o',
           ModuleNexus.call (Built a) n2 h2 = (Returns a, n3, h3) ∧
           ModuleNexus.pointer n3 = a ∧
           built h3 = S (built h2) ∧
           live h3 !! a = Some o' ∧ o' ≠ o ∧
           o ∈ destroyed h3) ∧
  (∀ (strict : bool) (c : ctor) (n : PlainModuleNexus.t) (h : heap),
     heap_ok h → plain_owns n h →
     (PlainModuleNexus.mSingleton n = 0 → ∃ a, c = Built a ∧ fresh_in h a) →
     ∃ r n1 h1 o n2 h2,
       PlainModuleNexus.call strict c n h = (Returns r, n1, h1) ∧
       (PlainModuleNexus.mSingleton n = 0 →
        c = Built r ∧ built h1 = S (built h)) ∧
       PlainModuleNexus.mSingleton n1 = r ∧
       live h1 !! r = Some o ∧
       PlainModuleNexus.reset n1 h1 = Done (n2, h2) ∧
       PlainModuleNexus.mSingleton n2 = 0 ∧
       destroyed h2 = o :: destroyed h1 ∧ live h2 !! r = None ∧
       built h2 = built h1 ∧
       ∀ a, fresh_in h2 a →
         ∃ n3 h3 o',
           PlainModuleNexus.call strict (Built a) n2 h2 = (Returns a, n3, h3) ∧
           PlainModuleNexus.mSingleton n3 = a ∧
           built h3 = S (built h2) ∧
           live h3 !! a = Some o' ∧ o' ≠ o ∧
           o ∈ destroyed h3).
Proof.
  split.
  - intros c n h Hh Hown Hs Hc.
    destruct (module_call_succeeds c n h Hh Hown Hs Hc)
      as (r & n1 & h1 & o & Hcall & Hnew & Hh1 & Hp & Hf & Ho).
    exists r, n1, h1, o. eexists _, _. split; [done|]. split; [done|].
    split; [done|]. split; [done|]. split.
    { apply module_reset_finished; rewrite ?Hp; done. }
    simpl. rewrite Hp. split_and!; auto; [apply lookup_delete_eq|].
    intros a Ha. eexists _, _, (built h1).
    split; [reflexivity|]. simpl. split_and!; auto.
    + apply lookup_insert_eq.
    + destruct (Hh1 _ _ Ho) as (_ & _ & Hlt). lia.
    + apply elem_of_cons. by left.
  - intros strict c n h Hh Hown Hc.
    destruct (plain_call_succeeds strict c n h Hh Hown Hc)
      as (r & n1 & h1 & o & Hcall & Hnew & Hh1 & Hp & Hr0 & Hl & Ho).
    exists r, n1, h1, o. eexists _, _. split; [done|]. split; [done|].
    split; [done|]. split; [done|]. split.
    { unfold PlainModuleNexus.reset. rewrite Hp.
      by rewrite (delete_live _ _ _ Hh1 Ho). }
    simpl. split_and!; auto; [apply lookup_delete_eq|].
    intros a Ha. eexists _, _, (built h1).
    rewrite plain_call_unlocked by done. simpl.
    split; [reflexivity|]. simpl. split_and!; auto.
    + apply lookup_insert_eq.
    + destruct (Hh1 _ _ Ho) as (_ & _ & Hlt). lia.
    + apply elem_of_cons. by left.
Qed.

(** The address can indeed come back: the allocator may give the storage of
    the destroyed instance to the new one. *)
Example module_reset_address_reused :
  let h1 := Heap {[4096 := 0%nat]} 1 [] in
  let n1 := ModuleNexus.Make 4096 1 in
  ModuleNexus.reset n1 h1 = Done (ModuleNexus.Make 0 1, Heap ∅ 1 [0%nat]) ∧
  fresh_in (Heap ∅ 1 [0%nat]) 4096 ∧
  ModuleNexus.call (Built 4096) (ModuleNexus.Make 0 1) (Heap ∅ 1 [0%nat]) =
    (Returns 4096, ModuleNexus.Make 4096 2, Heap {[4096 := 1%nat]} 2 [0%nat]).
Proof. split_and!; try done; vm_compute; reflexivity. Qed.

Lemma module_reset_then_access_constructs_anew_witness :
  let h1 := Heap {[4096 := 0%nat]} 1 [] in
  let h2 := Heap ∅ 1 [0%nat] in
  let h3 := Heap {[8192 := 1%nat]} 2 [0%nat] in
  PlainModuleNexus.call false (Built 4096) PlainModuleNexus.zero empty_heap
  = (Returns 4096, PlainModuleNexus.Make 4096 false, h1) ∧
  PlainModuleNexus.reset (PlainModuleNexus.Make 4096 false) h1
  = Done (PlainModuleNexus.zero, h2) ∧
  PlainModuleNexus.call false (Built 8192) PlainModuleNexus.zero h2
  = (Returns 8192, PlainModuleNexus.Make 8192 false, h3) ∧
  live h3 !! 8192 = Some 1%nat ∧ 0%nat ∈ destroyed h3 ∧
  ModuleNexus.call (Built 4096) ModuleNexus.zero empty_heap
  = (Returns 4096, ModuleNexus.Make 4096 1, h1) ∧
  ModuleNexus.reset (ModuleNexus.Make 4096 1) h1
  = Done (ModuleNexus.Make 0 1, h2) ∧
  ModuleNexus.call (Built 8192) (ModuleNexus.Make 0 1) h2
  = (Returns 8192, ModuleNexus.Make 8192 2, h3).
Proof.
  intros h1 h2 h3.
  assert (fresh_in empty_heap 4096) as F1
    by (split; [discriminate | split; reflexivity]).
  assert (fresh_in h2 8192) as F2
    by (split; [discriminate | split; reflexivity]).
  destruct (proj2 module_reset_then_access_constructs_anew false (Built 4096)
              PlainModuleNexus.zero empty_heap heap_ok_empty)
    as (r & n1 & k1 & o & n2 & k2 & Hcall & _ & _ & Ho & Hreset & _ & _ & _
        & _ & Hagain).
  { split; [reflexivity | intros H; by destruct H]. }
  { intros _. by exists 4096. }
  injection Hcall as <- <- <-. injection Hreset as <- <-.
  destruct (Hagain 8192 F2) as (n3 & k3 & o' & Hcall3 & _ & _ & Ho' & _ & Hd).
  injection Hcall3 as <- <-.
  destruct (proj1 module_reset_then_access_constructs_anew (Built 4096)
              ModuleNexus.zero empty_heap heap_ok_empty)
    as (r & m1 & k1 & o1 & m2 & k2 & Hcall & _ & _ & Ho1 & Hreset & _ & _ & _
        & _ & Hagain').
  { intros Hs. discriminate Hs. }
  { discriminate. }
  { intros _. by exists 4096. }
  injection Hcall as <- <- <-. injection Hreset as <- <-.
  destruct (Hagain' 8192 F2) as (m3 & k3 & o3 & Hcall3 & _).
  injection Hcall3 as <- <-.
  split_and!; try reflexivity.
  - injection Ho as <-. exact Hd.
Defined.

(** ** A failing constructor *)

(** The module nexus with atomic operations leaves the call through
    [create]; with [create] as the specification words it, the exception
    passes through and the slot is empty again. *)
Lemma module_call_constructor_fails (e : exn) (n : ModuleNexus.t) (h : heap) :
  slot_of (ModuleNexus.pointer n) = Empty →
  ∃ n', ModuleNexus.call (Raises e) n h = (Throws e, n', h) ∧
        slot_of (ModuleNexus.pointer n') = Empty.
Proof.
  intros Hs. rewrite module_call_unfinished by congruence.
  unfold ModuleNexus.create. rewrite Hs. simpl. by eexists.
Qed.

Lemma thread_get_set (n : ThreadNexus.t) (me : nat) (a : Z) :
  ThreadNexus.get (ThreadNexus.set n me a) me = a.
Proof. unfold ThreadNexus.get, ThreadNexus.set; simpl. by rewrite lookup_insert_eq. Qed.

Lemma thread_get_set_ne (n : ThreadNexus.t) (me t : nat) (a : Z) :
  me ≠ t → ThreadNexus.get (ThreadNexus.set n me a) t = ThreadNexus.get n t.
Proof.
  intros Hne. unfold ThreadNexus.get, ThreadNexus.set; simpl.
  by rewrite lookup_insert_ne.
Qed.

(** C8.  In each scope, when the constructor throws during the first call,
    the call ends with that very exception; the nexus and the free store are
    as before the call - the slot empty, the mutex free - so that the call
    made again with a constructor that succeeds returns the new instance and
    leaves it in the slot.  Module scope is the nexus without atomic
    operations, whose call is all in the header. *)
Theorem constructor_failure_propagates_and_permits_retry :
  (∀ (strict : bool) (e : exn) (a : Z) (n : PlainModuleNexus.t) (h : heap),
     PlainModuleNexus.mSingleton n = 0 → PlainModuleNexus.mLock n = false →
     fresh_in h a →
     PlainModuleNexus.call strict (Raises e) n h = (Throws e, n, h) ∧
     ∃ h', PlainModuleNexus.call strict (Built a) n h =
             (Returns a, PlainModuleNexus.Make a false, h') ∧
           live h' !! a = Some (built h)) ∧
  (∀ (me : nat) (e : exn) (a : Z) (n : ThreadNexus.t) (h : heap),
     ThreadNexus.get n me = 0 → fresh_in h a →
     ThreadNexus.call me (Raises e) n h = (Throws e, n, h) ∧
     ∃ h', ThreadNexus.call me (Built a) n h =
             (Returns a, ThreadNexus.set n me a, h') ∧
           live h' !! a = Some (built h)) ∧
  (∀ (strict : bool) (e : exn) (a : Z) (n : ProcessNexus.t)
     (p : ProcessNexus.process) (h : heap),
     ProcessNexus.stores p !! ProcessNexus.mStore n = Some Store.zero →
     fresh_in h a →
     ProcessNexus.call strict (Raises e) n p h = Done (Throws e, n, p, h) ∧
     ∃ p' h', ProcessNexus.call strict (Built a) n p h =
                Done (Returns a, n, p', h') ∧
              ProcessNexus.stores p' !! ProcessNexus.mStore n
                = Some (Store.Make a false) ∧
              live h' !! a = Some (built h)).
Proof.
  split_and!.
  - intros strict e a n h Hp Hl Ha.
    rewrite !plain_call_unlocked by done. rewrite Hp. simpl.
    split; [done|]. eexists. split; [reflexivity|]. simpl.
    apply lookup_insert_eq.
  - intros me e a n h Hp (Ha0 & _). unfold ThreadNexus.call.
    rewrite Hp. simpl. split; [done|].
    eexists. rewrite thread_get_set. split; [reflexivity|]. simpl.
    apply lookup_insert_eq.
  - intros strict e a n p h Hs Ha. unfold ProcessNexus.call. rewrite Hs.
    rewrite !call_on_unlocked by done. simpl. split.
    + rewrite list_insert_id by done. by destruct p.
    + eexists _, _. split; [reflexivity|]. simpl. split.
      * apply list_lookup_insert_eq. by eapply lookup_lt_Some.
      * apply lookup_insert_eq.
Qed.

Lemma constructor_failure_propagates_and_permits_retry_witness :
  ProcessNexus.call false (Raises BadAlloc) (ProcessNexus.Make 0 7)
    (ProcessNexus.Process [Store.zero] {["db-cache" := 0%nat]}) empty_heap
  = Done (Throws BadAlloc, ProcessNexus.Make 0 7,
          ProcessNexus.Process [Store.zero] {["db-cache" := 0%nat]}, empty_heap).
Proof.
  apply (proj2 (proj2 constructor_failure_propagates_and_permits_retry)
           false BadAlloc 4096 (ProcessNexus.Make 0 7)
           (ProcessNexus.Process [Store.zero] {["db-cache" := 0%nat]})
           empty_heap).
  - reflexivity.
  - split; [discriminate | split; reflexivity].
Defined.

(** ** ProcessNexus: the private member *)

(** C10.  The member [mObject] of a process nexus object is left as found by
    the constructor, comes back from every call as it went in, and has no
    part in the call: with any other value in it the call has the same
    outcome and the same effect on the stores and on the free store.  What a
    call returns when the store has an instance is the store's [mObject]. *)
Theorem process_private_mObject_untouched
    (strict : bool) (c : ctor) (identifier : string) (i : nat) (j1 j2 : Z)
    (p : ProcessNexus.process) (h : heap) :
  ProcessNexus.mObject (fst (ProcessNexus.ctor_ identifier j1 p)) = j1 ∧
  match ProcessNexus.call strict c (ProcessNexus.Make i j1) p h,
        ProcessNexus.call strict c (ProcessNexus.Make i j2) p h with
  | Done (r1, n1, p1, h1), Done (r2, n2, p2, h2) =>
      n1 = ProcessNexus.Make i j1 ∧ n2 = ProcessNexus.Make i j2 ∧
      r1 = r2 ∧ p1 = p2 ∧ h1 = h2
  | Undefined, Undefined => True
  | _, _ => False
  end ∧
  (∀ s, ProcessNexus.stores p !! i = Some s →
        Store.mLock s = false → Store.mObject s ≠ 0 →
        ProcessNexus.call strict c (ProcessNexus.Make i j1) p h
        = Done (Returns (Store.mObject s), ProcessNexus.Make i j1, p, h)).
Proof.
  split_and!.
  - unfold ProcessNexus.ctor_.
    by destruct (ProcessNexus.ProcessNexusBase identifier p).
  - unfold ProcessNexus.call; simpl.
    destruct (ProcessNexus.stores p !! i) as [s|]; [|done].
    by destruct (ProcessNexus.call_on strict c s h) as [[r s'] h'].
  - intros s Hs Hl Hp. unfold ProcessNexus.call; simpl. rewrite Hs.
    rewrite call_on_unlocked by done.
    apply nonzero_true in Hp. rewrite Hp.
    rewrite list_insert_id by done. by destruct p.
Qed.

(** ** ThreadNexus: one instance for each thread *)

Lemma thread_get_nonzero (n : ThreadNexus.t) (t : nat) (p : Z) :
  p ≠ 0 → ThreadNexus.get n t = p ↔ ThreadNexus.mSlot n !! t = Some p.
Proof.
  intros Hp. unfold ThreadNexus.get.
  destruct (ThreadNexus.mSlot n !! t); simpl; split; congruence.
Qed.

Lemma thread_call_cached (me : nat) (c : ctor) (n : ThreadNexus.t) (h : heap) :
  ThreadNexus.get n me ≠ 0 →
  ThreadNexus.call me c n h = (Returns (ThreadNexus.get n me), n, h).
Proof. intros Hp%nonzero_true. unfold ThreadNexus.call. by rewrite Hp. Qed.

Lemma thread_call_first (me : nat) (c : ctor) (n : ThreadNexus.t) (h : heap) :
  ThreadNexus.get n me = 0 →
  ThreadNexus.call me c n h =
  match c with
  | Built a =>
      (Returns a, ThreadNexus.set n me a,
       Heap (<[a := built h]> (live h)) (S (built h)) (destroyed h))
  | Raises e => (Throws e, n, h)
  end.
Proof.
  intros Hp. unfold ThreadNexus.call. rewrite Hp. simpl.
  destruct c; simpl; [|done]. by rewrite thread_get_set.
Qed.

Lemma thread_owns_empty (h : heap) : thread_owns ThreadNexus.ctor_ h.
Proof. intros t p; simpl. by rewrite lookup_empty. Qed.

Lemma thread_owns_set (me : nat) (a : Z) (n : ThreadNexus.t) (h : heap) :
  thread_owns n h → ThreadNexus.get n me = 0 → fresh_in h a →
  thread_owns (ThreadNexus.set n me a)
    (Heap (<[a := built h]> (live h)) (S (built h)) (destroyed h)).
Proof.
  intros Hown Hme (Ha0 & _ & Ha) t p; simpl.
  assert (∀ t', ThreadNexus.mSlot n !! t' ≠ Some a) as Hnew.
  { intros t' Ht'. destruct (Hown _ _ Ht' Ha0) as [[o Ho] _]. congruence. }
  rewrite lookup_insert. case_decide as E.
  - intros [= <-] _. split; [rewrite lookup_insert_eq; by eexists|].
    intros t'. rewrite lookup_insert. case_decide; [congruence|].
    intros Ht'. by destruct (Hnew t').
  - intros Ht Hp. destruct (Hown _ _ Ht Hp) as [[o Ho] Huniq].
    assert (p ≠ a) by (intros ->; by destruct (Hnew t)).
    split; [rewrite lookup_insert_ne by done; by eexists|].
    intros t'. rewrite lookup_insert. case_decide; [congruence|]. apply Huniq.
Qed.

(** A call by a thread whose cell is empty, with a constructor that succeeds,
    or by a thread that has its instance, returns; the thread's cell then
    holds what the call returned, constructed by this call if the cell was
    empty. *)
Lemma thread_call_succeeds (me : nat) (c : ctor) (n : ThreadNexus.t)
    (h : heap) :
  heap_ok h → thread_owns n h →
  (ThreadNexus.get n me = 0 → ∃ a, c = Built a ∧ fresh_in h a) →
  ∃ r n1 h1,
    ThreadNexus.call me c n h = (Returns r, n1, h1) ∧
    (ThreadNexus.get n me = 0 →
     c = Built r ∧ built h1 = S (built h) ∧ live h1 !! r = Some (built h)) ∧
    (ThreadNexus.get n me ≠ 0 →
     r = ThreadNexus.get n me ∧ n1 = n ∧ h1 = h) ∧
    heap_ok h1 ∧ thread_owns n1 h1 ∧
    ThreadNexus.get n1 me = r ∧ r ≠ 0 ∧
    (∀ t, t ≠ me → ThreadNexus.get n1 t = ThreadNexus.get n t).
Proof.
  intros Hh Hown Hc.
  destruct (decide (ThreadNexus.get n me = 0)) as [Hz|Hnz].
  - destruct (Hc Hz) as (a & -> & Ha). pose proof Ha as (Ha0 & _).
    rewrite thread_call_first by done.
    eexists _, _, _. split; [reflexivity|]. simpl. split_and!; auto.
    + intros _. split_and!; auto. apply lookup_insert_eq.
    + done.
    + by apply heap_ok_new.
    + by apply thread_owns_set.
    + apply thread_get_set.
    + intros t Ht. by apply thread_get_set_ne.
  - rewrite thread_call_cached by done.
    eexists _, _, _. split; [reflexivity|]. by split_and!.
Qed.

(** C6.  On one thread nexus object, the call of a thread whose cell is
    empty, with a constructor that succeeds, returns the instance it has just
    constructed and leaves it in the cell of that thread; the call of a
    thread that has its instance returns that one.  So the calls of two
    different threads both return, with two different living instances, and
    a thread that calls again - directly after its first call, or after the
    other thread's - is given the instance of its first call, whatever the
    constructor would do, with nothing constructed or changed. *)
Theorem thread_scope_distinct_across_same_within
    (me1 me2 : nat) (c1 c2 : ctor) (n : ThreadNexus.t) (h : heap) :
  heap_ok h → thread_owns n h → me1 ≠ me2 →
  (ThreadNexus.get n me1 = 0 → ∃ a, c1 = Built a ∧ fresh_in h a) →
  ∃ r1 n1 h1,
    ThreadNexus.call me1 c1 n h = (Returns r1, n1, h1) ∧
    (ThreadNexus.get n me1 = 0 →
     c1 = Built r1 ∧ built h1 = S (built h)) ∧
    ThreadNexus.get n1 me1 = r1 ∧
    (∀ c, ThreadNexus.call me1 c n1 h1 = (Returns r1, n1, h1)) ∧
    ((ThreadNexus.get n me2 = 0 → ∃ a, c2 = Built a ∧ fresh_in h1 a) →
     ∃ r2 n2 h2,
       ThreadNexus.call me2 c2 n1 h1 = (Returns r2, n2, h2) ∧
       (ThreadNexus.get n me2 = 0 →
        c2 = Built r2 ∧ built h2 = S (built h1)) ∧
       ThreadNexus.get n2 me2 = r2 ∧ ThreadNexus.get n2 me1 = r1 ∧
       r1 ≠ r2 ∧
       is_Some (live h2 !! r1) ∧ is_Some (live h2 !! r2) ∧
       (∀ c, ThreadNexus.call me1 c n2 h2 = (Returns r1, n2, h2)) ∧
       (∀ c, ThreadNexus.call me2 c n2 h2 = (Returns r2, n2, h2))).
Proof.
  intros Hh Hown Hne Hc1.
  destruct (thread_call_succeeds me1 c1 n h Hh Hown Hc1)
    as (r1 & n1 & h1 & Hcall1 & Hnew1 & _ & Hh1 & Hown1 & Hg1 & Hr1 & Hkeep1).
  exists r1, n1, h1. split; [done|]. split; [tauto|]. split; [done|]. split.
  { intros c. rewrite <- Hg1 at 1. apply thread_call_cached. congruence. }
  intros Hc2.
  assert (ThreadNexus.get n1 me2 = 0 → ∃ a, c2 = Built a ∧ fresh_in h1 a)
    as Hc2'.
  { rewrite Hkeep1 by done. exact Hc2. }
  destruct (thread_call_succeeds me2 c2 n1 h1 Hh1 Hown1 Hc2')
    as (r2 & n2 & h2 & Hcall2 & Hnew2 & _ & Hh2 & Hown2 & Hg2 & Hr2 & Hkeep2).
  assert (ThreadNexus.get n2 me1 = r1) as Hg12 by (rewrite Hkeep2; done).
  pose proof (proj1 (thread_get_nonzero _ _ _ Hr1) Hg12) as Hs1.
  pose proof (proj1 (thread_get_nonzero _ _ _ Hr2) Hg2) as Hs2.
  destruct (Hown2 _ _ Hs1 Hr1) as [Hl1 Hu1].
  destruct (Hown2 _ _ Hs2 Hr2) as [Hl2 _].
  exists r2, n2, h2. split_and!; auto.
  - rewrite Hkeep1 in Hnew2 by done. tauto.
  - intros ->. apply Hne. symmetry. by apply Hu1.
  - intros c. rewrite <- Hg12 at 1. apply thread_call_cached. congruence.
  - intros c. rewrite <- Hg2 at 1. apply thread_call_cached. congruence.
Qed.

Lemma thread_scope_distinct_across_same_within_witness :
  let n1 := ThreadNexus.set ThreadNexus.ctor_ 0 4096 in
  let n2 := ThreadNexus.set n1 1 8192 in
  let h1 := Heap {[4096 := 0%nat]} 1 [] in
  let h2 := Heap (<[8192 := 1%nat]> {[4096 := 0%nat]}) 2 [] in
  ThreadNexus.call 0 (Built 4096) ThreadNexus.ctor_ empty_heap
  = (Returns 4096, n1, h1) ∧
  ThreadNexus.call 1 (Built 8192) n1 h1 = (Returns 8192, n2, h2) ∧
  4096 ≠ 8192 ∧
  ThreadNexus.call 0 (Raises BadAlloc) n2 h2 = (Returns 4096, n2, h2) ∧
  ThreadNexus.call 1 (Raises BadAlloc) n2 h2 = (Returns 8192, n2, h2).
Proof.
  intros n1 n2 h1 h2.
  assert (fresh_in empty_heap 4096) as F1
    by (split; [discriminate | split; reflexivity]).
  assert (fresh_in h1 8192) as F2
    by (split; [discriminate | split; reflexivity]).
  destruct (thread_scope_distinct_across_same_within 0 1
              (Built 4096) (Built 8192) ThreadNexus.ctor_ empty_heap
              heap_ok_empty (thread_owns_empty _) ltac:(discriminate))
    as (r1 & m1 & k1 & Hcall1 & _ & _ & _ & Hsecond).
  { intros _. by exists 4096. }
  injection Hcall1 as <- <- <-.
  destruct Hsecond as (r2 & m2 & k2 & Hcall2 & _ & _ & _ & Hne & _ & _
                       & Hsame1 & Hsame2).
  { intros _. by exists 8192. }
  injection Hcall2 as <- <- <-.
  split; [reflexivity|]. split; [reflexivity|]. split; [exact Hne|].
  split; [apply Hsame1 | apply Hsame2].
Defined.

(** ** ProcessNexus: one instance for each identifier *)

Lemma process_ok_no_stores (h : heap) : process_ok ProcessNexus.no_stores h.
Proof. split; simpl; intros *; by rewrite ?lookup_empty, ?lookup_nil. Qed.

(** The constructor registers the identifier if it is new, and resolves it. *)
Lemma process_base_resolves (id : string) (p p' : ProcessNexus.process)
    (i : nat) (h : heap) :
  process_ok p h →
  ProcessNexus.ProcessNexusBase id p = (i, p') →
  process_ok p' h ∧
  ProcessNexus.registry p' !! id = Some i ∧
  (∀ id' i', ProcessNexus.registry p !! id' = Some i' →
             ProcessNexus.registry p' !! id' = Some i').
Proof.
  intros Hok. unfold ProcessNexus.ProcessNexusBase.
  destruct (ProcessNexus.registry p !! id) as [i0|] eqn:Hid.
  - intros [= <- <-]. by split_and!.
  - intros [= <- <-]. simpl. split_and!.
    + destruct Hok as [Hv Ha Hf Hl Hs]. split; simpl.
      * intros id' i'. rewrite lookup_insert, length_app. simpl.
        case_decide; [intros [= <-]; lia|]. intros H'%Hv. lia.
      * intros id1 id2 i'. rewrite !lookup_insert.
        repeat case_decide; subst; try done.
        -- intros [= <-] H'%Hv. lia.
        -- intros H'%Hv [= <-]. lia.
        -- apply Ha.
      * intros i' s [Hi'|[_ Hi']]%lookup_app_Some; [by eapply Hf|].
        by apply list_lookup_singleton_Some in Hi' as [_ <-].
      * intros i' s [Hi'|[_ Hi']]%lookup_app_Some; [by eapply Hl|].
        by apply list_lookup_singleton_Some in Hi' as [_ <-].
      * intros i1 i2 s1 s2 [H1|[_ H1]]%lookup_app_Some
          [H2|[_ H2]]%lookup_app_Some Hnz Heq.
        -- by eapply Hs.
        -- apply list_lookup_singleton_Some in H2 as [_ <-].
           simpl in Heq. congruence.
        -- by apply list_lookup_singleton_Some in H1 as [_ <-].
        -- by apply list_lookup_singleton_Some in H1 as [_ <-].
    + apply lookup_insert_eq.
    + intros id' i' Hid'. rewrite lookup_insert_ne; [done|]. congruence.
Qed.

Lemma process_ctor_resolves (id : string) (junk : Z)
    (p p' : ProcessNexus.process) (n : ProcessNexus.t) (h : heap) :
  process_ok p h →
  ProcessNexus.ctor_ id junk p = (n, p') →
  process_ok p' h ∧
  ProcessNexus.registry p' !! id = Some (ProcessNexus.mStore n) ∧
  (∀ id' i', ProcessNexus.registry p !! id' = Some i' →
             ProcessNexus.registry p' !! id' = Some i').
Proof.
  intros Hok. unfold ProcessNexus.ctor_.
  destruct (ProcessNexus.ProcessNexusBase id p) as [i p0] eqn:Hb.
  intros [= <- <-]. simpl. by eapply process_base_resolves.
Qed.

(** The call on a nexus whose store exists, between calls. *)
Lemma process_call_spec (strict : bool) (c : ctor) (n : ProcessNexus.t)
    (p : ProcessNexus.process) (h : heap) (s : Store.t) :
  process_ok p h →
  ProcessNexus.stores p !! ProcessNexus.mStore n = Some s →
  ProcessNexus.call strict c n p h =
  if nonzero (Store.mObject s) then Done (Returns (Store.mObject s), n, p, h)
  else match c with
       | Built a =>
           Done (Returns a, n,
                 ProcessNexus.Process
                   (<[ProcessNexus.mStore n := Store.Make a false]>
                      (ProcessNexus.stores p))
                   (ProcessNexus.registry p),
                 Heap (<[a := built h]> (live h)) (S (built h)) (destroyed h))
       | Raises e => Done (Throws e, n, p, h)
       end.
Proof.
  intros Hok Hs. unfold ProcessNexus.call. rewrite Hs.
  rewrite call_on_unlocked by (by eapply stores_free).
  destruct (nonzero (Store.mObject s)).
  - rewrite list_insert_id by done. by destruct p.
  - destruct c; [done|]. rewrite list_insert_id by done. by destruct p.
Qed.

Lemma process_ok_publish (p : ProcessNexus.process) (h : heap) (i : nat)
    (s : Store.t) (a : Z) :
  process_ok p h → fresh_in h a →
  ProcessNexus.stores p !! i = Some s → Store.mObject s = 0 →
  process_ok
    (ProcessNexus.Process (<[i := Store.Make a false]> (ProcessNexus.stores p))
       (ProcessNexus.registry p))
    (Heap (<[a := built h]> (live h)) (S (built h)) (destroyed h)).
Proof.
  intros [Hv Ha Hf Hl Hs] (Ha0 & _ & Hfresh) Hi Hp.
  assert (∀ j sj, ProcessNexus.stores p !! j = Some sj → Store.mObject sj ≠ a)
    as Hnew.
  { intros j sj Hj E. destruct (Hl j sj Hj) as [o Ho]; congruence. }
  split; simpl.
  - intros id i'. rewrite length_insert. apply Hv.
  - apply Ha.
  - intros j sj. rewrite list_lookup_insert_Some.
    intros [(_ & <- & _)|[_ Hj]]; [done | by eapply Hf].
  - intros j sj. rewrite list_lookup_insert_Some.
    intros [(_ & <- & _)|[_ Hj]]; simpl.
    + intros _. rewrite lookup_insert_eq. by eexists.
    + intros Hnz. rewrite lookup_insert_ne by (symmetry; by eapply Hnew).
      by eapply Hl.
  - intros j1 j2 s1 s2. rewrite !list_lookup_insert_Some.
    intros [(<- & <- & _)|[Hn1 H1]] [(<- & <- & _)|[Hn2 H2]]; simpl; try done.
    + intros _ E. symmetry in E. by destruct (Hnew _ _ H2).
    + intros _ E. by destruct (Hnew _ _ H1).
    + by eapply Hs.
Qed.

(** A call through a nexus object whose store is empty, with a constructor
    that succeeds, or whose store has its instance, returns: it leaves the
    instance in the store with the mutex free, constructed by this call if
    the store was empty. *)
Lemma process_call_succeeds (strict : bool) (c : ctor) (n : ProcessNexus.t)
    (p : ProcessNexus.process) (h : heap) (s : Store.t) :
  heap_ok h → process_ok p h →
  ProcessNexus.stores p !! ProcessNexus.mStore n = Some s →
  (Store.mObject s = 0 → ∃ a, c = Built a ∧ fresh_in h a) →
  ∃ r p' h',
    ProcessNexus.call strict c n p h = Done (Returns r, n, p', h') ∧
    (Store.mObject s = 0 → c = Built r ∧ built h' = S (built h)) ∧
    (Store.mObject s ≠ 0 → r = Store.mObject s ∧ p' = p ∧ h' = h) ∧
    heap_ok h' ∧ process_ok p' h' ∧ r ≠ 0 ∧
    ProcessNexus.registry p' = ProcessNexus.registry p ∧
    ProcessNexus.stores p' !! ProcessNexus.mStore n
    = Some (Store.Make r false) ∧
    (∀ j, j ≠ ProcessNexus.mStore n →
          ProcessNexus.stores p' !! j = ProcessNexus.stores p !! j).
Proof.
  intros Hh Hok Hs Hc. rewrite (process_call_spec _ _ _ _ _ _ Hok Hs).
  destruct (nonzero (Store.mObject s)) eqn:Hp.
  - apply nonzero_true in Hp. pose proof (stores_free _ _ Hok _ _ Hs) as Hl.
    eexists _, _, _. split; [reflexivity|]. split_and!; auto; try done.
    rewrite Hs. destruct s; simpl in *. by rewrite Hl.
  - apply nonzero_false in Hp. destruct (Hc Hp) as (a & -> & Ha).
    pose proof Ha as (Ha0 & _).
    eexists _, _, _. split; [reflexivity|]. simpl. split_and!; auto; try done.
    + by apply heap_ok_new.
    + by eapply process_ok_publish.
    + apply list_lookup_insert_eq. by eapply lookup_lt_Some.
    + intros j Hj. by apply list_lookup_insert_ne.
Qed.

(** C7.  Two process nexus objects are served by one store exactly when
    they were made with the same identifier, and then a call through one
    waits while the mutex of that store is held and there is no instance.
    The call through the first object, on a store that is empty with a
    constructor that succeeds or that has its instance, returns and leaves
    the instance in the store with the mutex free, constructed by this call
    if the store was empty; so does the call through the second.  Made with
    the same identifier, the second call returns what the first returned and
    changes nothing; made with different identifiers, the two calls return
    different instances.  Both instances live on. *)
Theorem process_scope_keyed_by_identifier
    (strict : bool) (id1 id2 : string) (j1 j2 : Z) (c1 c2 : ctor)
    (p : ProcessNexus.process) (h : heap) :
  heap_ok h → process_ok p h →
  let na := (ProcessNexus.ctor_ id1 j1 p).1 in
  let p1 := (ProcessNexus.ctor_ id1 j1 p).2 in
  let nb := (ProcessNexus.ctor_ id2 j2 p1).1 in
  let p2 := (ProcessNexus.ctor_ id2 j2 p1).2 in
  (id1 = id2 ↔ ProcessNexus.mStore na = ProcessNexus.mStore nb) ∧
  (id1 = id2 → ∀ c,
     let held :=
       ProcessNexus.Process
         (<[ProcessNexus.mStore na := Store.Make 0 true]>
            (ProcessNexus.stores p2))
         (ProcessNexus.registry p2) in
     ProcessNexus.call strict c nb held h = Done (Blocks, nb, held, h)) ∧
  ∃ sa,
    ProcessNexus.stores p2 !! ProcessNexus.mStore na = Some sa ∧
    ((Store.mObject sa = 0 → ∃ x, c1 = Built x ∧ fresh_in h x) →
     ∃ ra p3 h3,
       ProcessNexus.call strict c1 na p2 h = Done (Returns ra, na, p3, h3) ∧
       (Store.mObject sa = 0 → c1 = Built ra ∧ built h3 = S (built h)) ∧
       ProcessNexus.stores p3 !! ProcessNexus.mStore na
       = Some (Store.Make ra false) ∧
       ra ≠ 0 ∧
       ∃ sb,
         ProcessNexus.stores p3 !! ProcessNexus.mStore nb = Some sb ∧
         ((Store.mObject sb = 0 → ∃ y, c2 = Built y ∧ fresh_in h3 y) →
          ∃ rb p4 h4,
            ProcessNexus.call strict c2 nb p3 h3
            = Done (Returns rb, nb, p4, h4) ∧
            (Store.mObject sb = 0 → c2 = Built rb ∧ built h4 = S (built h3)) ∧
            ProcessNexus.stores p4 !! ProcessNexus.mStore nb
            = Some (Store.Make rb false) ∧
            (id1 = id2 → ra = rb ∧ p4 = p3 ∧ h4 = h3) ∧
            (id1 ≠ id2 → ra ≠ rb) ∧
            is_Some (live h4 !! ra) ∧ is_Some (live h4 !! rb))).
Proof.
  intros Hh Hok. cbv zeta.
  destruct (ProcessNexus.ctor_ id1 j1 p) as [na0 p10] eqn:Hna. cbn [fst snd].
  destruct (ProcessNexus.ctor_ id2 j2 p10) as [nb0 p20] eqn:Hnb. cbn [fst snd].
  destruct (process_ctor_resolves _ _ _ _ _ _ Hok Hna) as (Hok1 & Hra & _).
  destruct (process_ctor_resolves _ _ _ _ _ _ Hok1 Hnb) as (Hok2 & Hrb & Hkeep).
  apply Hkeep in Hra.
  pose proof (registry_valid _ _ Hok2 _ _ Hra) as Hia.
  pose proof (registry_valid _ _ Hok2 _ _ Hrb) as Hib.
  apply lookup_lt_is_Some in Hia as [sa Hsa].
  assert (id1 = id2 ↔ ProcessNexus.mStore na0 = ProcessNexus.mStore nb0) as Hiff.
  { split; [intros ->; congruence|].
    intros E. rewrite E in Hra. by eapply (registry_apart _ _ Hok2). }
  split; [exact Hiff|]. split.
  { intros E%Hiff c. cbv zeta. unfold ProcessNexus.call.
    cbn [ProcessNexus.stores ProcessNexus.registry]. rewrite <- E.
    rewrite list_lookup_insert_eq by (by eapply lookup_lt_Some).
    unfold ProcessNexus.call_on, nonzero. cbn.
    rewrite andb_false_r. cbn. by rewrite list_insert_insert_eq. }
  exists sa. split; [done|]. intros Hc1.
  destruct (process_call_succeeds strict c1 na0 p20 h sa Hh Hok2 Hsa Hc1)
    as (ra & p3 & h3 & Hcall1 & Hnew1 & _ & Hh3 & Hok3 & Hra0 & Hreg3 & Hsa3
        & Hoth3).
  exists ra, p3, h3. split_and!; auto.
  assert (is_Some (ProcessNexus.stores p3 !! ProcessNexus.mStore nb0))
    as [sb Hsb].
  { destruct (decide (ProcessNexus.mStore nb0 = ProcessNexus.mStore na0))
      as [E|E].
    - rewrite E. by eexists.
    - rewrite Hoth3 by done. by apply lookup_lt_is_Some. }
  exists sb. split; [done|]. intros Hc2.
  destruct (process_call_succeeds strict c2 nb0 p3 h3 sb Hh3 Hok3 Hsb Hc2)
    as (rb & p4 & h4 & Hcall2 & Hnew2 & Hfast & Hh4 & Hok4 & Hrb0 & Hreg4
        & Hsb4 & Hoth4).
  exists rb, p4, h4. split_and!; auto.
  - intros E%Hiff. rewrite <- E in Hsb.
    assert (sb = Store.Make ra false) as -> by congruence.
    destruct Hfast as (-> & -> & ->); by simpl.
  - intros E. assert (ProcessNexus.mStore na0 ≠ ProcessNexus.mStore nb0) as E'
      by (by rewrite <- Hiff).
    intros Heq. apply E'.
    eapply (stores_apart _ _ Hok4);
      [rewrite Hoth4 by done; exact Hsa3 | exact Hsb4 | done | by simpl].
  - destruct (decide (ProcessNexus.mStore na0 = ProcessNexus.mStore nb0))
      as [E|E].
    + rewrite <- E in Hsb.
      assert (sb = Store.Make ra false) as -> by congruence.
      destruct Hfast as (_ & -> & ->); [by simpl|].
      by apply (stores_live _ _ Hok3 _ _ Hsa3).
    + assert (ProcessNexus.stores p4 !! ProcessNexus.mStore na0
              = Some (Store.Make ra false)) as Hsa4
        by (rewrite Hoth4 by done; exact Hsa3).
      by apply (stores_live _ _ Hok4 _ _ Hsa4).
  - by apply (stores_live _ _ Hok4 _ _ Hsb4).
Qed.

(** The scenario of the specification: two nexus objects for "db-cache", a
    third for "other-cache". *)
Example process_scope_db_cache :
  let '(n1, p1) := ProcessNexus.ctor_ "db-cache" 11 ProcessNexus.no_stores in
  let '(n2, p2) := ProcessNexus.ctor_ "db-cache" 22 p1 in
  let '(n3, p3) := ProcessNexus.ctor_ "other-cache" 33 p2 in
  ∃ p4 p5 p6 h4 h5 h6,
    ProcessNexus.call false (Built 4096) n1 p3 empty_heap
      = Done (Returns 4096, n1, p4, h4) ∧
    ProcessNexus.call false (Built 8192) n2 p4 h4
      = Done (Returns 4096, n2, p5, h5) ∧
    ProcessNexus.call false (Built 8192) n3 p5 h5
      = Done (Returns 8192, n3, p6, h6) ∧
    built h6 = 2%nat.
Proof. vm_compute. by eexists _, _, _, _, _, _. Qed.

Lemma process_scope_keyed_by_identifier_witness :
  let na := ProcessNexus.Make 0 11 in
  let nb := ProcessNexus.Make 1 33 in
  let reg : gmap string nat :=
    <["other-cache" := 1%nat]> {["db-cache" := 0%nat]} in
  let p1 := ProcessNexus.Process [Store.zero] {["db-cache" := 0%nat]} in
  let p2 := ProcessNexus.Process [Store.zero; Store.zero] reg in
  let p3 := ProcessNexus.Process [Store.Make 4096 false; Store.zero] reg in
  let p4 :=
    ProcessNexus.Process [Store.Make 4096 false; Store.Make 8192 false] reg in
  let h3 := Heap {[4096 := 0%nat]} 1 [] in
  let h4 := Heap (<[8192 := 1%nat]> {[4096 := 0%nat]}) 2 [] in
  ProcessNexus.ctor_ "db-cache" 11 ProcessNexus.no_stores = (na, p1) ∧
  ProcessNexus.ctor_ "other-cache" 33 p1 = (nb, p2) ∧
  ProcessNexus.call false (Built 4096) na p2 empty_heap
  = Done (Returns 4096, na, p3, h3) ∧
  ProcessNexus.call false (Built 8192) nb p3 h3
  = Done (Returns 8192, nb, p4, h4) ∧
  4096 ≠ 8192 ∧
  is_Some (live h4 !! 4096) ∧ is_Some (live h4 !! 8192).
Proof.
  assert (fresh_in empty_heap 4096) as F1
    by (split; [discriminate | split; reflexivity]).
  assert (fresh_in (Heap {[4096 := 0%nat]} 1 []) 8192) as F2
    by (split; [discriminate | split; reflexivity]).
  assert ("db-cache" ≠ "other-cache") as Hid by discriminate.
  intros na nb reg p1 p2 p3 p4 h3 h4.
  assert (ProcessNexus.ctor_ "db-cache" 11 ProcessNexus.no_stores = (na, p1))
    as Ea by reflexivity.
  assert (ProcessNexus.ctor_ "other-cache" 33 p1 = (nb, p2))
    as Eb by reflexivity.
  pose proof (process_scope_keyed_by_identifier false
     "db-cache" "other-cache" 11 33 (Built 4096) (Built 8192)
     ProcessNexus.no_stores empty_heap heap_ok_empty
     (process_ok_no_stores _)) as H.
  cbv zeta in H. rewrite Ea in H. cbn [fst snd] in H. rewrite Eb in H.
  cbn [fst snd] in H.
  destruct H as (_ & _ & sa & _ & H).
  destruct H as (ra & q3 & k3 & Hcall1 & _ & _ & _ & sb & _ & H).
  { intros _. exists 4096. by split. }
  assert (ProcessNexus.call false (Built 4096) na p2 empty_heap
          = Done (Returns 4096, na, p3, h3)) as E1 by reflexivity.
  rewrite E1 in Hcall1. injection Hcall1 as <- <- <-.
  destruct H as (rb & q4 & k4 & Hcall2 & _ & _ & _ & Hdiff & Hla & Hlb).
  { intros _. exists 8192. by split. }
  assert (ProcessNexus.call false (Built 8192) nb p3 h3
          = Done (Returns 8192, nb, p4, h4)) as E2 by reflexivity.
  rewrite E2 in Hcall2. injection Hcall2 as <- <- <-.
  split_and!; [exact Ea | exact Eb | exact E1 | exact E2 | exact (Hdiff Hid)
              | exact Hla | exact Hlb].
Defined.

(** ** Pools in general *)

(** A pool that steps under a stricter environment steps under a laxer one. *)
Lemma pool_step_env {Sh Pc : Type}
    (step1 : nat → ctor → Pc → Sh → heap → option (Pc * Sh * heap))
    (env1 env2 : heap → ctor → Prop) (k k' : config Sh Pc) :
  (∀ h c, env1 h c → env2 h c) →
  pool_step step1 env1 k k' → pool_step step1 env2 k k'.
Proof. intros Hsub [t c p p' sh sh' h h' ths Ht Hc Hs]. econstructor; eauto. Qed.

Lemma succeeds_may_fail (h : heap) (c : ctor) : succeeds h c → may_fail h c.
Proof. by intros (a & -> & Ha). Qed.

(** A step changes the distance to the end by what the moving thread gains. *)
Lemma total_insert {Pc : Type} (weight : Pc → nat) (ths : list Pc) (t : nat)
    (p p' : Pc) :
  ths !! t = Some p →
  (total weight (<[t := p']> ths) + weight p = total weight ths + weight p')%nat.
Proof.
  unfold total. revert t. induction ths as [|q ths IH]; intros [|t]; csimpl;
    try done.
  - intros [= ->]. lia.
  - intros Ht. specialize (IH _ Ht). lia.
Qed.

Lemma total_racing {Sh Pc : Type} (weight : Pc → nat) (N : nat) (sh : Sh)
    (start : Pc) (h : heap) :
  total weight (threads (racing N sh start h)) = (N * weight start)%nat.
Proof.
  unfold total; simpl. rewrite fmap_replicate, sum_list_replicate. lia.
Qed.

Lemma left_or_running {Pc : Type} (result : Pc → option (exn + Z))
    (ths : list Pc) :
  (∀ t p, ths !! t = Some p → is_Some (result p)) ∨
  (∃ t p, ths !! t = Some p ∧ result p = None).
Proof.
  induction ths as [|q ths [IH|(t & p & Ht & Hp)]].
  - left. intros t p. by rewrite lookup_nil.
  - destruct (result q) as [r|] eqn:Hq.
    + left. intros [|t] p; simpl; [intros [= <-]; by eexists | apply IH].
    + right. by exists 0%nat, q.
  - right. by exists (S t), p.
Qed.

(** Some thread of a pool is at a position of a given kind, or none is. *)
Lemma some_or_none {A : Type} (f : A → bool) (l : list A) :
  (∃ t p, l !! t = Some p ∧ f p = true) ∨
  (∀ t p, l !! t = Some p → f p = false).
Proof.
  induction l as [|q l [(t & p & Ht & Hp)|IH]].
  - right. intros t p. by rewrite lookup_nil.
  - left. by exists (S t), p.
  - destruct (f q) eqn:Hq.
    + left. by exists 0%nat, q.
    + right. intros [|t] p; simpl; [by intros [= <-] | apply IH].
Qed.

(** A pool that keeps an invariant under which some thread can always take a
    step that brings the end nearer does reach the end of all calls. *)
Section Finish.

Context {Sh Pc : Type}.
Variable step1 : nat → ctor → Pc → Sh → heap → option (Pc * Sh * heap).
Variable result : Pc → option (exn + Z).
Variable env : heap → ctor → Prop.
Variable Inv : config Sh Pc → Prop.
Variable weight : Pc → nat.

Hypothesis Inv_step : ∀ k k', Inv k → pool_step step1 env k k' → Inv k'.

Hypothesis Inv_progress : ∀ k,
  Inv k → (∃ t p, threads k !! t = Some p ∧ result p = None) →
  ∃ k', pool_step step1 env k k' ∧
        (total weight (threads k') < total weight (threads k))%nat.

Lemma inv_rtc (k k' : config Sh Pc) :
  Inv k → rtc (pool_step step1 env) k k' → Inv k'.
Proof. intros Hk Hrun. induction Hrun; eauto. Qed.

Lemma inv_finish (k : config Sh Pc) :
  Inv k → ∃ k', rtc (pool_step step1 env) k k' ∧ all_left result k'.
Proof.
  remember (total weight (threads k)) as m eqn:Hm.
  revert k Hm. induction (lt_wf m) as [m _ IH]. intros k -> Hk.
  destruct (left_or_running result (threads k)) as [Hdone|Hrun].
  - exists k. split; [apply rtc_refl | exact Hdone].
  - destruct (Inv_progress k Hk Hrun) as (k1 & Hstep & Hlt).
    destruct (IH _ Hlt k1 eq_refl (Inv_step _ _ Hk Hstep)) as (k' & Hrun' & Hl).
    exists k'. split; [by eapply rtc_l | done].
Qed.

End Finish.

(** ** The free store never runs out of addresses *)

Lemma fresh_address_fresh (h : heap) : fresh_in h (fresh_address h).
Proof.
  unfold fresh_in, fresh_address.
  set (m := max_list (Z.abs_nat <$> (map_to_list (live h)).*1)).
  split_and!.
  - lia.
  - change 1 with (Z.ones 1) at 2. rewrite Z.land_ones by lia.
    change (2 ^ 1) with 2. rewrite Z.mul_comm. apply Z.mod_mul. lia.
  - destruct (live h !! (2 * (Z.of_nat m + 1))) as [o|] eqn:E; [|done].
    exfalso. apply elem_of_map_to_list in E.
    assert (Z.abs_nat (2 * (Z.of_nat m + 1)) ∈
              Z.abs_nat <$> (map_to_list (live h)).*1) as Hin.
    { apply list_elem_of_fmap. exists (2 * (Z.of_nat m + 1)). split; [done|].
      apply list_elem_of_fmap. by exists (2 * (Z.of_nat m + 1), o). }
    apply max_list_elem_of_le in Hin. fold m in Hin. lia.
Qed.

(** No thread joins or leaves the pool. *)
Lemma pool_step_length {Sh Pc : Type}
    (step1 : nat → ctor → Pc → Sh → heap → option (Pc * Sh * heap))
    (env : heap → ctor → Prop) (k k' : config Sh Pc) :
  rtc (pool_step step1 env) k k' → length (threads k') = length (threads k).
Proof.
  induction 1 as [|k1 k2 k3 [t c p p' sh sh' h h' ths Ht Hc Hs] _ IH]; [done|].
  rewrite IH. simpl. apply length_insert.
Qed.

Lemma succeeds_exists (h : heap) : ∃ c, succeeds h c.
Proof.
  exists (Built (fresh_address h)), (fresh_address h).
  split; [done | apply fresh_address_fresh].
Qed.

(** ** The race for a process nexus *)

(** The invariant holds before any thread has moved. *)
Lemma process_inv_racing (N : nat) (h0 : heap) :
  heap_ok h0 →
  process_inv (built h0) (racing N Store.zero ProcessNexus.Enter h0).
Proof.
  intros Hh. split; simpl; try done.
  - intros t t' p p' [-> _]%lookup_replicate. done.
  - intros t p [-> _]%lookup_replicate. done.
  - by intros t p [-> _]%lookup_replicate.
Qed.

(** A thread that is not where the moving thread was is another thread. *)
Lemma lookup_other {A} (ths : list A) (t0 t : nat) (p p' q : A) :
  ths !! t0 = Some p → ths !! t = Some q → q ≠ p →
  <[t0 := p']> ths !! t = Some q.
Proof.
  intros H0 H1 Hne. rewrite list_lookup_insert_ne; [done|]. congruence.
Qed.

(** What the invariant gave for a thread that has not moved. *)
Ltac use_old Hth Hmx Hheld Ht0 :=
  repeat match goal with
  | H : ?ths !! ?t = Some ?q, Hn : ?t0 ≠ ?t |- _ =>
      lazymatch goal with
      | _ : process_thread_ok _ _ _ q |- _ => fail
      | _ => pose proof (Hth _ _ H); pose proof (Hmx _ _ _ _ Ht0 H);
             pose proof (Hheld _ _ H)
      end
  end.

(** Propositional reasoning over what has been collected. *)
Ltac finish :=
  simpl in *; try done; try congruence; try tauto;
  try (intuition (eauto; congruence)).

(** Every step of every thread keeps the invariant: by cases on the position
    of the thread that moves, then on each part of the invariant, then on
    whether it speaks of the thread that moved or of another one. *)
Lemma process_inv_step (strict : bool) (b0 : nat)
    (k k' : config Store.t ProcessNexus.pc) :
  process_inv b0 k →
  pool_step (ProcessNexus.step1 strict) may_fail k k' →
  process_inv b0 k'.
Proof.
  intros [Hh Hmx Hheld Hholder Hnone Hsome Hth] Hstep.
  destruct Hstep as [t0 c p p' s s' h h' ths Ht0 Hc Hs1]. simpl in *.
  pose proof (Hth _ _ Ht0) as Hme.
  pose proof (Hheld _ _ Ht0) as Hmine.
  assert (∀ t q, <[t0 := p']> ths !! t = Some q →
            (t = t0 ∧ q = p') ∨ (t0 ≠ t ∧ ths !! t = Some q)) as Hpick.
  { intros t q [(<- & <- & _)|[? ?]]%list_lookup_insert_Some; auto. }
  destruct p; simpl in Hs1;
    repeat match type of Hs1 with
    | context [if ?b then _ else _] => destruct b eqn:?
    | context [match lock ?l with _ => _ end] =>
        let E := fresh "El" in
        destruct (Store.mLock s) eqn:El; simpl in Hs1
    | context [match new_Type ?c ?h with _ => _ end] =>
        destruct c as [a|e]; simpl in Hs1
    end; try discriminate; injection Hs1 as <- <- <-;
    (split; simpl;
     [ | intros t t' q q' H1 H2 C1 C2;
         apply Hpick in H1 as [[-> ->]|[N1 H1]];
         apply Hpick in H2 as [[-> ->]|[N2 H2]]
       | intros t q H1 C1; apply Hpick in H1 as [[-> ->]|[N1 H1]]
       | intros Hl
       | intros Hz Hno
       | intros Hnz
       | intros t q H1; apply Hpick in H1 as [[-> ->]|[N1 H1]] ]).
  all: try solve [finish].
  all: try solve [use_old Hth Hmx Hheld Ht0; finish].
  all: try solve [eapply Hmx; eauto].
  all: try solve [exists t0; eexists; split;
                    [apply list_lookup_insert_eq; by eapply lookup_lt_Some|done]].
  all: try solve [destruct (Hholder Hl) as (t & q & Hq & Hcr);
                  exists t, q; split; [|done];
                  eapply lookup_other; eauto; intros ->; discriminate].
  all: try solve [apply Hnone; [done|]; intros t a' Ht; apply (Hno t a');
                  eapply lookup_other; eauto; discriminate].
  all: try solve [exfalso; eapply (Hno t0); apply list_lookup_insert_eq;
                  by eapply lookup_lt_Some].
  all: try solve [by apply heap_ok_new].
  all: try solve [destruct q as [| | | | | | |[?|?]|[?|?]];
                  use_old Hth Hmx Hheld Ht0; finish].
  all: try solve [apply andb_true_iff in Heqb as [_ ?%nonzero_true]; finish].
  all: try solve [apply Z.eqb_eq in Heqb; finish].
  all: try solve [apply Z.eqb_neq in Heqb; finish].
  simpl in *. destruct Hc as (Ha0 & _).
  assert (built h = b0) as <-.
  { apply Hnone; [done|]. intros t a' Ht.
    assert (t0 = t) as <- by (by eapply Hmx). congruence. }
  split_and!; auto. apply lookup_insert_eq.
Qed.

(** So the invariant holds wherever the race stands. *)
Lemma process_inv_reachable (strict : bool) (N : nat) (h0 : heap)
    (k : config Store.t ProcessNexus.pc) :
  heap_ok h0 →
  rtc (pool_step (ProcessNexus.step1 strict) may_fail)
    (racing N Store.zero ProcessNexus.Enter h0) k →
  process_inv (built h0) k.
Proof.
  intros Hh Hrun.
  eapply (rtc_ind_r (λ k, process_inv (built h0) k)); [| |exact Hrun].
  - by apply process_inv_racing.
  - intros k1 k2 _ Hstep Hinv. by eapply process_inv_step.
Qed.

(** ** The race for a process nexus: it ends *)

Lemma process_step_weight (strict : bool) (me : nat) (c : ctor)
    (p p' : ProcessNexus.pc) (s s' : Store.t) (h h' : heap) :
  ProcessNexus.step1 strict me c p s h = Some (p', s', h') →
  (process_weight p' < process_weight p)%nat.
Proof.
  destruct p; simpl; repeat case_match; intros [= <- <- <-]; simpl; lia.
Qed.

Lemma process_step_nearer (strict : bool) (env : heap → ctor → Prop)
    (k k' : config Store.t ProcessNexus.pc) :
  pool_step (ProcessNexus.step1 strict) env k k' →
  (total process_weight (threads k') < total process_weight (threads k))%nat.
Proof.
  intros [t c p p' s s' h h' ths Ht Hc Hs]. simpl.
  pose proof (total_insert process_weight ths t p p' Ht).
  pose proof (process_step_weight _ _ _ _ _ _ _ _ _ Hs). lia.
Qed.

Lemma process_race_shrinks (strict : bool) (env : heap → ctor → Prop)
    (n : nat) (k k' : config Store.t ProcessNexus.pc) :
  nsteps (pool_step (ProcessNexus.step1 strict) env) n k k' →
  (n + total process_weight (threads k') ≤ total process_weight (threads k))%nat.
Proof.
  induction 1 as [|n k1 k2 k3 Hstep _ IH]; [lia|].
  apply process_step_nearer in Hstep. lia.
Qed.

(** Every run of [N] racing calls is over after at most [8 * N] steps. *)
Lemma process_race_bounded (strict : bool) (env : heap → ctor → Prop) :
  ends_within (ProcessNexus.step1 strict) env 8 Store.zero ProcessNexus.Enter.
Proof.
  intros N n h0 k Hrun.
  pose proof (process_race_shrinks _ _ _ _ _ Hrun) as Hb.
  rewrite total_racing in Hb. simpl in Hb. lia.
Qed.

(** A thread that holds the mutex can move, and so can any thread while the
    mutex is free. *)
Lemma process_enabled (strict : bool) (me : nat) (c : ctor)
    (p : ProcessNexus.pc) (s : Store.t) (h : heap) :
  process_critical p = true ∨
  (ProcessNexus.result p = None ∧ Store.mLock s = false) →
  is_Some (ProcessNexus.step1 strict me c p s h).
Proof.
  intros [Hc|[Hr Hl]]; destruct p; simpl in *; try done;
    repeat case_match; try by eexists.
  by rewrite Hl in *.
Qed.

Lemma process_progress (strict : bool) (env : heap → ctor → Prop) (b0 : nat)
    (k : config Store.t ProcessNexus.pc) :
  (∀ h, ∃ c, env h c) →
  process_inv b0 k →
  (∃ t p, threads k !! t = Some p ∧ ProcessNexus.result p = None) →
  ∃ k', pool_step (ProcessNexus.step1 strict) env k k'.
Proof.
  intros Henv Hinv (t & p & Ht & Hp). destruct k as [s h ths]; simpl in *.
  destruct (Henv h) as [c Hc].
  assert (∃ t1 p1, ths !! t1 = Some p1 ∧
            is_Some (ProcessNexus.step1 strict t1 c p1 s h))
    as (t1 & p1 & Ht1 & [[[p' s'] h'] Hs]).
  { destruct (Store.mLock s) eqn:Hl.
    - destruct (pinv_holder _ _ Hinv Hl) as (t1 & p1 & Ht1 & Hc1).
      exists t1, p1. split; [done|]. apply process_enabled. by left.
    - exists t, p. split; [done|]. apply process_enabled. by right. }
  eexists. by econstructor.
Qed.

(** When the constructor never fails, no call leaves by an exception. *)
Lemma process_calm_step (strict : bool)
    (k k' : config Store.t ProcessNexus.pc) :
  (∀ t p, threads k !! t = Some p → process_calm p) →
  pool_step (ProcessNexus.step1 strict) succeeds k k' →
  ∀ t p, threads k' !! t = Some p → process_calm p.
Proof.
  intros Hcalm Hstep.
  destruct Hstep as [t0 c p0 p' s s' h h' ths Ht0 (a & -> & Ha) Hs].
  intros t p; simpl in *.
  intros [(<- & <- & _)|[_ Ht]]%list_lookup_insert_Some;
    [|exact (Hcalm _ _ Ht)].
  specialize (Hcalm _ _ Ht0).
  destruct p0 as [| | | | | | |[e|r]|[e|r]]; simpl in *; repeat case_match;
    by simplify_eq.
Qed.

Lemma process_calm_reachable (strict : bool) (N : nat) (h0 : heap)
    (k : config Store.t ProcessNexus.pc) :
  rtc (pool_step (ProcessNexus.step1 strict) succeeds)
    (racing N Store.zero ProcessNexus.Enter h0) k →
  ∀ t p, threads k !! t = Some p → process_calm p.
Proof.
  intros Hrun.
  eapply (rtc_ind_r (λ k, ∀ t p, threads k !! t = Some p → process_calm p));
    [| |exact Hrun].
  - simpl. by intros t p [-> _]%lookup_replicate.
  - intros k1 k2 _ Hstep Hcalm. by eapply process_calm_step.
Qed.

Lemma process_inv_reachable_succeeds (strict : bool) (N : nat) (h0 : heap)
    (k : config Store.t ProcessNexus.pc) :
  heap_ok h0 →
  rtc (pool_step (ProcessNexus.step1 strict) succeeds)
    (racing N Store.zero ProcessNexus.Enter h0) k →
  process_inv (built h0) k.
Proof.
  intros Hh Hrun. eapply process_inv_reachable; [done|].
  eapply rtc_subrel; [|exact Hrun].
  intros k1 k2. apply pool_step_env, succeeds_may_fail.
Qed.

(** ** The race for a process nexus: one instance *)

(** Whatever the constructor does, at most one instance is constructed, and
    a call that has returned has returned that instance, which the store
    holds. *)
Lemma process_race_at_most_once (strict : bool) :
  at_most_once (ProcessNexus.step1 strict) ProcessNexus.result may_fail
    Store.mObject Store.zero ProcessNexus.Enter.
Proof.
  intros N h0 k Hh Hrun.
  pose proof (process_inv_reachable _ _ _ _ Hh Hrun) as Hinv.
  split.
  - destruct (decide (Store.mObject (shared k) = 0)) as [Hz|Hnz].
    + destruct (some_or_none
                  (λ p, match p with ProcessNexus.Assign _ => true | _ => false end)
                  (threads k)) as [(t & p & Ht & Hp)|Hno].
      * destruct p; try discriminate.
        destruct (pinv_thread _ _ Hinv _ _ Ht) as (_ & _ & -> & _). lia.
      * rewrite (pinv_none _ _ Hinv Hz); [lia|]. intros t a Ht.
        by specialize (Hno _ _ Ht).
    + destruct (pinv_some _ _ Hinv Hnz) as [-> _]. lia.
  - intros t r (p & Ht & Hp). destruct p; try discriminate.
    injection Hp as ->. destruct (pinv_thread _ _ Hinv _ _ Ht) as [-> Hnz].
    destruct (pinv_some _ _ Hinv Hnz). by split_and!.
Qed.

(** With a constructor that succeeds: exactly one instance, and the same
    reference for all. *)
Lemma process_race_constructs_once (strict : bool) :
  constructs_once (ProcessNexus.step1 strict) ProcessNexus.result succeeds
    Store.zero ProcessNexus.Enter.
Proof.
  intros N h0 k HN Hh Hrun Hleft.
  pose proof (process_inv_reachable_succeeds _ _ _ _ Hh Hrun) as Hinv.
  pose proof (process_calm_reachable _ _ _ _ Hrun) as Hcalm.
  pose proof (pool_step_length _ _ _ _ Hrun) as Hlen.
  simpl in Hlen. rewrite length_replicate in Hlen.
  assert (∀ t, (t < N)%nat →
            returned ProcessNexus.result k t (Store.mObject (shared k)) ∧
            Store.mObject (shared k) ≠ 0) as Hall.
  { intros t Ht. rewrite <- Hlen in Ht.
    apply lookup_lt_is_Some in Ht as [p Hp].
    destruct (Hleft _ _ Hp) as [r Hr]. specialize (Hcalm _ _ Hp).
    destruct p as [| | | | | | | |[e|r']]; try discriminate; [done|].
    destruct (pinv_thread _ _ Hinv _ _ Hp) as [-> Hnz].
    split; [|done]. by exists (ProcessNexus.Left (inr (Store.mObject (shared k)))). }
  split.
  - destruct (Hall 0%nat ltac:(lia)) as [_ Hnz].
    by destruct (pinv_some _ _ Hinv Hnz).
  - exists (Store.mObject (shared k)). intros t Ht. by apply Hall.
Qed.

(** The race cannot get stuck, whether the constructor may fail or not. *)
Lemma process_race_can_finish (strict : bool) (env : heap → ctor → Prop) :
  (∀ h c, env h c → may_fail h c) → (∀ h, ∃ c, env h c) →
  can_finish (ProcessNexus.step1 strict) ProcessNexus.result env
    Store.zero ProcessNexus.Enter.
Proof.
  intros Hsub Henv N h0 k Hh Hrun.
  apply (inv_finish (ProcessNexus.step1 strict) ProcessNexus.result env
           (process_inv (built h0)) process_weight).
  - intros k1 k2 Hinv Hstep. eapply process_inv_step; [done|].
    by eapply pool_step_env.
  - intros k1 Hinv Hrunning.
    destruct (process_progress strict env _ _ Henv Hinv Hrunning) as [k2 Hstep].
    exists k2. split; [done|]. by eapply process_step_nearer.
  - eapply process_inv_reachable; [done|].
    eapply rtc_subrel; [|exact Hrun]. intros k1 k2. by apply pool_step_env.
Qed.

(** ** The race for a module nexus *)

(** The invariant holds before any thread has moved. *)
Lemma module_inv_racing (N : nat) (h0 : heap) :
  heap_ok h0 →
  module_inv (built h0) (racing N ModuleNexus.zero ModuleNexus.Latch h0).
Proof.
  intros Hh. split; simpl; try done.
  - intros t t' p p' [-> _]%lookup_replicate. done.
  - intros t p [-> _]%lookup_replicate. done.
  - by intros t p [-> _]%lookup_replicate.
Qed.

(** What the invariant gave for a thread that has not moved. *)
Ltac use_old_module Hth Hmx Hheld Ht0 :=
  repeat match goal with
  | H : ?ths !! ?t = Some ?q, Hn : ?t0 ≠ ?t |- _ =>
      lazymatch goal with
      | _ : module_thread_ok _ _ _ q |- _ => fail
      | _ => pose proof (Hth _ _ H); pose proof (Hmx _ _ _ _ Ht0 H);
             pose proof (Hheld _ _ H)
      end
  end.

Lemma slot_of_marker : slot_of ModuleNexus.marker = InProgress.
Proof. reflexivity. Qed.

Lemma unfinished_test (w : Z) :
  negb (nonzero w) || nonzero (Z.land w 1) = false ↔ slot_of w = Finished.
Proof.
  unfold slot_of. destruct (nonzero w); simpl; [|split; discriminate].
  destruct (nonzero (Z.land w 1)); split; congruence.
Qed.

(** Every step of every thread keeps the invariant. *)
Lemma module_inv_step (b0 : nat)
    (k k' : config ModuleNexus.t ModuleNexus.pc) :
  module_inv b0 k →
  pool_step ModuleNexus.step1 may_fail k k' →
  module_inv b0 k'.
Proof.
  intros [Hh Hmx Hheld Hholder Hnone Hsome Hth] Hstep.
  destruct Hstep as [t0 c p p' s s' h h' ths Ht0 Hc Hs1]. simpl in *.
  pose proof (Hth _ _ Ht0) as Hme.
  pose proof (Hheld _ _ Ht0) as Hmine.
  pose proof slot_of_marker as Hmk.
  assert (slot_of 0 = Empty) as Hzero by reflexivity.
  assert (∀ t q, <[t0 := p']> ths !! t = Some q →
            (t = t0 ∧ q = p') ∨ (t0 ≠ t ∧ ths !! t = Some q)) as Hpick.
  { intros t q [(<- & <- & _)|[? ?]]%list_lookup_insert_Some; auto. }
  destruct p; simpl in Hs1, Hmine; unfold ModuleNexus.make in Hs1;
    (lazymatch type of Hmine with
     | true = true → _ => specialize (Hmine eq_refl)
     | _ => clear Hmine
     end);
    repeat match type of Hs1 with
    | context [if ?b || ?b' then _ else _] =>
        let E := fresh "E" in
        destruct (b || b') eqn:E; [|apply unfinished_test in E]
    | context [if ?x =? 0 then _ else _] =>
        let E := fresh "E" in
        destruct (Z.eqb_spec x 0) as [E|E]; [try rewrite E in *|]
    | context [match slot_of ?w with _ => _ end] =>
        destruct (slot_of w) eqn:?
    | context [match new_Type ?c ?h with _ => _ end] =>
        destruct c as [a|e]; simpl in Hs1
    end; try discriminate; injection Hs1 as <- <- <-;
    (split; simpl;
     [ | intros t t' q q' H1 H2 C1 C2;
         apply Hpick in H1 as [[-> ->]|[N1 H1]];
         apply Hpick in H2 as [[-> ->]|[N2 H2]]
       | intros t q H1 C1; apply Hpick in H1 as [[-> ->]|[N1 H1]]
       | intros Hl
       | intros Hz Hno
       | intros Hnz
       | intros t q H1; apply Hpick in H1 as [[-> ->]|[N1 H1]] ]).
  all: try solve [finish].
  all: try solve [use_old_module Hth Hmx Hheld Ht0; finish].
  all: try solve [eapply Hmx; eauto].
  all: try solve [exists t0; eexists; split;
                    [apply list_lookup_insert_eq; by eapply lookup_lt_Some|done]].
  all: try solve [destruct (Hholder Hl) as (t & q & Hq & Hcr);
                  exists t, q; split; [|done];
                  eapply lookup_other; eauto; intros ->; discriminate].
  all: try solve [apply Hnone; [congruence|]; intros t a' Ht; apply (Hno t a');
                  eapply lookup_other; eauto; discriminate].
  all: try solve [exfalso; eapply (Hno t0); apply list_lookup_insert_eq;
                  by eapply lookup_lt_Some].
  all: try solve [by apply heap_ok_new].
  all: try solve [destruct q as [| | | | | | |[?|?]];
                  use_old_module Hth Hmx Hheld Ht0; simpl in *;
                  intuition (subst; congruence)].
  all: try solve [destruct (Hholder eq_refl) as (t & q & Hq & Hcr);
                  exists t, q; split; [|done]; by rewrite list_insert_id].
  simpl in *.
  assert (built h = b0) as <-.
  { apply Hnone; [congruence|]. intros t a' Ht.
    assert (t0 = t) as <- by (by eapply Hmx). congruence. }
  split_and!; [by eapply fresh_is_finished | done | apply lookup_insert_eq].
Qed.

(** So the invariant holds wherever the race stands. *)
Lemma module_inv_reachable (N : nat) (h0 : heap)
    (k : config ModuleNexus.t ModuleNexus.pc) :
  heap_ok h0 →
  rtc (pool_step ModuleNexus.step1 may_fail)
    (racing N ModuleNexus.zero ModuleNexus.Latch h0) k →
  module_inv (built h0) k.
Proof.
  intros Hh Hrun.
  eapply (rtc_ind_r (λ k, module_inv (built h0) k)); [| |exact Hrun].
  - by apply module_inv_racing.
  - intros k1 k2 _ Hstep Hinv. by eapply module_inv_step.
Qed.

(** With a constructor that never fails, no thread is ever sent back. *)
Lemma module_calm_step (k k' : config ModuleNexus.t ModuleNexus.pc) :
  (∀ t p, threads k !! t = Some p → module_calm (shared k) p) →
  pool_step ModuleNexus.step1 succeeds k k' →
  ∀ t p, threads k' !! t = Some p → module_calm (shared k') p.
Proof.
  intros Hcalm Hstep.
  destruct Hstep as [t0 c p0 p' s s' h h' ths Ht0 (a & -> & Ha) Hs].
  pose proof Ha as (Ha0 & _).
  intros t p; simpl in *. pose proof (Hcalm _ _ Ht0) as Hme.
  intros [(<- & <- & _)|[_ Ht]]%list_lookup_insert_Some.
  - destruct p0 as [| | | | | | |[e|r]]; simpl in *; repeat case_match;
      simplify_eq; simpl; try done.
    by apply Z.eqb_neq.
  - specialize (Hcalm _ _ Ht).
    destruct p0 as [| | | | | | |[e|r]]; simpl in *; repeat case_match;
      simplify_eq; simpl; try done;
      destruct p as [| | | | | | |[e'|r']]; simpl in *; done.
Qed.

Lemma module_calm_reachable (N : nat) (h0 : heap)
    (k : config ModuleNexus.t ModuleNexus.pc) :
  rtc (pool_step ModuleNexus.step1 succeeds)
    (racing N ModuleNexus.zero ModuleNexus.Latch h0) k →
  ∀ t p, threads k !! t = Some p → module_calm (shared k) p.
Proof.
  intros Hrun.
  eapply (rtc_ind_r
            (λ k, ∀ t p, threads k !! t = Some p → module_calm (shared k) p));
    [| |exact Hrun].
  - simpl. by intros t p [-> _]%lookup_replicate.
  - intros k1 k2 _ Hstep Hcalm. by eapply module_calm_step.
Qed.

Lemma module_inv_reachable_succeeds (N : nat) (h0 : heap)
    (k : config ModuleNexus.t ModuleNexus.pc) :
  heap_ok h0 →
  rtc (pool_step ModuleNexus.step1 succeeds)
    (racing N ModuleNexus.zero ModuleNexus.Latch h0) k →
  module_inv (built h0) k.
Proof.
  intros Hh Hrun. eapply module_inv_reachable; [done|].
  eapply rtc_subrel; [|exact Hrun].
  intros k1 k2. apply pool_step_env, succeeds_may_fail.
Qed.

(** ** The race for a module nexus: it can end *)

(** Every step but a poll that finds nothing brings the thread nearer to the
    end of its call, and a thread that is not polling can always move. *)
Lemma module_step_nearer (me : nat) (c : ctor) (p : ModuleNexus.pc)
    (n : ModuleNexus.t) (h : heap) :
  ModuleNexus.result p = None →
  p ≠ ModuleNexus.Poll ∨ slot_of (ModuleNexus.pointer n) = Finished →
  ∃ p' n' h',
    ModuleNexus.step1 me c p n h = Some (p', n', h') ∧
    (module_weight p' < module_weight p)%nat.
Proof.
  intros Hr Hp. destruct p; simpl in *; try discriminate;
    unfold ModuleNexus.make; repeat case_match;
    try (eexists _, _, _; split; [reflexivity|simpl; lia]).
  all: destruct Hp; congruence.
Qed.

Lemma module_progress (b0 : nat) (k : config ModuleNexus.t ModuleNexus.pc) :
  module_inv b0 k →
  (∀ t p, threads k !! t = Some p → module_calm (shared k) p) →
  (∃ t p, threads k !! t = Some p ∧ ModuleNexus.result p = None) →
  ∃ k', pool_step ModuleNexus.step1 succeeds k k' ∧
        (total module_weight (threads k') < total module_weight (threads k))%nat.
Proof.
  intros Hinv Hcalm (t & p & Ht & Hp). destruct k as [n h ths]; simpl in *.
  destruct (succeeds_exists h) as [c Hc].
  assert (∃ t1 p1, ths !! t1 = Some p1 ∧ ModuleNexus.result p1 = None ∧
            (p1 ≠ ModuleNexus.Poll ∨ slot_of (ModuleNexus.pointer n) = Finished))
    as (t1 & p1 & Ht1 & Hr1 & Hgo).
  { assert (p = ModuleNexus.Poll ∨ p ≠ ModuleNexus.Poll) as [->|Hne]
      by (destruct p; auto; right; discriminate);
      [|exists t, p; auto].
    destruct (slot_of (ModuleNexus.pointer n)) eqn:Hs.
    - apply slot_of_empty in Hs. by destruct (Hcalm _ _ Ht).
    - destruct (minv_holder _ _ Hinv Hs) as (t1 & p1 & Ht1 & Hc1).
      exists t1, p1. split; [done|]. destruct p1; try discriminate; auto.
    - exists t, ModuleNexus.Poll. auto. }
  destruct (module_step_nearer t1 c p1 n h Hr1 Hgo) as (p' & n' & h' & Hs & Hlt).
  eexists. split; [by econstructor|]. simpl.
  pose proof (total_insert module_weight ths t1 p1 p' Ht1). lia.
Qed.

Lemma module_race_can_finish :
  can_finish ModuleNexus.step1 ModuleNexus.result succeeds
    ModuleNexus.zero ModuleNexus.Latch.
Proof.
  intros N h0 k Hh Hrun.
  apply (inv_finish ModuleNexus.step1 ModuleNexus.result succeeds
           (λ k, module_inv (built h0) k ∧
                 ∀ t p, threads k !! t = Some p → module_calm (shared k) p)
           module_weight).
  - intros k1 k2 [Hinv Hcalm] Hstep. split.
    + eapply module_inv_step; [done|].
      eapply pool_step_env; [apply succeeds_may_fail | done].
    + by eapply module_calm_step.
  - intros k1 [Hinv Hcalm] Hrunning. by eapply module_progress.
  - split; [by eapply module_inv_reachable_succeeds|].
    by eapply module_calm_reachable.
Qed.

(** ** The race for a module nexus: one instance *)

Lemma module_race_at_most_once :
  at_most_once ModuleNexus.step1 ModuleNexus.result may_fail
    ModuleNexus.pointer ModuleNexus.zero ModuleNexus.Latch.
Proof.
  intros N h0 k Hh Hrun.
  pose proof (module_inv_reachable _ _ _ Hh Hrun) as Hinv.
  split.
  - assert (slot_of (ModuleNexus.pointer (shared k)) = Finished ∨
            slot_of (ModuleNexus.pointer (shared k)) ≠ Finished) as [Hf|Hnf]
      by (destruct (slot_of (ModuleNexus.pointer (shared k))); auto;
          right; discriminate).
    + destruct (minv_some _ _ Hinv Hf) as [-> _]. lia.
    + destruct (some_or_none
                  (λ p, match p with ModuleNexus.Publish _ => true | _ => false end)
                  (threads k)) as [(t & p & Ht & Hp)|Hno].
      * destruct p; try discriminate.
        destruct (minv_thread _ _ Hinv _ _ Ht) as (_ & -> & _). lia.
      * rewrite (minv_none _ _ Hinv Hnf); [lia|]. intros t a Ht.
        by specialize (Hno _ _ Ht).
  - intros t r (p & Ht & Hp). destruct p; try discriminate.
    injection Hp as ->. destruct (minv_thread _ _ Hinv _ _ Ht) as [-> Hf].
    destruct (minv_some _ _ Hinv Hf). by split_and!.
Qed.

Lemma module_race_constructs_once :
  constructs_once ModuleNexus.step1 ModuleNexus.result succeeds
    ModuleNexus.zero ModuleNexus.Latch.
Proof.
  intros N h0 k HN Hh Hrun Hleft.
  pose proof (module_inv_reachable_succeeds _ _ _ Hh Hrun) as Hinv.
  pose proof (module_calm_reachable _ _ _ Hrun) as Hcalm.
  pose proof (pool_step_length _ _ _ _ Hrun) as Hlen.
  simpl in Hlen. rewrite length_replicate in Hlen.
  assert (∀ t, (t < N)%nat →
            returned ModuleNexus.result k t (ModuleNexus.pointer (shared k)) ∧
            slot_of (ModuleNexus.pointer (shared k)) = Finished) as Hall.
  { intros t Ht. rewrite <- Hlen in Ht.
    apply lookup_lt_is_Some in Ht as [p Hp].
    destruct (Hleft _ _ Hp) as [r Hr]. specialize (Hcalm _ _ Hp).
    destruct p as [| | | | | | |[e|r']]; try discriminate; [done|].
    destruct (minv_thread _ _ Hinv _ _ Hp) as [-> Hf].
    split; [|done].
    by exists (ModuleNexus.Left (inr (ModuleNexus.pointer (shared k)))). }
  split.
  - destruct (Hall 0%nat ltac:(lia)) as [_ Hf].
    by destruct (minv_some _ _ Hinv Hf).
  - exists (ModuleNexus.pointer (shared k)). intros t Ht. by apply Hall.
Qed.

(** ** The race on a thread nexus *)

Lemma thread_get_empty (t : nat) : ThreadNexus.get ThreadNexus.ctor_ t = 0.
Proof. unfold ThreadNexus.get; simpl. by rewrite lookup_empty. Qed.

Lemma thread_inv_racing (N : nat) (h0 : heap) :
  heap_ok h0 →
  thread_inv (built h0) (racing N ThreadNexus.ctor_ ThreadNexus.Get h0).
Proof.
  intros Hh. split; simpl.
  - done.
  - apply thread_owns_empty.
  - unfold total. rewrite fmap_replicate, sum_list_replicate. simpl. lia.
  - intros t p [-> _]%lookup_replicate. apply thread_get_empty.
Qed.

(** Every step of every thread keeps the invariant. *)
Lemma thread_inv_step (b0 : nat)
    (k k' : config ThreadNexus.t ThreadNexus.pc) :
  thread_inv b0 k →
  pool_step ThreadNexus.step1 may_fail k k' →
  thread_inv b0 k'.
Proof.
  intros [Hh Hown Hb Hth] Hstep.
  destruct Hstep as [t0 c p p' n n' h h' ths Ht0 Hc Hs1]. simpl in *.
  pose proof (Hth _ _ Ht0) as Hme.
  pose proof (total_insert thread_built ths t0 p p' Ht0) as Htot.
  assert (t0 < length ths)%nat as Hlt by (by eapply lookup_lt_Some).
  destruct p; simpl in Hs1, Hme.
  - (* Get *)
    rewrite Hme in Hs1. simpl in Hs1. injection Hs1 as <- <- <-.
    split; simpl; auto; [simpl in Htot; lia|].
    intros t q [(<- & <- & _)|[Hne Hq]]%list_lookup_insert_Some; [done|].
    specialize (Hth _ _ Hq). destruct q as [| | | |[e|r]]; simpl in *; auto.
    destruct Hth as (? & ? & ? & ? & Hu). split_and!; auto.
    intros t' [(_ & [=] & _)|[_ Hq']]%list_lookup_insert_Some. by apply Hu.
  - (* New *)
    destruct c as [a|e]; simpl in Hs1; injection Hs1 as <- <- <-.
    + pose proof Hc as (Ha0 & Ha1 & Hfresh).
      assert (∀ b, is_Some (live h !! b) → b ≠ a) as Hnew.
      { intros b [o Ho] ->. congruence. }
      assert (∀ b, is_Some (live h !! b) →
                is_Some (<[a := built h]> (live h) !! b)) as Hkeep.
      { intros b Hlb. rewrite lookup_insert_ne; [done|].
        intros ->. by eapply Hnew. }
      split; simpl.
      * by apply heap_ok_new.
      * intros t p Hp Hp0. destruct (Hown _ _ Hp Hp0) as [Hl Hu]. auto.
      * simpl in Htot. lia.
      * intros t q [(<- & <- & _)|[Hne Hq]]%list_lookup_insert_Some; simpl.
        -- split_and!; auto.
           ++ rewrite lookup_insert_eq. by eexists.
           ++ intros t' Ht'. destruct (Hown _ _ Ht' Ha0) as [Hl _].
              by eapply Hnew.
           ++ intros t' [(? & _)|[_ Hq']]%list_lookup_insert_Some; [done|].
              destruct (Hth _ _ Hq') as (_ & _ & Hl & _). by destruct (Hnew a).
        -- specialize (Hth _ _ Hq).
           destruct q as [| | | |[e|r]]; simpl in *; auto.
           destruct Hth as (? & ? & Hl & ? & Hu). split_and!; auto.
           intros t' [(_ & [= <-] & _)|[_ Hq']]%list_lookup_insert_Some;
             [by destruct (Hnew a)|by apply Hu].
    + split; simpl; auto; [simpl in Htot; lia|].
      intros t q [(<- & <- & _)|[Hne Hq]]%list_lookup_insert_Some; [done|].
      specialize (Hth _ _ Hq). destruct q as [| | | |[e'|r]]; simpl in *; auto.
      destruct Hth as (? & ? & ? & ? & Hu). split_and!; auto.
      intros t' [(_ & [=] & _)|[_ Hq']]%list_lookup_insert_Some. by apply Hu.
  - (* Set_ *)
    injection Hs1 as <- <- <-. destruct Hme as (Hz & Ha0 & Hl & Hcell & Hu).
    split; simpl; auto.
    + intros t p. unfold ThreadNexus.set; simpl.
      rewrite lookup_insert. case_decide as E.
      * intros [= <-] _. split; [done|]. intros t'.
        rewrite lookup_insert. case_decide; [intros _; congruence|].
        intros Ht'. by destruct (Hcell t').
      * intros Hp Hp0. destruct (Hown _ _ Hp Hp0) as [Hl' Hu'].
        split; [done|]. intros t'. rewrite lookup_insert.
        case_decide; [|by apply Hu'].
        intros [= <-]. by destruct (Hcell t).
    + simpl in Htot. lia.
    + intros t q [(<- & <- & _)|[Hne Hq]]%list_lookup_insert_Some; simpl.
      * by rewrite thread_get_set.
      * specialize (Hth _ _ Hq).
        destruct q as [| | | |[e|r]]; simpl in *;
          rewrite thread_get_set_ne by done; auto.
        destruct Hth as (? & ? & ? & Hcell' & Hu'). split_and!; auto.
        -- intros t'. rewrite lookup_insert. case_decide; [|by apply Hcell'].
           intros [= <-]. apply Hne. symmetry. by apply Hu.
        -- intros t' [(_ & [=] & _)|[_ Hq']]%list_lookup_insert_Some.
           by apply Hu'.
  - (* Reload *)
    injection Hs1 as <- <- <-.
    split; simpl; auto; [simpl in Htot; lia|].
    intros t q [(<- & <- & _)|[Hne Hq]]%list_lookup_insert_Some; [done|].
    specialize (Hth _ _ Hq). destruct q as [| | | |[e|r]]; simpl in *; auto.
    destruct Hth as (? & ? & ? & ? & Hu). split_and!; auto.
    intros t' [(_ & [=] & _)|[_ Hq']]%list_lookup_insert_Some. by apply Hu.
  - discriminate.
Qed.

(** So the invariant holds wherever the race stands. *)
Lemma thread_inv_reachable (N : nat) (h0 : heap)
    (k : config ThreadNexus.t ThreadNexus.pc) :
  heap_ok h0 →
  rtc (pool_step ThreadNexus.step1 may_fail)
    (racing N ThreadNexus.ctor_ ThreadNexus.Get h0) k →
  thread_inv (built h0) k.
Proof.
  intros Hh Hrun.
  eapply (rtc_ind_r (λ k, thread_inv (built h0) k)); [| |exact Hrun].
  - by apply thread_inv_racing.
  - intros k1 k2 _ Hstep Hinv. by eapply thread_inv_step.
Qed.

Lemma thread_calm_reachable (N : nat) (h0 : heap)
    (k : config ThreadNexus.t ThreadNexus.pc) :
  rtc (pool_step ThreadNexus.step1 succeeds)
    (racing N ThreadNexus.ctor_ ThreadNexus.Get h0) k →
  ∀ t p, threads k !! t = Some p → thread_calm p.
Proof.
  intros Hrun.
  eapply (rtc_ind_r (λ k, ∀ t p, threads k !! t = Some p → thread_calm p));
    [| |exact Hrun].
  - simpl. by intros t p [-> _]%lookup_replicate.
  - intros k1 k2 _ Hstep Hcalm.
    destruct Hstep as [t0 c p0 p' s s' h h' ths Ht0 (a & -> & Ha) Hs].
    intros t p; simpl in *.
    intros [(<- & <- & _)|[_ Ht]]%list_lookup_insert_Some;
      [|exact (Hcalm _ _ Ht)].
    destruct p0; simpl in *; repeat case_match; by simplify_eq.
Qed.

(** In a race on a thread nexus every thread constructs an instance of its
    own: once all [N] calls are over, [N] instances have been constructed and
    no two calls have returned the same reference. *)
Lemma thread_race_one_each :
  constructs_one_each ThreadNexus.step1 ThreadNexus.result succeeds
    ThreadNexus.ctor_ ThreadNexus.Get.
Proof.
  intros N h0 k Hh Hrun Hleft.
  assert (thread_inv (built h0) k) as Hinv.
  { eapply thread_inv_reachable; [done|]. eapply rtc_subrel; [|exact Hrun].
    intros k1 k2. apply pool_step_env, succeeds_may_fail. }
  pose proof (thread_calm_reachable _ _ _ Hrun) as Hcalm.
  pose proof (pool_step_length _ _ _ _ Hrun) as Hlen.
  simpl in Hlen. rewrite length_replicate in Hlen.
  assert (∀ t p, threads k !! t = Some p →
            ∃ r, p = ThreadNexus.Left (inr r) ∧
                 ThreadNexus.mSlot (shared k) !! t = Some r ∧ r ≠ 0) as Hret.
  { intros t p Hp. destruct (Hleft _ _ Hp) as [r Hr]. specialize (Hcalm _ _ Hp).
    destruct p as [| | | |[e|r']]; try discriminate; [done|].
    destruct (tinv_thread _ _ Hinv _ _ Hp) as [Hg Hnz].
    exists r'. split_and!; auto. by apply thread_get_nonzero. }
  split_and!.
  - rewrite (tinv_built _ _ Hinv). f_equal. rewrite <- Hlen.
    unfold total. rewrite (sum_list_fmap_same 1); [lia|].
    apply Forall_lookup. intros t p Hp.
    by destruct (Hret _ _ Hp) as (r & -> & _).
  - intros t Ht. rewrite <- Hlen in Ht.
    apply lookup_lt_is_Some in Ht as [p Hp].
    destruct (Hret _ _ Hp) as (r & -> & Hcell & Hnz).
    exists r. split; [by eexists|].
    by destruct (tinv_owns _ _ Hinv _ _ Hcell Hnz).
  - intros t t' r r' (p & Hp & Hr) (p' & Hp' & Hr') Hne ->.
    destruct (Hret _ _ Hp) as (r1 & -> & Hcell & Hnz).
    destruct (Hret _ _ Hp') as (r2 & -> & Hcell' & _).
    simpl in Hr, Hr'. simplify_eq.
    destruct (tinv_owns _ _ Hinv _ _ Hcell Hnz) as [_ Hu].
    apply Hne. symmetry. by apply Hu.
Qed.

Lemma thread_step_nearer (me : nat) (c : ctor) (p : ThreadNexus.pc)
    (n : ThreadNexus.t) (h : heap) :
  ThreadNexus.result p = None →
  ∃ p' n' h',
    ThreadNexus.step1 me c p n h = Some (p', n', h') ∧
    (thread_weight p' < thread_weight p)%nat.
Proof.
  intros Hr. destruct p; simpl in *; try discriminate; repeat case_match;
    eexists _, _, _; (split; [reflexivity|simpl; lia]).
Qed.

Lemma thread_race_can_finish :
  can_finish ThreadNexus.step1 ThreadNexus.result succeeds
    ThreadNexus.ctor_ ThreadNexus.Get.
Proof.
  intros N h0 k Hh Hrun.
  apply (inv_finish ThreadNexus.step1 ThreadNexus.result succeeds
           (λ _, True) thread_weight); [done| |done].
  intros [n h ths] _ (t & p & Ht & Hp); simpl in *.
  destruct (succeeds_exists h) as [c Hc].
  destruct (thread_step_nearer t c p n h Hp) as (p' & n' & h' & Hs & Hlt).
  eexists. split; [by econstructor|]. simpl.
  pose proof (total_insert thread_weight ths t p p' Ht). lia.
Qed.

(** Two threads racing through their first call on one thread nexus. *)
Example thread_race_of_two :
  ∃ k,
    rtc (pool_step ThreadNexus.step1 succeeds)
      (racing 2 ThreadNexus.ctor_ ThreadNexus.Get empty_heap) k ∧
    all_left ThreadNexus.result k ∧
    built (free_store k) = 2%nat ∧
    returned ThreadNexus.result k 0 4096 ∧
    returned ThreadNexus.result k 1 8192.
Proof.
  assert (∀ h a, a ≠ 0 → Z.land a 1 = 0 → live h !! a = None →
            succeeds h (Built a)) as Hok.
  { intros h a ? ? ?. by exists a. }
  eexists. split.
  { unfold racing; simpl.
    eapply rtc_l; [by eapply (pool_step_thread _ _ 0 (Built 4096)); eauto|].
    eapply rtc_l; [by eapply (pool_step_thread _ _ 1 (Built 4096)); eauto|].
    eapply rtc_l; [by eapply (pool_step_thread _ _ 0 (Built 4096)); eauto|].
    eapply rtc_l; [by eapply (pool_step_thread _ _ 1 (Built 8192)); eauto|].
    eapply rtc_l; [by eapply (pool_step_thread _ _ 0 (Built 12288)); eauto|].
    eapply rtc_l; [by eapply (pool_step_thread _ _ 1 (Built 12288)); eauto|].
    eapply rtc_l; [by eapply (pool_step_thread _ _ 0 (Built 12288)); eauto|].
    eapply rtc_l; [by eapply (pool_step_thread _ _ 1 (Built 12288)); eauto|].
    apply rtc_refl. }
  simpl. split_and!.
  - intros [|[|t]] p; simpl; try done; intros [= <-]; by eexists.
  - done.
  - by eexists.
  - by eexists.
Qed.

(** ** A thread running alone makes the call as a whole *)

Lemma thread_solo_is_call (fuel me : nat) (c : ctor) (n : ThreadNexus.t)
    (h : heap) :
  solo ThreadNexus.step1 ThreadNexus.result (4 + fuel) me c ThreadNexus.Get n h
  = ThreadNexus.call me c n h.
Proof.
  unfold ThreadNexus.call.
  change (4 + fuel)%nat with (S (S (S (S fuel)))).
  cbn [solo ThreadNexus.result ThreadNexus.step1].
  destruct (nonzero (ThreadNexus.get n me));
    cbn [solo ThreadNexus.result ThreadNexus.step1]; [done|].
  destruct c as [a|e]; cbn [new_Type solo ThreadNexus.result ThreadNexus.step1];
    by destruct fuel.
Qed.

Lemma process_solo_is_call (strict : bool) (fuel me : nat) (c : ctor)
    (s : Store.t) (h : heap) :
  solo (ProcessNexus.step1 strict) ProcessNexus.result (8 + fuel) me c
    ProcessNexus.Enter s h
  = ProcessNexus.call_on strict c s h.
Proof.
  unfold ProcessNexus.call_on.
  change (8 + fuel)%nat with (S (S (S (S (S (S (S (S fuel)))))))).
  cbn [solo ProcessNexus.result ProcessNexus.step1].
  destruct (negb strict && nonzero (Store.mObject s));
    cbn [solo ProcessNexus.result ProcessNexus.step1]; [done|].
  destruct s as [p [|]];
    cbn [solo ProcessNexus.result ProcessNexus.step1 lock unlock
         Store.mObject Store.mLock]; [done|].
  destruct (p =? 0);
    cbn [solo ProcessNexus.result ProcessNexus.step1 lock unlock
         Store.mObject Store.mLock]; [|by destruct fuel].
  destruct c as [a|e];
    cbn [new_Type solo ProcessNexus.result ProcessNexus.step1 lock unlock
         Store.mObject Store.mLock]; by destruct fuel.
Qed.

Lemma module_solo_polls (fuel me : nat) (c : ctor) (n : ModuleNexus.t)
    (h : heap) :
  slot_of (ModuleNexus.pointer n) ≠ Finished →
  solo ModuleNexus.step1 ModuleNexus.result fuel me c ModuleNexus.Poll n h
  = (Blocks, n, h).
Proof.
  intros Hs. induction fuel as [|fuel IH]; simpl; [done|].
  destruct (slot_of (ModuleNexus.pointer n)); done.
Qed.

Lemma module_solo_is_call (fuel me : nat) (c : ctor) (n : ModuleNexus.t)
    (h : heap) :
  solo ModuleNexus.step1 ModuleNexus.result (6 + fuel) me c ModuleNexus.Latch n h
  = ModuleNexus.call c n h.
Proof.
  unfold ModuleNexus.call.
  destruct (negb (nonzero (ModuleNexus.pointer n))
            || nonzero (Z.land (ModuleNexus.pointer n) 1)) eqn:E.
  - change (6 + fuel)%nat with (S (S (S (3 + fuel)))).
    cbn [solo ModuleNexus.result ModuleNexus.step1]. rewrite E.
    cbn [solo ModuleNexus.result ModuleNexus.step1 ModuleNexus.pointer
         ModuleNexus.sync].
    unfold ModuleNexus.create.
    destruct (slot_of (ModuleNexus.pointer n)) eqn:Hs.
    + apply slot_of_empty in Hs. rewrite Hs. simpl.
      unfold ModuleNexus.make. destruct c as [a|e]; simpl; done.
    + assert (ModuleNexus.pointer n ≠ 0) as Hnz
        by (intros Hz; rewrite Hz in Hs; discriminate).
      apply Z.eqb_neq in Hnz. rewrite Hnz.
      apply module_solo_polls. simpl. congruence.
    + apply unfinished_test in Hs. congruence.
  - change (6 + fuel)%nat with (S (5 + fuel)).
    cbn [solo ModuleNexus.result ModuleNexus.step1]. rewrite E. done.
Qed.

(** ** Two threads racing, step by step *)

(** Both threads find [mObject] NULL; thread 0 gets the mutex and constructs,
    thread 1 waits for the mutex and then finds the instance. *)
Example process_race_of_two :
  ∃ k,
    rtc (pool_step (ProcessNexus.step1 false) succeeds)
      (racing 2 Store.zero ProcessNexus.Enter empty_heap) k ∧
    all_left ProcessNexus.result k ∧
    built (free_store k) = 1%nat ∧
    returned ProcessNexus.result k 0 4096 ∧
    returned ProcessNexus.result k 1 4096.
Proof.
  assert (∀ h a, a ≠ 0 → Z.land a 1 = 0 → live h !! a = None →
            succeeds h (Built a)) as Hok.
  { intros h a ? ? ?. by exists a. }
  eexists. split.
  { unfold racing; simpl.
    eapply rtc_l; [by eapply (pool_step_thread _ _ 0 (Built 4096)); eauto|].
    eapply rtc_l; [by eapply (pool_step_thread _ _ 1 (Built 4096)); eauto|].
    eapply rtc_l; [by eapply (pool_step_thread _ _ 0 (Built 4096)); eauto|].
    eapply rtc_l; [by eapply (pool_step_thread _ _ 0 (Built 4096)); eauto|].
    eapply rtc_l; [by eapply (pool_step_thread _ _ 0 (Built 4096)); eauto|].
    eapply rtc_l; [by eapply (pool_step_thread _ _ 0 (Built 8192)); eauto|].
    eapply rtc_l; [by eapply (pool_step_thread _ _ 0 (Built 8192)); eauto|].
    eapply rtc_l; [by eapply (pool_step_thread _ _ 0 (Built 8192)); eauto|].
    eapply rtc_l; [by eapply (pool_step_thread _ _ 1 (Built 8192)); eauto|].
    eapply rtc_l; [by eapply (pool_step_thread _ _ 1 (Built 8192)); eauto|].
    eapply rtc_l; [by eapply (pool_step_thread _ _ 1 (Built 8192)); eauto|].
    eapply rtc_l; [by eapply (pool_step_thread _ _ 1 (Built 8192)); eauto|].
    apply rtc_refl. }
  simpl. split_and!.
  - intros [|[|t]] p; simpl; try done; intros [= <-]; by eexists.
  - done.
  - by eexists.
  - by eexists.
Qed.

(** While thread 0 holds the mutex, thread 1 cannot get past line 216. *)
Example process_race_blocked :
  ProcessNexus.step1 false 1 (Built 8192) ProcessNexus.Acquire
    (Store.Make 0 true) empty_heap = None.
Proof. reflexivity. Qed.

(** Thread 0 claims the slot; thread 1 loses the claim and polls until the
    instance is published. *)
Example module_race_of_two :
  ∃ k,
    rtc (pool_step ModuleNexus.step1 succeeds)
      (racing 2 ModuleNexus.zero ModuleNexus.Latch empty_heap) k ∧
    all_left ModuleNexus.result k ∧
    built (free_store k) = 1%nat ∧
    returned ModuleNexus.result k 0 4096 ∧
    returned ModuleNexus.result k 1 4096.
Proof.
  assert (∀ h a, a ≠ 0 → Z.land a 1 = 0 → live h !! a = None →
            succeeds h (Built a)) as Hok.
  { intros h a ? ? ?. by exists a. }
  eexists. split.
  { unfold racing; simpl.
    eapply rtc_l; [by eapply (pool_step_thread _ _ 0 (Built 4096)); eauto|].
    eapply rtc_l; [by eapply (pool_step_thread _ _ 1 (Built 4096)); eauto|].
    eapply rtc_l; [by eapply (pool_step_thread _ _ 0 (Built 4096)); eauto|].
    eapply rtc_l; [by eapply (pool_step_thread _ _ 1 (Built 4096)); eauto|].
    eapply rtc_l; [by eapply (pool_step_thread _ _ 0 (Built 4096)); eauto|].
    eapply rtc_l; [by eapply (pool_step_thread _ _ 1 (Built 4096)); eauto|].
    eapply rtc_l; [by eapply (pool_step_thread _ _ 1 (Built 4096)); eauto|].
    eapply rtc_l; [by eapply (pool_step_thread _ _ 0 (Built 4096)); eauto|].
    eapply rtc_l; [by eapply (pool_step_thread _ _ 1 (Built 8192)); eauto|].
    eapply rtc_l; [by eapply (pool_step_thread _ _ 0 (Built 8192)); eauto|].
    eapply rtc_l; [by eapply (pool_step_thread _ _ 1 (Built 8192)); eauto|].
    apply rtc_refl. }
  simpl. split_and!.
  - intros [|[|t]] p; simpl; try done; intros [= <-]; by eexists.
  - done.
  - by eexists.
  - by eexists.
Qed.

(** ** The race for a module nexus without atomic operations *)

Lemma as_store_of_store (s : Store.t) : as_store (of_store s) = s.
Proof. by destruct s. Qed.

Lemma of_store_as_store (n : PlainModuleNexus.t) : of_store (as_store n) = n.
Proof. by destruct n. Qed.

(** Run alone, the steps make the call of globalizer.h:123-134. *)
Lemma plain_solo_is_call (strict : bool) (fuel me : nat) (c : ctor)
    (n : PlainModuleNexus.t) (h : heap) :
  solo (plain_step1 strict) ProcessNexus.result (8 + fuel) me c
    ProcessNexus.Enter n h
  = PlainModuleNexus.call strict c n h.
Proof.
  unfold PlainModuleNexus.call, plain_step1. destruct n as [p l].
  change (8 + fuel)%nat with (S (S (S (S (S (S (S (S fuel)))))))).
  cbn [solo ProcessNexus.result ProcessNexus.step1 as_store of_store
       PlainModuleNexus.mSingleton PlainModuleNexus.mLock
       Store.mObject Store.mLock].
  destruct (negb strict && nonzero p);
    cbn [solo ProcessNexus.result ProcessNexus.step1 as_store of_store
         PlainModuleNexus.mSingleton PlainModuleNexus.mLock
         Store.mObject Store.mLock]; [done|].
  destruct l;
    cbn [solo ProcessNexus.result ProcessNexus.step1 lock unlock
         as_store of_store PlainModuleNexus.mSingleton PlainModuleNexus.mLock
         Store.mObject Store.mLock]; [done|].
  destruct (p =? 0);
    cbn [solo ProcessNexus.result ProcessNexus.step1 lock unlock
         as_store of_store PlainModuleNexus.mSingleton PlainModuleNexus.mLock
         Store.mObject Store.mLock]; [|by destruct fuel].
  destruct c as [a|e];
    cbn [new_Type solo ProcessNexus.result ProcessNexus.step1 lock unlock
         as_store of_store PlainModuleNexus.mSingleton PlainModuleNexus.mLock
         Store.mObject Store.mLock]; by destruct fuel.
Qed.

(** A step on the nexus is a step on the store it is seen as, and back. *)
Lemma plain_step_as_store (strict : bool) (env : heap → ctor → Prop)
    (k k' : config PlainModuleNexus.t ProcessNexus.pc) :
  pool_step (plain_step1 strict) env k k' →
  pool_step (ProcessNexus.step1 strict) env (store_view k) (store_view k').
Proof.
  intros [t c p p' n n' h h' ths Ht Hc Hs]. unfold store_view; simpl.
  unfold plain_step1 in Hs.
  destruct (ProcessNexus.step1 strict t c p (as_store n) h)
    as [[[p1 s1] h1]|] eqn:E; [|discriminate].
  injection Hs as <- <- <-. rewrite as_store_of_store. by econstructor.
Qed.

Lemma plain_run_as_store (strict : bool) (env : heap → ctor → Prop)
    (k k' : config PlainModuleNexus.t ProcessNexus.pc) :
  rtc (pool_step (plain_step1 strict) env) k k' →
  rtc (pool_step (ProcessNexus.step1 strict) env) (store_view k) (store_view k').
Proof.
  induction 1 as [|k1 k2 k3 Hstep _ IH]; [apply rtc_refl|].
  eapply rtc_l; [by apply plain_step_as_store | done].
Qed.

Lemma plain_step_of_store (strict : bool) (env : heap → ctor → Prop)
    (k : config PlainModuleNexus.t ProcessNexus.pc)
    (k2 : config Store.t ProcessNexus.pc) :
  pool_step (ProcessNexus.step1 strict) env (store_view k) k2 →
  ∃ k', pool_step (plain_step1 strict) env k k' ∧ store_view k' = k2.
Proof.
  destruct k as [n h ths]. unfold store_view; simpl.
  inversion 1 as [t c p p' s s' h1 h' ths1 Ht Hc Hs]; subst.
  exists (Config (of_store s') h' (<[t := p']> ths)). split.
  - econstructor; [done..|]. unfold plain_step1. by rewrite Hs.
  - unfold store_view; simpl. by rewrite as_store_of_store.
Qed.

Lemma plain_run_of_store (strict : bool) (env : heap → ctor → Prop)
    (k1 k2 : config Store.t ProcessNexus.pc) :
  rtc (pool_step (ProcessNexus.step1 strict) env) k1 k2 →
  ∀ k, store_view k = k1 →
  ∃ k', rtc (pool_step (plain_step1 strict) env) k k' ∧ store_view k' = k2.
Proof.
  induction 1 as [k1|k1 k2 k3 Hstep _ IH]; intros k Hk.
  - exists k. split; [apply rtc_refl | done].
  - subst k1. destruct (plain_step_of_store _ _ _ _ Hstep) as (k' & Hs & Hv).
    destruct (IH _ Hv) as (k'' & Hrun & Hv'').
    exists k''. split; [by eapply rtc_l | done].
Qed.

Lemma plain_race_constructs_once (strict : bool) :
  constructs_once (plain_step1 strict) ProcessNexus.result succeeds
    PlainModuleNexus.zero ProcessNexus.Enter.
Proof.
  intros N h0 k HN Hh Hrun Hleft.
  apply (process_race_constructs_once strict N h0 (store_view k) HN Hh);
    [|exact Hleft].
  by apply plain_run_as_store in Hrun.
Qed.

Lemma plain_race_at_most_once (strict : bool) :
  at_most_once (plain_step1 strict) ProcessNexus.result may_fail
    PlainModuleNexus.mSingleton PlainModuleNexus.zero ProcessNexus.Enter.
Proof.
  intros N h0 k Hh Hrun.
  apply (process_race_at_most_once strict N h0 (store_view k) Hh).
  by apply plain_run_as_store in Hrun.
Qed.

Lemma plain_nsteps_as_store (strict : bool) (env : heap → ctor → Prop)
    (n : nat) (k k' : config PlainModuleNexus.t ProcessNexus.pc) :
  nsteps (pool_step (plain_step1 strict) env) n k k' →
  nsteps (pool_step (ProcessNexus.step1 strict) env) n
    (store_view k) (store_view k').
Proof.
  induction 1 as [|n k1 k2 k3 Hstep _ IH]; [apply nsteps_O|].
  eapply nsteps_l; [by apply plain_step_as_store | done].
Qed.

Lemma plain_race_bounded (strict : bool) (env : heap → ctor → Prop) :
  ends_within (plain_step1 strict) env 8
    PlainModuleNexus.zero ProcessNexus.Enter.
Proof.
  intros N n h0 k Hrun.
  apply (process_race_bounded strict env N n h0 (store_view k)).
  by apply plain_nsteps_as_store in Hrun.
Qed.

Lemma plain_race_can_finish (strict : bool) (env : heap → ctor → Prop) :
  (∀ h c, env h c → may_fail h c) → (∀ h, ∃ c, env h c) →
  can_finish (plain_step1 strict) ProcessNexus.result env
    PlainModuleNexus.zero ProcessNexus.Enter.
Proof.
  intros Hsub Henv N h0 k Hh Hrun.
  apply plain_run_as_store in Hrun.
  destruct (process_race_can_finish strict env Hsub Henv N h0 _ Hh Hrun)
    as (k2 & Hrun2 & Hleft).
  destruct (plain_run_of_store _ _ _ _ Hrun2 k eq_refl) as (k' & Hrun' & <-).
  by exists k'.
Qed.

(** ** The first call, raced *)

(** C1 as stated fails for thread scope: two threads that race through their
    first call on one thread nexus construct two instances and are given two
    different references. *)
Lemma thread_scope_race_constructs_two :
  (∃ k,
     rtc (pool_step ThreadNexus.step1 succeeds)
       (racing 2 ThreadNexus.ctor_ ThreadNexus.Get empty_heap) k ∧
     all_left ThreadNexus.result k ∧
     built (free_store k) = 2%nat ∧
     returned ThreadNexus.result k 0 4096 ∧
     returned ThreadNexus.result k 1 8192) ∧
  ¬ constructs_once ThreadNexus.step1 ThreadNexus.result succeeds
      ThreadNexus.ctor_ ThreadNexus.Get.
Proof.
  split; [exact thread_race_of_two|].
  intros Honce.
  destruct thread_race_of_two as (k & Hrun & Hleft & Hb & _).
  destruct (Honce 2%nat empty_heap k ltac:(lia) heap_ok_empty Hrun Hleft)
    as [Hb' _].
  rewrite Hb in Hb'. discriminate.
Qed.

(** C1, amended.  Let [N >= 1] threads race through their first call on one
    nexus, in any interleaving of their steps.  On a module nexus (in
    either form) and on a process nexus (with or without [PTHREAD_STRICT]),
    if the constructor does not fail, the race can always be run to its end,
    and at its end exactly one instance has been constructed and all [N]
    calls have returned the same reference; whatever the constructor does,
    never more than one instance is constructed and every call that has
    returned has returned it.  A race on the mutex has at most [8 * N]
    steps.  On a thread nexus the race ends with [N] instances constructed,
    one for each thread, and no two calls return the same reference. *)
Theorem first_access_race_by_scope :
  (constructs_once ModuleNexus.step1 ModuleNexus.result succeeds
     ModuleNexus.zero ModuleNexus.Latch ∧
   can_finish ModuleNexus.step1 ModuleNexus.result succeeds
     ModuleNexus.zero ModuleNexus.Latch ∧
   at_most_once ModuleNexus.step1 ModuleNexus.result may_fail
     ModuleNexus.pointer ModuleNexus.zero ModuleNexus.Latch) ∧
  (∀ strict : bool,
     constructs_once (plain_step1 strict) ProcessNexus.result succeeds
       PlainModuleNexus.zero ProcessNexus.Enter ∧
     can_finish (plain_step1 strict) ProcessNexus.result succeeds
       PlainModuleNexus.zero ProcessNexus.Enter ∧
     can_finish (plain_step1 strict) ProcessNexus.result may_fail
       PlainModuleNexus.zero ProcessNexus.Enter ∧
     ends_within (plain_step1 strict) may_fail 8
       PlainModuleNexus.zero ProcessNexus.Enter ∧
     at_most_once (plain_step1 strict) ProcessNexus.result may_fail
       PlainModuleNexus.mSingleton PlainModuleNexus.zero ProcessNexus.Enter) ∧
  (∀ strict : bool,
     constructs_once (ProcessNexus.step1 strict) ProcessNexus.result succeeds
       Store.zero ProcessNexus.Enter ∧
     can_finish (ProcessNexus.step1 strict) ProcessNexus.result succeeds
       Store.zero ProcessNexus.Enter ∧
     can_finish (ProcessNexus.step1 strict) ProcessNexus.result may_fail
       Store.zero ProcessNexus.Enter ∧
     ends_within (ProcessNexus.step1 strict) may_fail 8
       Store.zero ProcessNexus.Enter ∧
     at_most_once (ProcessNexus.step1 strict) ProcessNexus.result may_fail
       Store.mObject Store.zero ProcessNexus.Enter) ∧
  (can_finish ThreadNexus.step1 ThreadNexus.result succeeds
     ThreadNexus.ctor_ ThreadNexus.Get ∧
   constructs_one_each ThreadNexus.step1 ThreadNexus.result succeeds
     ThreadNexus.ctor_ ThreadNexus.Get).
Proof.
  split_and!.
  - exact module_race_constructs_once.
  - exact module_race_can_finish.
  - exact module_race_at_most_once.
  - intros strict. split_and!.
    + apply plain_race_constructs_once.
    + apply plain_race_can_finish; [apply succeeds_may_fail|].
      apply succeeds_exists.
    + apply plain_race_can_finish; [done|].
      intros h. destruct (succeeds_exists h) as [c Hc].
      exists c. by apply succeeds_may_fail.
    + apply plain_race_bounded.
    + apply plain_race_at_most_once.
  - intros strict. split_and!.
    + apply process_race_constructs_once.
    + apply process_race_can_finish; [apply succeeds_may_fail|].
      apply succeeds_exists.
    + apply process_race_can_finish; [done|].
      intros h. destruct (succeeds_exists h) as [c Hc].
      exists c. by apply succeeds_may_fail.
    + apply process_race_bounded.
    + apply process_race_at_most_once.
  - exact thread_race_can_finish.
  - exact thread_race_one_each.
Qed.

Lemma first_access_race_by_scope_witness :
  ∃ k,
    rtc (pool_step (ProcessNexus.step1 false) succeeds)
      (racing 2 Store.zero ProcessNexus.Enter empty_heap) k ∧
    all_left ProcessNexus.result k ∧
    built (free_store k) = 1%nat ∧
    ∃ r, ∀ t, (t < 2)%nat → returned ProcessNexus.result k t r.
Proof.
  destruct process_race_of_two as (k & Hrun & Hleft & _).
  exists k. split; [exact Hrun|]. split; [exact Hleft|].
  apply (proj1 (proj1 (proj2 (proj2 first_access_race_by_scope)) false)
           2%nat empty_heap k).
  - lia.
  - exact heap_ok_empty.
  - exact Hrun.
  - exact Hleft.
Defined.

(** * Further properties of the header *)

(** ** Teardown of a clean module nexus *)

(** What [delete] leaves of the free store, for a pointer that is null or
    points at a living instance. *)
Lemma delete_owned (p : Z) (h : heap) :
  heap_ok h → (p ≠ 0 → is_Some (live h !! p)) →
  ∃ h', delete_ p h = Done h' ∧ heap_ok h' ∧
        built h' = built h ∧
        live h' !! p = None ∧
        (∀ a, a ≠ p → live h' !! a = live h !! a) ∧
        match live h !! p with
        | Some o => destroyed h' = o :: destroyed h
        | None => h' = h
        end.
Proof.
  intros Hh Hp. destruct (decide (p = 0)) as [->|Hnz].
  - exists h. assert (live h !! 0 = None) as Hz.
    { destruct (live h !! 0) as [o|] eqn:E; [|done].
      by destruct (Hh _ _ E) as (? & _). }
    rewrite Hz. by split_and!.
  - destruct (Hp Hnz) as [o Ho]. rewrite Ho.
    eexists. split; [by apply delete_live|]. simpl. split_and!; auto.
    + by apply heap_ok_delete.
    + apply lookup_delete_eq.
    + intros a Ha. by apply lookup_delete_ne.
Qed.

(** X1.  The destructor of a clean module nexus (with atomic operations) whose
    slot is empty or finished is defined, destroys the instance the slot
    points to and no other, constructs nothing, and leaves the free store as
    [reset()] would. *)
Theorem clean_destructor_destroys_exactly (n : ModuleNexus.t) (h : heap) :
  heap_ok h → ModuleNexus.owns n h →
  slot_of (ModuleNexus.pointer n) ≠ InProgress →
  ∃ h', CleanModuleNexus.destructor n h = Done h' ∧
        heap_ok h' ∧ built h' = built h ∧
        live h' !! ModuleNexus.pointer n = None ∧
        (∀ a, a ≠ ModuleNexus.pointer n → live h' !! a = live h !! a) ∧
        match live h !! ModuleNexus.pointer n with
        | Some o => destroyed h' = o :: destroyed h
        | None => h' = h
        end ∧
        ∃ n', ModuleNexus.reset n h = Done (n', h') ∧
              slot_of (ModuleNexus.pointer n') = Empty.
Proof.
  intros Hh Hown Hs.
  destruct (slot_of (ModuleNexus.pointer n)) eqn:Hslot; [|done|].
  - apply slot_of_empty in Hslot as Hz.
    destruct (delete_owned (ModuleNexus.pointer n) h Hh) as (h' & Hd & R);
      [by rewrite Hz|].
    exists h'. destruct R as (? & ? & ? & ? & Hm). split_and!; auto.
    exists n. rewrite module_reset_unfinished by congruence.
    rewrite Hz in Hd. rewrite delete_null in Hd. injection Hd as <-.
    by rewrite Hslot.
  - destruct (Hown Hslot) as [o Ho].
    destruct (delete_owned (ModuleNexus.pointer n) h Hh) as (h' & Hd & R);
      [by eexists|].
    exists h'. destruct R as (? & ? & ? & ? & Hm). split_and!; auto.
    exists (ModuleNexus.Make 0 (ModuleNexus.sync n)).
    rewrite (module_reset_finished _ _ _ Hh Hslot Ho).
    unfold CleanModuleNexus.destructor in Hd.
    rewrite (delete_live _ _ _ Hh Ho) in Hd. injection Hd as <-. done.
Qed.

Lemma clean_destructor_destroys_exactly_witness :
  CleanModuleNexus.destructor (ModuleNexus.Make 4096 1)
    (Heap {[4096 := 0%nat]} 1 [])
  = Done (Heap ∅ 1 [0%nat]).
Proof.
  assert (heap_ok (Heap {[4096 := 0%nat]} 1 [])) as Hh.
  { intros a o; simpl. intros [<- <-]%lookup_singleton_Some.
    split; [discriminate | split; [reflexivity | lia]]. }
  destruct (clean_destructor_destroys_exactly (ModuleNexus.Make 4096 1)
              (Heap {[4096 := 0%nat]} 1 []) Hh)
    as (h' & Hd & _).
  - intros _. by exists 0%nat.
  - discriminate.
  - reflexivity.
Defined.

(** X2.  The destructor of a clean module nexus without atomic operations is
    defined for every nexus that owns its instance: it destroys that instance
    if there is one and nothing if [mSingleton] is NULL, and leaves the free
    store as [reset()] would. *)
Theorem plain_destructor_destroys_exactly (n : PlainModuleNexus.t) (h : heap) :
  heap_ok h → plain_owns n h →
  ∃ h', PlainModuleNexus.destructor n h = Done h' ∧
        heap_ok h' ∧ built h' = built h ∧
        live h' !! PlainModuleNexus.mSingleton n = None ∧
        (∀ a, a ≠ PlainModuleNexus.mSingleton n →
              live h' !! a = live h !! a) ∧
        match live h !! PlainModuleNexus.mSingleton n with
        | Some o => destroyed h' = o :: destroyed h
        | None => h' = h
        end ∧
        PlainModuleNexus.reset n h
        = Done (PlainModuleNexus.Make 0 (PlainModuleNexus.mLock n), h').
Proof.
  intros Hh [_ Hown].
  destruct (delete_owned (PlainModuleNexus.mSingleton n) h Hh Hown)
    as (h' & Hd & R).
  exists h'. destruct R as (? & ? & ? & ? & Hm). split_and!; auto.
  unfold PlainModuleNexus.reset. by rewrite Hd.
Qed.

Lemma plain_destructor_destroys_exactly_witness :
  PlainModuleNexus.destructor (PlainModuleNexus.Make 0 false) empty_heap
  = Done empty_heap.
Proof.
  destruct (plain_destructor_destroys_exactly (PlainModuleNexus.Make 0 false)
              empty_heap heap_ok_empty) as (h' & Hd & _).
  - split; [reflexivity | intros H; by destruct H].
  - reflexivity.
Defined.

(** ** Reset again, and teardown after reset *)

(** X3.  [reset()] is defined on every module nexus that owns its instance;
    a second [reset()] changes nothing; and a teardown after [reset()]
    destroys nothing: no instance is destroyed twice.  (With atomic
    operations the teardown part needs a slot that is not in progress.) *)
Theorem reset_is_idempotent_and_final :
  (∀ (n : ModuleNexus.t) (h : heap),
     heap_ok h → ModuleNexus.owns n h →
     ∃ n1 h1,
       ModuleNexus.reset n h = Done (n1, h1) ∧
       ModuleNexus.reset n1 h1 = Done (n1, h1) ∧
       (slot_of (ModuleNexus.pointer n) ≠ InProgress →
        CleanModuleNexus.destructor n1 h1 = Done h1)) ∧
  (∀ (n : PlainModuleNexus.t) (h : heap),
     heap_ok h → plain_owns n h →
     ∃ n1 h1,
       PlainModuleNexus.reset n h = Done (n1, h1) ∧
       PlainModuleNexus.reset n1 h1 = Done (n1, h1) ∧
       PlainModuleNexus.destructor n1 h1 = Done h1).
Proof.
  split.
  - intros n h Hh Hown. destruct (slot_of (ModuleNexus.pointer n)) eqn:Hs.
    + exists n, h. rewrite module_reset_unfinished by congruence.
      split_and!; auto. intros _. by apply clean_destructor_empty.
    + exists n, h. rewrite module_reset_unfinished by congruence.
      by split_and!.
    + destruct (Hown Hs) as [o Ho].
      eexists _, _. split; [by apply module_reset_finished|].
      split; [reflexivity|]. intros _. reflexivity.
  - intros n h Hh Hown.
    destruct (delete_owned (PlainModuleNexus.mSingleton n) h Hh (proj2 Hown))
      as (h' & Hd & _).
    exists (PlainModuleNexus.Make 0 (PlainModuleNexus.mLock n)), h'.
    split; [unfold PlainModuleNexus.reset; by rewrite Hd|].
    split; reflexivity.
Qed.

Lemma reset_is_idempotent_and_final_witness :
  ∃ n1 h1,
    ModuleNexus.reset (ModuleNexus.Make 4096 1) (Heap {[4096 := 0%nat]} 1 [])
      = Done (n1, h1) ∧
    ModuleNexus.reset n1 h1 = Done (n1, h1) ∧
    CleanModuleNexus.destructor n1 h1 = Done h1.
Proof.
  assert (heap_ok (Heap {[4096 := 0%nat]} 1 [])) as Hh.
  { intros a o; simpl. intros [<- <-]%lookup_singleton_Some.
    split; [discriminate | split; [reflexivity | lia]]. }
  destruct (proj1 reset_is_idempotent_and_final (ModuleNexus.Make 4096 1)
              (Heap {[4096 := 0%nat]} 1 []) Hh)
    as (n1 & h1 & H1 & H2 & H3).
  - intros _. by exists 0%nat.
  - exists n1, h1. split; [exact H1|]. split; [exact H2|].
    apply H3. discriminate.
Defined.

(** ** The calls that take the mutex *)

(** X4.  When the call of a process nexus or of a module nexus without atomic
    operations gets nowhere: exactly when the mutex is held and the call has
    to take it, that is when [PTHREAD_STRICT] is defined or there is no
    instance yet.  Without [PTHREAD_STRICT] a call that finds an instance
    returns it although the mutex is held.  A call that gets nowhere has
    changed nothing. *)
Theorem lock_guarded_call_blocks_iff
    (strict : bool) (c : ctor) (s : Store.t) (n : PlainModuleNexus.t)
    (h : heap) :
  ((ProcessNexus.call_on strict c s h).1.1 = Blocks ↔
   Store.mLock s = true ∧ (strict = true ∨ Store.mObject s = 0)) ∧
  ((ProcessNexus.call_on strict c s h).1.1 = Blocks →
   ProcessNexus.call_on strict c s h = (Blocks, s, h)) ∧
  ((PlainModuleNexus.call strict c n h).1.1 = Blocks ↔
   PlainModuleNexus.mLock n = true ∧
   (strict = true ∨ PlainModuleNexus.mSingleton n = 0)) ∧
  ((PlainModuleNexus.call strict c n h).1.1 = Blocks →
   PlainModuleNexus.call strict c n h = (Blocks, n, h)) ∧
  (strict = false → Store.mObject s ≠ 0 →
   ProcessNexus.call_on strict c s h = (Returns (Store.mObject s), s, h)) ∧
  (strict = false → PlainModuleNexus.mSingleton n ≠ 0 →
   PlainModuleNexus.call strict c n h
   = (Returns (PlainModuleNexus.mSingleton n), n, h)).
Proof.
  assert (∀ s : Store.t,
            ((ProcessNexus.call_on strict c s h).1.1 = Blocks ↔
             Store.mLock s = true ∧ (strict = true ∨ Store.mObject s = 0)) ∧
            ((ProcessNexus.call_on strict c s h).1.1 = Blocks →
             ProcessNexus.call_on strict c s h = (Blocks, s, h)) ∧
            (strict = false → Store.mObject s ≠ 0 →
             ProcessNexus.call_on strict c s h
             = (Returns (Store.mObject s), s, h))) as Hstore.
  { intros [p l]. unfold ProcessNexus.call_on, nonzero; simpl.
    destruct strict, l, (Z.eqb_spec p 0) as [->|Hp], c as [a|e]; simpl;
      split_and!; try done; try (intros; congruence);
      try (split; [discriminate | intros [? [?|?]]; congruence]);
      try (split; [auto | done]). }
  assert (∀ n : PlainModuleNexus.t,
            ((PlainModuleNexus.call strict c n h).1.1 = Blocks ↔
             PlainModuleNexus.mLock n = true ∧
             (strict = true ∨ PlainModuleNexus.mSingleton n = 0)) ∧
            ((PlainModuleNexus.call strict c n h).1.1 = Blocks →
             PlainModuleNexus.call strict c n h = (Blocks, n, h)) ∧
            (strict = false → PlainModuleNexus.mSingleton n ≠ 0 →
             PlainModuleNexus.call strict c n h
             = (Returns (PlainModuleNexus.mSingleton n), n, h))) as Hnexus.
  { intros [p l]. unfold PlainModuleNexus.call, nonzero; simpl.
    destruct strict, l, (Z.eqb_spec p 0) as [->|Hp], c as [a|e]; simpl;
      split_and!; try done; try (intros; congruence);
      try (split; [discriminate | intros [? [?|?]]; congruence]);
      try (split; [auto | done]). }
  destruct (Hstore s) as (H1 & H2 & H3).
  destruct (Hnexus n) as (H4 & H5 & H6).
  by split_and!.
Qed.

Lemma lock_guarded_call_blocks_iff_witness :
  ProcessNexus.call_on false (Built 8192) (Store.Make 4096 true) empty_heap
  = (Returns 4096, Store.Make 4096 true, empty_heap) ∧
  (ProcessNexus.call_on true (Built 8192) (Store.Make 4096 true) empty_heap).1.1
  = Blocks.
Proof.
  destruct (lock_guarded_call_blocks_iff false (Built 8192)
              (Store.Make 4096 true) PlainModuleNexus.zero empty_heap)
    as (_ & _ & _ & _ & Hfast & _).
  destruct (lock_guarded_call_blocks_iff true (Built 8192)
              (Store.Make 4096 true) PlainModuleNexus.zero empty_heap)
    as (Hblocks & _).
  split.
  - apply Hfast; [reflexivity | discriminate].
  - apply Hblocks. split; [reflexivity | left; reflexivity].
Defined.

(** X5.  A call that starts with the mutex free does not wait and ends with
    the mutex free, whether it returns or leaves by an exception; the slot
    then holds what it held before, or the instance just constructed and
    returned. *)
Theorem lock_guarded_call_releases
    (strict : bool) (c : ctor) (s s' : Store.t) (h h' : heap) (r : outcome Z) :
  Store.mLock s = false →
  ProcessNexus.call_on strict c s h = (r, s', h') →
  r ≠ Blocks ∧ Store.mLock s' = false ∧
  (Store.mObject s' = Store.mObject s ∨
   (Store.mObject s = 0 ∧ r = Returns (Store.mObject s'))) ∧
  PlainModuleNexus.call strict c (of_store s) h = (r, of_store s', h').
Proof.
  intros Hl Hcall. split_and!.
  - revert Hcall. rewrite call_on_unlocked by done.
    destruct (nonzero (Store.mObject s)); [by intros [= <- <- <-]|].
    destruct c; by intros [= <- <- <-].
  - revert Hcall. rewrite call_on_unlocked by done.
    destruct (nonzero (Store.mObject s)); [by intros [= <- <- <-]|].
    destruct c; by intros [= <- <- <-].
  - revert Hcall. rewrite call_on_unlocked by done.
    destruct (nonzero (Store.mObject s)) eqn:Hp; [intros [= <- <- <-]; auto|].
    apply nonzero_false in Hp.
    destruct c; intros [= <- <- <-]; simpl; auto.
  - rewrite plain_call_as_store, as_store_of_store. by rewrite Hcall.
Qed.

Lemma lock_guarded_call_releases_witness :
  Throws (A := Z) BadAlloc ≠ Blocks ∧ Store.mLock Store.zero = false.
Proof.
  destruct (lock_guarded_call_releases false (Raises BadAlloc)
              Store.zero Store.zero empty_heap empty_heap (Throws BadAlloc)
              eq_refl eq_refl) as (H1 & H2 & _).
  split; [exact H1 | exact H2].
Defined.

(** X6.  The nexus throws nothing of its own: a call leaves by an exception
    only if the slot was empty and the constructor threw, with that very
    exception, and then nothing has been constructed or stored.  So a call
    on a nexus that has its instance cannot fail. *)
Theorem call_throws_only_the_constructors :
  (∀ (strict : bool) (c : ctor) (s s' : Store.t) (h h' : heap) (e : exn),
     ProcessNexus.call_on strict c s h = (Throws e, s', h') →
     c = Raises e ∧ Store.mObject s = 0 ∧ Store.mLock s = false ∧
     s' = s ∧ h' = h) ∧
  (∀ (strict : bool) (c : ctor) (n n' : PlainModuleNexus.t) (h h' : heap)
     (e : exn),
     PlainModuleNexus.call strict c n h = (Throws e, n', h') →
     c = Raises e ∧ PlainModuleNexus.mSingleton n = 0 ∧
     PlainModuleNexus.mLock n = false ∧ n' = n ∧ h' = h) ∧
  (∀ (me : nat) (c : ctor) (n n' : ThreadNexus.t) (h h' : heap) (e : exn),
     ThreadNexus.call me c n h = (Throws e, n', h') →
     c = Raises e ∧ ThreadNexus.get n me = 0 ∧ n' = n ∧ h' = h).
Proof.
  split_and!.
  - intros strict c [p l] s' h h' e. unfold ProcessNexus.call_on, nonzero; simpl.
    destruct (negb strict && negb (p =? 0)); [discriminate|].
    destruct l; simpl; [discriminate|].
    destruct (Z.eqb_spec p 0) as [->|Hp]; [|discriminate].
    destruct c as [a|e']; simpl; [discriminate|]. by intros [= <- <- <-].
  - intros strict c [p l] n' h h' e.
    unfold PlainModuleNexus.call, nonzero; simpl.
    destruct (negb strict && negb (p =? 0)); [discriminate|].
    destruct l; simpl; [discriminate|].
    destruct (Z.eqb_spec p 0) as [->|Hp]; [|discriminate].
    destruct c as [a|e']; simpl; [discriminate|]. by intros [= <- <- <-].
  - intros me c n n' h h' e. unfold ThreadNexus.call.
    destruct (nonzero (ThreadNexus.get n me)) eqn:Hp; [discriminate|].
    apply nonzero_false in Hp.
    destruct c as [a|e']; simpl; [discriminate|]. by intros [= <- <- <-].
Qed.

Lemma call_throws_only_the_constructors_witness :
  Raises BadAlloc = Raises BadAlloc ∧ ThreadNexus.get ThreadNexus.ctor_ 3 = 0.
Proof.
  destruct (proj2 (proj2 call_throws_only_the_constructors) 3%nat
              (Raises BadAlloc) ThreadNexus.ctor_ ThreadNexus.ctor_
              empty_heap empty_heap BadAlloc eq_refl) as (H1 & H2 & _).
  split; [exact H1 | exact H2].
Defined.

(** X7.  Once a call on a process nexus, or on a module nexus without atomic
    operations, has returned, every later call returns the same reference
    and changes nothing, whatever the constructor would do. *)
Theorem lock_guarded_call_idempotent :
  (∀ (strict : bool) (c c' : ctor) (s s' : Store.t) (h h' : heap) (r : Z),
     ctor_ok h c → Store.mLock s = false →
     ProcessNexus.call_on strict c s h = (Returns r, s', h') →
     r ≠ 0 ∧ Store.mObject s' = r ∧
     ProcessNexus.call_on strict c' s' h' = (Returns r, s', h')) ∧
  (∀ (strict : bool) (c c' : ctor) (n n' : PlainModuleNexus.t) (h h' : heap)
     (r : Z),
     ctor_ok h c → PlainModuleNexus.mLock n = false →
     PlainModuleNexus.call strict c n h = (Returns r, n', h') →
     r ≠ 0 ∧ PlainModuleNexus.mSingleton n' = r ∧
     PlainModuleNexus.call strict c' n' h' = (Returns r, n', h')).
Proof.
  split.
  - intros strict c c' s s' h h' r Hc Hl. rewrite call_on_unlocked by done.
    destruct (nonzero (Store.mObject s)) eqn:Hp.
    + intros [= <- <- <-]. rewrite call_on_unlocked, Hp by done.
      by apply nonzero_true in Hp.
    + destruct c as [a|e]; [|discriminate]. intros [= <- <- <-].
      destruct Hc as (Ha & _). rewrite call_on_unlocked by done. simpl.
      apply nonzero_true in Ha as Ha'. by rewrite Ha'.
  - intros strict c c' n n' h h' r Hc Hl. rewrite plain_call_unlocked by done.
    destruct (nonzero (PlainModuleNexus.mSingleton n)) eqn:Hp.
    + intros [= <- <- <-]. rewrite plain_call_unlocked, Hp by done.
      by apply nonzero_true in Hp.
    + destruct c as [a|e]; [|discriminate]. intros [= <- <- <-].
      destruct Hc as (Ha & _). rewrite plain_call_unlocked by done. simpl.
      apply nonzero_true in Ha as Ha'. by rewrite Ha'.
Qed.

Lemma lock_guarded_call_idempotent_witness :
  ProcessNexus.call_on true (Raises BadAlloc) (Store.Make 4096 false)
    (Heap {[4096 := 0%nat]} 1 [])
  = (Returns 4096, Store.Make 4096 false, Heap {[4096 := 0%nat]} 1 []).
Proof.
  apply (proj1 lock_guarded_call_idempotent true (Built 4096) (Raises BadAlloc)
           Store.zero (Store.Make 4096 false) empty_heap
           (Heap {[4096 := 0%nat]} 1 []) 4096).
  - split; [discriminate | split; reflexivity].
  - reflexivity.
  - reflexivity.
Defined.

(** ** What a call leaves alone *)

(** X8.  A call on a thread nexus by one thread leaves the cell of every other
    thread as it was, destroys nothing, keeps every living instance where it
    is, and constructs at most one instance - none if the thread has its
    instance already. *)
Theorem thread_call_leaves_others_alone
    (me : nat) (c : ctor) (n n' : ThreadNexus.t) (h h' : heap)
    (r : outcome Z) :
  ctor_ok h c →
  ThreadNexus.call me c n h = (r, n', h') →
  (∀ t, t ≠ me → ThreadNexus.get n' t = ThreadNexus.get n t) ∧
  destroyed h' = destroyed h ∧
  (∀ a o, live h !! a = Some o → live h' !! a = Some o) ∧
  (built h ≤ built h' ≤ S (built h))%nat ∧
  (ThreadNexus.get n me ≠ 0 →
   r = Returns (ThreadNexus.get n me) ∧ n' = n ∧ h' = h) ∧
  r ≠ Blocks.
Proof.
  intros Hc. destruct (decide (ThreadNexus.get n me = 0)) as [Hp|Hp].
  - rewrite thread_call_first by done.
    destruct c as [a|e]; intros [= <- <- <-]; simpl.
    + destruct Hc as (_ & _ & Hfresh). split_and!; auto; try done.
      * intros t Ht. by apply thread_get_set_ne.
      * intros b o Hb. rewrite lookup_insert_ne; [done|]. congruence.
    + split_and!; auto; try done.
  - rewrite thread_call_cached by done. intros [= <- <- <-].
    split_and!; auto; try done.
Qed.

Lemma thread_call_leaves_others_alone_witness :
  ThreadNexus.get (ThreadNexus.set (ThreadNexus.set ThreadNexus.ctor_ 0 4096)
                     1 8192) 0
  = 4096.
Proof.
  destruct (thread_call_leaves_others_alone 1 (Built 8192)
              (ThreadNexus.set ThreadNexus.ctor_ 0 4096)
              (ThreadNexus.set (ThreadNexus.set ThreadNexus.ctor_ 0 4096) 1 8192)
              (Heap {[4096 := 0%nat]} 1 [])
              (Heap (<[8192 := 1%nat]> {[4096 := 0%nat]}) 2 [])
              (Returns 8192)) as (Hother & _).
  - split; [discriminate | split; reflexivity].
  - reflexivity.
  - rewrite Hother by discriminate. reflexivity.
Defined.

(** X9.  A call through a process nexus object keeps the stores of the
    process in order, however it ends: it does not wait, every mutex is free
    again, every store's instance lives and no two stores share one; it
    touches no store but the one the object points to, nor the registry, nor
    the object. *)
Theorem process_call_keeps_stores
    (strict : bool) (c : ctor) (n : ProcessNexus.t)
    (p : ProcessNexus.process) (h : heap) (s : Store.t) :
  heap_ok h → process_ok p h → ctor_ok h c →
  ProcessNexus.stores p !! ProcessNexus.mStore n = Some s →
  ∃ r p' h',
    ProcessNexus.call strict c n p h = Done (r, n, p', h') ∧
    r ≠ Blocks ∧
    heap_ok h' ∧ process_ok p' h' ∧
    ProcessNexus.registry p' = ProcessNexus.registry p ∧
    (∀ j, j ≠ ProcessNexus.mStore n →
          ProcessNexus.stores p' !! j = ProcessNexus.stores p !! j) ∧
    (∀ a o, live h !! a = Some o → live h' !! a = Some o) ∧
    destroyed h' = destroyed h.
Proof.
  intros Hh Hok Hc Hs. rewrite (process_call_spec _ _ _ _ _ _ Hok Hs).
  destruct (nonzero (Store.mObject s)) eqn:Hp.
  - eexists _, _, _. split; [reflexivity|]. by split_and!.
  - apply nonzero_false in Hp. destruct c as [a|e].
    + eexists _, _, _. split; [reflexivity|]. simpl.
      pose proof Hc as (_ & _ & Hfresh). split_and!; auto; try done.
      * by apply heap_ok_new.
      * by eapply process_ok_publish.
      * intros j Hj. by apply list_lookup_insert_ne.
      * intros b o Hb. rewrite lookup_insert_ne; [done|]. congruence.
    + eexists _, _, _. split; [reflexivity|]. by split_and!.
Qed.

Lemma process_call_keeps_stores_witness :
  ∃ r p' h',
    ProcessNexus.call false (Raises BadAlloc) (ProcessNexus.Make 0 7)
      (ProcessNexus.Process [Store.zero] {["db-cache" := 0%nat]}) empty_heap
    = Done (r, ProcessNexus.Make 0 7, p', h') ∧ r ≠ Blocks.
Proof.
  assert (process_ok (ProcessNexus.Process [Store.zero] {["db-cache" := 0%nat]})
            empty_heap) as Hok.
  { destruct (process_base_resolves "db-cache" ProcessNexus.no_stores
                (ProcessNexus.Process [Store.zero] {["db-cache" := 0%nat]})
                0 empty_heap (process_ok_no_stores _) eq_refl) as (Hok & _).
    exact Hok. }
  destruct (process_call_keeps_stores false (Raises BadAlloc)
              (ProcessNexus.Make 0 7)
              (ProcessNexus.Process [Store.zero] {["db-cache" := 0%nat]})
              empty_heap Store.zero heap_ok_empty Hok I eq_refl)
    as (r & p' & h' & Hcall & Hr & _).
  by exists r, p', h'.
Defined.

(** ** When exists() says no *)

(** X17.  A negative answer of [exists()] can be relied on: the slot is then
    empty, [reset()] changes nothing, the destructor of a clean nexus
    destroys nothing, and the next call goes to [create]. *)
Theorem module_exists_false_is_empty (n : ModuleNexus.t) (h : heap) :
  ModuleNexus.exists_ n = false →
  slot_of (ModuleNexus.pointer n) = Empty ∧
  ModuleNexus.reset n h = Done (n, h) ∧
  CleanModuleNexus.destructor n h = Done h ∧
  ∀ c, ModuleNexus.call c n h = ModuleNexus.create c n h.
Proof.
  intros He. unfold ModuleNexus.exists_ in He. apply nonzero_false in He.
  assert (slot_of (ModuleNexus.pointer n) = Empty) as Hs
    by (by apply slot_of_empty).
  split_and!; auto.
  - apply module_reset_unfinished. congruence.
  - by apply clean_destructor_empty.
  - intros c. apply module_call_unfinished. congruence.
Qed.

Lemma module_exists_false_is_empty_witness :
  ModuleNexus.reset ModuleNexus.zero empty_heap
  = Done (ModuleNexus.zero, empty_heap).
Proof.
  apply (module_exists_false_is_empty ModuleNexus.zero empty_heap eq_refl).
Defined.

(** ** More on the race for the mutex *)

Lemma process_published_step (strict : bool) (b0 : nat)
    (k k' : config Store.t ProcessNexus.pc) :
  process_inv b0 k →
  pool_step (ProcessNexus.step1 strict) may_fail k k' →
  Store.mObject (shared k) ≠ 0 →
  Store.mObject (shared k') = Store.mObject (shared k).
Proof.
  intros Hinv Hstep.
  destruct Hstep as [t0 c p p' s s' h h' ths Ht0 Hc Hs1]. simpl. intros Hnz.
  pose proof (pinv_thread _ _ Hinv _ _ Ht0) as Hme. simpl in Hme.
  destruct p; simpl in Hs1; repeat case_match; simplify_eq; simpl; try done.
  by destruct Hme.
Qed.

(** X10.  Publication is final: once [mObject] of the store (or [mSingleton]
    of the module nexus without atomic operations) is set in a race, no
    further step of any thread changes it, and it keeps pointing at the one
    instance constructed. *)
Theorem publication_is_final (strict : bool) (N : nat) (h0 : heap) :
  heap_ok h0 →
  (∀ k k',
     rtc (pool_step (ProcessNexus.step1 strict) may_fail)
       (racing N Store.zero ProcessNexus.Enter h0) k →
     rtc (pool_step (ProcessNexus.step1 strict) may_fail) k k' →
     Store.mObject (shared k) ≠ 0 →
     Store.mObject (shared k') = Store.mObject (shared k) ∧
     live (free_store k') !! Store.mObject (shared k) = Some (built h0)) ∧
  (∀ k k',
     rtc (pool_step (plain_step1 strict) may_fail)
       (racing N PlainModuleNexus.zero ProcessNexus.Enter h0) k →
     rtc (pool_step (plain_step1 strict) may_fail) k k' →
     PlainModuleNexus.mSingleton (shared k) ≠ 0 →
     PlainModuleNexus.mSingleton (shared k')
     = PlainModuleNexus.mSingleton (shared k) ∧
     live (free_store k') !! PlainModuleNexus.mSingleton (shared k)
     = Some (built h0)).
Proof.
  intros Hh.
  assert (∀ k k',
     rtc (pool_step (ProcessNexus.step1 strict) may_fail)
       (racing N Store.zero ProcessNexus.Enter h0) k →
     rtc (pool_step (ProcessNexus.step1 strict) may_fail) k k' →
     Store.mObject (shared k) ≠ 0 →
     Store.mObject (shared k') = Store.mObject (shared k) ∧
     live (free_store k') !! Store.mObject (shared k) = Some (built h0))
    as Hstore.
  { intros k k' Hrun Hrun' Hnz.
    assert (process_inv (built h0) k' ∧
            Store.mObject (shared k') = Store.mObject (shared k)) as [Hinv' E].
    { eapply (rtc_ind_r (λ k', process_inv (built h0) k' ∧
                Store.mObject (shared k') = Store.mObject (shared k)));
        [| |exact Hrun'].
      - split; [by eapply process_inv_reachable | done].
      - intros k1 k2 _ Hstep [Hinv1 E1]. split.
        + by eapply process_inv_step.
        + rewrite <- E1. eapply process_published_step; eauto. congruence. }
    split; [done|]. rewrite <- E.
    apply (pinv_some _ _ Hinv'). congruence. }
  split; [exact Hstore|].
  intros k k' Hrun Hrun' Hnz.
  apply plain_run_as_store in Hrun, Hrun'.
  destruct (Hstore _ _ Hrun Hrun') as [E Hl].
  - unfold store_view; simpl. by destruct (shared k).
  - unfold store_view in *; simpl in *.
    destruct (shared k), (shared k'); simpl in *. by split.
Qed.

Lemma publication_is_final_witness :
  let k := Config (Store.Make 4096 true) (Heap {[4096 := 0%nat]} 1 [])
             [ProcessNexus.Load] in
  let k' := Config (Store.Make 4096 true) (Heap {[4096 := 0%nat]} 1 [])
              [ProcessNexus.Release (inr 4096)] in
  Store.mObject (shared k') = Store.mObject (shared k) ∧
  live (free_store k') !! Store.mObject (shared k) = Some 0%nat.
Proof.
  assert (∀ h a, a ≠ 0 → Z.land a 1 = 0 → live h !! a = None →
            may_fail h (Built a)) as Hok.
  { intros h a ? ? ?. by split_and!. }
  apply (proj1 (publication_is_final false 1 empty_heap heap_ok_empty)).
  - unfold racing; simpl.
    eapply rtc_l; [by eapply (pool_step_thread _ _ 0 (Built 4096)); eauto|].
    eapply rtc_l; [by eapply (pool_step_thread _ _ 0 (Built 4096)); eauto|].
    eapply rtc_l; [by eapply (pool_step_thread _ _ 0 (Built 4096)); eauto|].
    eapply rtc_l; [by eapply (pool_step_thread _ _ 0 (Built 4096)); eauto|].
    eapply rtc_l; [by eapply (pool_step_thread _ _ 0 (Built 8192)); eauto|].
    apply rtc_refl.
  - eapply rtc_l; [by eapply (pool_step_thread _ _ 0 (Built 8192)); eauto|].
    apply rtc_refl.
  - discriminate.
Defined.

(** X11.  In a race for a process nexus, whatever the constructors do: no two
    threads are between taking the mutex and releasing it; the mutex is held
    exactly while some thread is there; and once all calls are over the mutex
    is free. *)
Theorem process_mutex_discipline
    (strict : bool) (N : nat) (h0 : heap)
    (k : config Store.t ProcessNexus.pc) :
  heap_ok h0 →
  rtc (pool_step (ProcessNexus.step1 strict) may_fail)
    (racing N Store.zero ProcessNexus.Enter h0) k →
  (∀ t t' p p',
     threads k !! t = Some p → threads k !! t' = Some p' →
     process_critical p = true → process_critical p' = true → t = t') ∧
  (Store.mLock (shared k) = true ↔
   ∃ t p, threads k !! t = Some p ∧ process_critical p = true) ∧
  (all_left ProcessNexus.result k → Store.mLock (shared k) = false).
Proof.
  intros Hh Hrun. pose proof (process_inv_reachable _ _ _ _ Hh Hrun) as Hinv.
  split_and!.
  - apply (pinv_mutex _ _ Hinv).
  - split; [apply (pinv_holder _ _ Hinv)|].
    intros (t & p & Ht & Hp). by eapply (pinv_held _ _ Hinv).
  - intros Hleft. destruct (Store.mLock (shared k)) eqn:Hl; [|done].
    destruct (pinv_holder _ _ Hinv Hl) as (t & p & Ht & Hp).
    destruct (Hleft _ _ Ht) as [r Hr]. by destruct p.
Qed.

Lemma process_mutex_discipline_witness :
  Store.mLock
    (shared (racing 2 Store.zero ProcessNexus.Enter empty_heap)) = true ↔
  ∃ t p,
    threads (racing 2 Store.zero ProcessNexus.Enter empty_heap) !! t = Some p ∧
    process_critical p = true.
Proof.
  apply (process_mutex_discipline false 2 empty_heap
           (racing 2 Store.zero ProcessNexus.Enter empty_heap) heap_ok_empty
           (rtc_refl _ _)).
Defined.

(** Whoever sets [mObject] goes on to return it. *)
Lemma process_publisher_stays (strict : bool) (N : nat) (h0 : heap)
    (k : config Store.t ProcessNexus.pc) :
  rtc (pool_step (ProcessNexus.step1 strict) may_fail)
    (racing N Store.zero ProcessNexus.Enter h0) k →
  Store.mObject (shared k) ≠ 0 →
  ∃ t p, threads k !! t = Some p ∧ process_publisher p = true.
Proof.
  intros Hrun.
  eapply (rtc_ind_r (λ k, Store.mObject (shared k) ≠ 0 →
            ∃ t p, threads k !! t = Some p ∧ process_publisher p = true));
    [| |exact Hrun]; [done|].
  intros k1 k2 _ Hstep IH.
  destruct Hstep as [t0 c p p' s s' h h' ths Ht0 Hc Hs1]. simpl in *.
  assert (t0 < length ths)%nat as Hlt by (by eapply lookup_lt_Some).
  assert (process_publisher p' = true ∨
          (Store.mObject s' = Store.mObject s ∧
           process_publisher p = false)) as [Hp'|[E Hp]].
  { destruct p as [| | | | | | |[e|r]|[e|r]]; simpl in Hs1;
      repeat case_match; simplify_eq; simpl; auto. }
  - intros _. exists t0, p'. split; [by apply list_lookup_insert_eq | done].
  - rewrite E. intros Hnz. destruct (IH Hnz) as (t & q & Ht & Hq).
    exists t, q. split; [|done]. rewrite list_lookup_insert_ne; [done|].
    intros ->. congruence.
Qed.

(** X12.  When every constructor of a race for a process nexus has thrown, so
    that all calls are over and none has returned, the store is as before
    the race - [mObject] NULL, the mutex free - and nothing has been
    constructed: the next call starts afresh. *)
Theorem process_failed_race_leaves_store_new
    (strict : bool) (N : nat) (h0 : heap)
    (k : config Store.t ProcessNexus.pc) :
  heap_ok h0 →
  rtc (pool_step (ProcessNexus.step1 strict) may_fail)
    (racing N Store.zero ProcessNexus.Enter h0) k →
  all_left ProcessNexus.result k →
  (∀ t r, ¬ returned ProcessNexus.result k t r) →
  shared k = Store.zero ∧ built (free_store k) = built h0 ∧
  ∀ t p, threads k !! t = Some p → ∃ e, p = ProcessNexus.Left (inl e).
Proof.
  intros Hh Hrun Hleft Hnone.
  pose proof (process_inv_reachable _ _ _ _ Hh Hrun) as Hinv.
  assert (∀ t p, threads k !! t = Some p → ∃ e, p = ProcessNexus.Left (inl e))
    as Hthrew.
  { intros t p Ht. destruct (Hleft _ _ Ht) as [r Hr].
    destruct p as [| | | | | | | |[e|r']]; try discriminate; [by exists e|].
    destruct (Hnone t r'). by eexists. }
  assert (Store.mLock (shared k) = false) as Hl.
  { destruct (Store.mLock (shared k)) eqn:Hl; [|done].
    destruct (pinv_holder _ _ Hinv Hl) as (t & p & Ht & Hp).
    destruct (Hthrew _ _ Ht) as [e ->]. discriminate. }
  assert (Store.mObject (shared k) = 0) as Hz.
  { destruct (decide (Store.mObject (shared k) = 0)) as [|Hnz]; [done|].
    destruct (process_publisher_stays _ _ _ _ Hrun Hnz) as (t & p & Ht & Hp).
    destruct (Hthrew _ _ Ht) as [e ->]. discriminate. }
  split_and!; auto.
  - destruct (shared k) as [p l]; simpl in *. by rewrite Hz, Hl.
  - apply (pinv_none _ _ Hinv Hz). intros t a Ht.
    by destruct (Hthrew _ _ Ht) as [e ?].
Qed.

Lemma process_failed_race_leaves_store_new_witness :
  let k := Config Store.zero empty_heap [ProcessNexus.Left (inl BadAlloc)] in
  shared k = Store.zero ∧ built (free_store k) = built empty_heap.
Proof.
  intros k.
  destruct (process_failed_race_leaves_store_new false 1 empty_heap k
              heap_ok_empty) as (H1 & H2 & _).
  - unfold racing, k; simpl.
    eapply rtc_l; [by eapply (pool_step_thread _ _ 0 (Raises BadAlloc))|].
    eapply rtc_l; [by eapply (pool_step_thread _ _ 0 (Raises BadAlloc))|].
    eapply rtc_l; [by eapply (pool_step_thread _ _ 0 (Raises BadAlloc))|].
    eapply rtc_l; [by eapply (pool_step_thread _ _ 0 (Raises BadAlloc))|].
    eapply rtc_l; [by eapply (pool_step_thread _ _ 0 (Raises BadAlloc))|].
    apply rtc_refl.
  - intros [|t] p; simpl; [intros [= <-]; by eexists | done].
  - intros [|t] r (p & Ht & Hp); simpl in *; [|done].
    injection Ht as <-. discriminate.
  - split; [exact H1 | exact H2].
Defined.

(** ** More on the race on a thread nexus *)

(** X13.  In a race on a thread nexus, whatever the constructors do and
    wherever the race stands: as many instances have been constructed as
    threads have got past [new Type]; a call that has returned has returned
    the living instance in its thread's cell; no two calls have returned the
    same reference; and a thread whose constructor threw has left its cell
    empty. *)
Theorem thread_race_whatever_the_constructors
    (N : nat) (h0 : heap) (k : config ThreadNexus.t ThreadNexus.pc) :
  heap_ok h0 →
  rtc (pool_step ThreadNexus.step1 may_fail)
    (racing N ThreadNexus.ctor_ ThreadNexus.Get h0) k →
  built (free_store k) = (built h0 + total thread_built (threads k))%nat ∧
  (∀ t r, returned ThreadNexus.result k t r →
     ThreadNexus.get (shared k) t = r ∧ r ≠ 0 ∧
     is_Some (live (free_store k) !! r)) ∧
  (∀ t t' r r',
     returned ThreadNexus.result k t r → returned ThreadNexus.result k t' r' →
     t ≠ t' → r ≠ r') ∧
  (∀ t e, threads k !! t = Some (ThreadNexus.Left (inl e)) →
     ThreadNexus.get (shared k) t = 0).
Proof.
  intros Hh Hrun. pose proof (thread_inv_reachable _ _ _ Hh Hrun) as Hinv.
  assert (∀ t r, returned ThreadNexus.result k t r →
            ThreadNexus.mSlot (shared k) !! t = Some r ∧ r ≠ 0) as Hcell.
  { intros t r (p & Ht & Hp). destruct p as [| | | |[e|r']]; try discriminate.
    injection Hp as ->.
    destruct (tinv_thread _ _ Hinv _ _ Ht) as [Hg Hnz].
    split; [by apply thread_get_nonzero | done]. }
  split_and!.
  - apply (tinv_built _ _ Hinv).
  - intros t r Hr. destruct (Hcell _ _ Hr) as [Hc Hnz]. split_and!; auto.
    + by apply thread_get_nonzero.
    + by destruct (tinv_owns _ _ Hinv _ _ Hc Hnz).
  - intros t t' r r' Hr Hr' Hne ->.
    destruct (Hcell _ _ Hr) as [Hc Hnz]. destruct (Hcell _ _ Hr') as [Hc' _].
    destruct (tinv_owns _ _ Hinv _ _ Hc Hnz) as [_ Hu].
    apply Hne. symmetry. by apply Hu.
  - intros t e Ht. apply (tinv_thread _ _ Hinv _ _ Ht).
Qed.

Lemma thread_race_whatever_the_constructors_witness :
  let k := Config ThreadNexus.ctor_ empty_heap
             [ThreadNexus.Left (inl BadAlloc); ThreadNexus.Get] in
  built (free_store k) = (built empty_heap + total thread_built (threads k))%nat.
Proof.
  intros k.
  apply (thread_race_whatever_the_constructors 2 empty_heap k heap_ok_empty).
  unfold racing, k; simpl.
  eapply rtc_l; [by eapply (pool_step_thread _ _ 0 (Raises BadAlloc))|].
  eapply rtc_l; [by eapply (pool_step_thread _ _ 0 (Raises BadAlloc))|].
  apply rtc_refl.
Defined.

Lemma thread_step_weight (me : nat) (c : ctor) (p p' : ThreadNexus.pc)
    (n n' : ThreadNexus.t) (h h' : heap) :
  ThreadNexus.step1 me c p n h = Some (p', n', h') →
  (thread_weight p' < thread_weight p)%nat.
Proof.
  destruct p; simpl; repeat case_match; intros [= <- <- <-]; simpl; lia.
Qed.

Lemma thread_race_shrinks (env : heap → ctor → Prop)
    (n : nat) (k k' : config ThreadNexus.t ThreadNexus.pc) :
  nsteps (pool_step ThreadNexus.step1 env) n k k' →
  (n + total thread_weight (threads k') ≤ total thread_weight (threads k))%nat.
Proof.
  induction 1 as [|n k1 k2 k3 Hstep _ IH]; [lia|].
  destruct Hstep as [t c p p' s s' h h' ths Ht Hc Hs]. simpl in *.
  pose proof (total_insert thread_weight ths t p p' Ht).
  pose proof (thread_step_weight _ _ _ _ _ _ _ _ Hs). lia.
Qed.

(** X14.  The call of a thread nexus waits for nobody: a thread whose call is
    not over can take its next step in every state of the nexus and of the
    free store, whatever the other threads are doing, and a race of [N]
    calls is over after at most [4 * N] steps; it can always be run to its
    end, whether the constructors fail or not. *)
Theorem thread_access_waits_for_nobody :
  (∀ (me : nat) (c : ctor) (p : ThreadNexus.pc) (n : ThreadNexus.t) (h : heap),
     ThreadNexus.result p = None →
     is_Some (ThreadNexus.step1 me c p n h)) ∧
  (∀ env, ends_within ThreadNexus.step1 env 4 ThreadNexus.ctor_ ThreadNexus.Get) ∧
  can_finish ThreadNexus.step1 ThreadNexus.result may_fail
    ThreadNexus.ctor_ ThreadNexus.Get.
Proof.
  split_and!.
  - intros me c p n h Hp.
    destruct (thread_step_nearer me c p n h Hp) as (p' & n' & h' & Hs & _).
    by eexists.
  - intros env N n h0 k Hrun.
    pose proof (thread_race_shrinks _ _ _ _ Hrun) as Hb.
    rewrite total_racing in Hb. simpl in Hb. lia.
  - intros N h0 k Hh Hrun.
    apply (inv_finish ThreadNexus.step1 ThreadNexus.result may_fail
             (λ _, True) thread_weight); [done| |done].
    intros [n h ths] _ (t & p & Ht & Hp); simpl in *.
    destruct (thread_step_nearer t (Raises BadAlloc) p n h Hp)
      as (p' & n' & h' & Hs & Hlt).
    eexists. split.
    { eapply (pool_step_thread _ _ t (Raises BadAlloc)); [done | exact I | done]. }
    simpl. pose proof (total_insert thread_weight ths t p p' Ht). lia.
Qed.

(** ** Histories of calls and resets *)

(** X15.  Through any sequence of calls and resets on a module nexus without
    atomic operations that starts from the zero-initialised nexus: no call
    waits and no reset is undefined; the nexus holds at most one instance,
    which lives; and every instance constructed since the start, but the one
    the nexus holds, has been destroyed - none is leaked, none destroyed
    twice. *)
Theorem plain_history_keeps_one_instance
    (strict : bool) (h0 h : heap) (n : PlainModuleNexus.t) :
  heap_ok h0 →
  plain_history strict PlainModuleNexus.zero h0 n h →
  heap_ok h ∧ plain_owns n h ∧
  (built h + length (destroyed h0)
   = built h0 + length (destroyed h) + plain_holds n)%nat ∧
  size (live h) = (size (live h0) + plain_holds n)%nat ∧
  (∀ c, (PlainModuleNexus.call strict c n h).1.1 ≠ Blocks) ∧
  (∃ h', PlainModuleNexus.reset n h = Done (PlainModuleNexus.zero, h')).
Proof.
  intros Hh0 Hhist.
  assert (heap_ok h ∧ plain_owns n h ∧
          (built h + length (destroyed h0)
           = built h0 + length (destroyed h) + plain_holds n)%nat ∧
          size (live h) = (size (live h0) + plain_holds n)%nat) as Hinv.
  { remember PlainModuleNexus.zero as n0 eqn:Hn0.
    induction Hhist as [n h|n h n1 h1 c r n2 h2 _ IH Hc Hcall
                        |n h n1 h1 n2 h2 _ IH Hreset].
    - subst n. unfold plain_holds, plain_owns; simpl.
      split_and!; auto; lia.
    - specialize (IH Hh0 Hn0) as (Hh1 & [Hl Hown] & Hb & Hsz).
      rewrite plain_call_unlocked in Hcall by done. unfold plain_holds in *.
      destruct (nonzero (PlainModuleNexus.mSingleton n1)) eqn:Hp.
      + injection Hcall as <- <- <-. rewrite Hp. by split_and!.
      + destruct c as [a|e]; injection Hcall as <- <- <-; simpl.
        * pose proof Hc as (Ha0 & _ & Hfresh).
          apply nonzero_true in Ha0 as Ha0'. rewrite Ha0'.
          split_and!.
          -- by apply heap_ok_new.
          -- split; [done|]. simpl. intros _. rewrite lookup_insert_eq.
             by eexists.
          -- lia.
          -- rewrite map_size_insert_None by done. lia.
        * rewrite Hp. by split_and!.
    - specialize (IH Hh0 Hn0) as (Hh1 & [Hl Hown] & Hb & Hsz).
      unfold PlainModuleNexus.reset in Hreset. unfold plain_holds in *.
      destruct (nonzero (PlainModuleNexus.mSingleton n1)) eqn:Hp.
      + apply nonzero_true in Hp. destruct (Hown Hp) as [o Ho].
        rewrite (delete_live _ _ _ Hh1 Ho) in Hreset.
        injection Hreset as <- <-. simpl. split_and!.
        * by apply heap_ok_delete.
        * split; [done|]. simpl. done.
        * lia.
        * rewrite map_size_delete_Some by done. rewrite Hsz. lia.
      + apply nonzero_false in Hp. rewrite Hp, delete_null in Hreset.
        injection Hreset as <- <-. simpl. split_and!; auto.
        split; [done|]. simpl. done. }
  destruct Hinv as (Hh & [Hl Hown] & Hb & Hsz). split_and!; auto.
  - by split.
  - intros c. rewrite plain_call_unlocked by done.
    destruct (nonzero (PlainModuleNexus.mSingleton n)); [done|].
    by destruct c.
  - unfold PlainModuleNexus.reset.
    destruct (decide (PlainModuleNexus.mSingleton n = 0)) as [Hz|Hnz].
    + rewrite Hz, delete_null. exists h. unfold PlainModuleNexus.zero.
      by rewrite Hl.
    + destruct (Hown Hnz) as [o Ho]. rewrite (delete_live _ _ _ Hh Ho).
      eexists. unfold PlainModuleNexus.zero. by rewrite Hl.
Qed.

Lemma plain_history_keeps_one_instance_witness :
  heap_ok (Heap ∅ 1 [0%nat]) ∧
  size (live (Heap ∅ 1 [0%nat]))
  = (size (live empty_heap) + plain_holds PlainModuleNexus.zero)%nat.
Proof.
  destruct (plain_history_keeps_one_instance false empty_heap
              (Heap ∅ 1 [0%nat]) PlainModuleNexus.zero heap_ok_empty)
    as (H1 & _ & _ & H2 & _).
  - eapply (plain_history_reset false _ _
              (PlainModuleNexus.Make 4096 false) (Heap {[4096 := 0%nat]} 1 []));
      [|reflexivity].
    eapply (plain_history_call false _ _ PlainModuleNexus.zero empty_heap
              (Built 4096) (Returns 4096));
      [apply plain_history_nil | | reflexivity].
    split; [discriminate | split; reflexivity].
  - split; [exact H1 | exact H2].
Defined.

(** X16.  Through any sequence of calls on a thread nexus, by any threads in
    any order: a cell that holds an instance keeps holding that instance, so
    a thread is given the instance of its first successful call for ever; the
    instances of different threads are different and live; nothing is ever
    destroyed. *)
Theorem thread_history_keeps_instances
    (n0 n : ThreadNexus.t) (h0 h : heap) :
  heap_ok h0 → thread_owns n0 h0 →
  thread_history n0 h0 n h →
  heap_ok h ∧ thread_owns n h ∧
  destroyed h = destroyed h0 ∧
  (∀ t, ThreadNexus.get n0 t ≠ 0 →
        ThreadNexus.get n t = ThreadNexus.get n0 t) ∧
  (∀ t c, ThreadNexus.get n0 t ≠ 0 →
          ThreadNexus.call t c n h = (Returns (ThreadNexus.get n0 t), n, h)) ∧
  (∀ t t', t ≠ t' → ThreadNexus.get n t ≠ 0 →
           ThreadNexus.get n t ≠ ThreadNexus.get n t' ∧
           is_Some (live h !! ThreadNexus.get n t)).
Proof.
  intros Hh0 Hown0 Hhist.
  assert (heap_ok h ∧ thread_owns n h ∧ destroyed h = destroyed h0 ∧
          ∀ t, ThreadNexus.get n0 t ≠ 0 →
               ThreadNexus.get n t = ThreadNexus.get n0 t) as Hinv.
  { induction Hhist as [n h|n h n1 h1 me c r n2 h2 _ IH Hc Hcall];
      [by split_and!|].
    specialize (IH Hh0 Hown0) as (Hh1 & Hown1 & Hd & Hkeep).
    destruct (decide (ThreadNexus.get n1 me = 0)) as [Hz|Hnz].
    - rewrite thread_call_first in Hcall by done.
      destruct c as [a|e]; injection Hcall as <- <- <-; [|by split_and!].
      split_and!; auto.
      + by apply heap_ok_new.
      + by apply thread_owns_set.
      + intros t Ht. rewrite <- (Hkeep t Ht). apply thread_get_set_ne.
        intros ->. rewrite (Hkeep t Ht) in Hz. done.
    - rewrite thread_call_cached in Hcall by done.
      injection Hcall as <- <- <-. by split_and!. }
  destruct Hinv as (Hh & Hown & Hd & Hkeep). split_and!; auto.
  - intros t c Ht. rewrite <- (Hkeep t Ht). apply thread_call_cached.
    by rewrite (Hkeep t Ht).
  - intros t t' Hne Hnz.
    pose proof (proj1 (thread_get_nonzero n t _ Hnz) eq_refl) as Hcell.
    destruct (Hown _ _ Hcell Hnz) as [Hl Hu]. split; [|done].
    intros E. apply Hne. symmetry. apply Hu.
    apply thread_get_nonzero; [done | by symmetry].
Qed.

Lemma thread_history_keeps_instances_witness :
  ThreadNexus.call 0 (Raises BadAlloc)
    (ThreadNexus.set (ThreadNexus.set ThreadNexus.ctor_ 0 4096) 1 8192)
    (Heap (<[8192 := 1%nat]> {[4096 := 0%nat]}) 2 [])
  = (Returns (ThreadNexus.get (ThreadNexus.set ThreadNexus.ctor_ 0 4096) 0),
     ThreadNexus.set (ThreadNexus.set ThreadNexus.ctor_ 0 4096) 1 8192,
     Heap (<[8192 := 1%nat]> {[4096 := 0%nat]}) 2 []).
Proof.
  assert (heap_ok (Heap {[4096 := 0%nat]} 1 [])) as Hh.
  { intros a o; simpl. intros [<- <-]%lookup_singleton_Some.
    split; [discriminate | split; [reflexivity | lia]]. }
  assert (thread_owns (ThreadNexus.set ThreadNexus.ctor_ 0 4096)
            (Heap {[4096 := 0%nat]} 1 [])) as Hown.
  { apply (thread_owns_set 0 4096 ThreadNexus.ctor_ empty_heap
             (thread_owns_empty _) eq_refl).
    split; [discriminate | split; reflexivity]. }
  destruct (thread_history_keeps_instances
              (ThreadNexus.set ThreadNexus.ctor_ 0 4096)
              (ThreadNexus.set (ThreadNexus.set ThreadNexus.ctor_ 0 4096) 1 8192)
              (Heap {[4096 := 0%nat]} 1 [])
              (Heap (<[8192 := 1%nat]> {[4096 := 0%nat]}) 2 []) Hh Hown)
    as (_ & _ & _ & _ & Hcall & _).
  - eapply (thread_history_call _ _ _ _ 1 (Built 8192) (Returns 8192));
      [apply thread_history_nil | | reflexivity].
    split; [discriminate | split; reflexivity].
  - apply Hcall. discriminate.
Defined.

Lemma thread_access_waits_for_nobody_witness :
  is_Some (ThreadNexus.step1 1 (Built 8192) ThreadNexus.New
             (ThreadNexus.set ThreadNexus.ctor_ 0 4096)
             (Heap {[4096 := 0%nat]} 1 [])).
Proof.
  apply (proj1 thread_access_waits_for_nobody 1%nat (Built 8192)
           ThreadNexus.New (ThreadNexus.set ThreadNexus.ctor_ 0 4096)
           (Heap {[4096 := 0%nat]} 1 [])).
  reflexivity.
Defined.
